(** * lightweight_mmm/models.py: the media mix model and its transforms

    A shallow embedding of [lightweight_mmm/models.py].  The Python module
    declares a numpyro model: it looks priors up in dictionaries, draws
    latent parameters inside plates, reshapes them with [jnp.expand_dims],
    hands them to the kernels of [media_transforms] and contracts the result
    with [jnp.einsum].

    The development follows the layers of the program:
    - [result]: Python exceptions as an error type;
    - [jnp]: arrays as a shape and row-major data, with broadcasting,
      [expand_dims] and [einsum];
    - [numpyro]: the effect of a model run (sample sites, plates,
      deterministic nodes) as a state-and-error computation over a recorded
      trace;
    - [media_transforms]: the five numerical kernels, an interface with
      contracts (their code is not part of models.py);
    - [models]: the functions of models.py, one definition each. *)

From Stdlib Require Import ZArith List String Ascii Lia Bool.
From stdpp Require Import base gmap strings list pretty.


(** ** Exceptions *)

(** The Python exceptions the program can raise, and the one failure the
    specification names for the transform registry. *)
Inductive error : Type :=
  | IndexError
  | KeyError
  | ValueError
  | TypeError
  | AssertionError
  | UnknownTransformName.

Inductive result (A : Type) : Type :=
  | Ok (a : A)
  | Err (e : error).
Arguments Ok {A} a.
Arguments Err {A} e.

Definition is_ok {A} (r : result A) : bool :=
  match r with Ok _ => true | Err _ => false end.

(** [d[k]] on a dictionary: a missing key raises [KeyError]. *)
Definition getitem {V} (d : gmap string V) (k : string) : result V :=
  match d !! k with Some v => Ok v | None => Err KeyError end.

(** [t[i]] on a tuple: an index past the end raises [IndexError]. *)
Definition tuple_getitem (t : list nat) (i : nat) : result nat :=
  match t !! i with Some n => Ok n | None => Err IndexError end.

(** ** Scalars

    Array elements are floats in the program.  Nothing below depends on how
    they round: the element type is any type with constants, an addition and
    a multiplication. *)
Class Scalar (R : Type) : Type := {
  sconst : Z → R;
  sadd : R → R → R;
  smul : R → R → R
}.

Definition szero {R} `{Scalar R} : R := sconst 0.
Definition sone {R} `{Scalar R} : R := sconst 1.

(** Sum of a list of scalars, the accumulation of a contraction. *)
Definition ssum {R} `{Scalar R} (l : list R) : R := foldr sadd szero l.

#[export] Instance Z_scalar : Scalar Z :=
  {| sconst := id; sadd := Z.add; smul := Z.mul |}.

(** ** Arrays *)

Module jnp.

(** An array: its [shape] and its elements in row-major order. *)
Record ndarray (R : Type) : Type := mk_ndarray {
  shape : list nat;
  data : list R
}.
Arguments mk_ndarray {R} shape data.
Arguments shape {R} n.
Arguments data {R} n.

Definition ndim {R} (a : ndarray R) : nat := length (shape a).

(** Number of elements of an array of shape [s]. *)
Definition numel (s : list nat) : nat := foldr Nat.mul 1 s.

Definition well_formed {R} (a : ndarray R) : Prop :=
  length (data a) = numel (shape a).

(** All multi-indices of shape [s], in row-major order. *)
Fixpoint indices (s : list nat) : list (list nat) :=
  match s with
  | [] => [[]]
  | n :: s' => flat_map (λ i, map (cons i) (indices s')) (seq 0 n)
  end.

(** Row-major offset of the multi-index [idx] in shape [s]. *)
Fixpoint ravel (s idx : list nat) : nat :=
  match s, idx with
  | _ :: s', i :: idx' => i * numel s' + ravel s' idx'
  | _, _ => 0
  end.

Section arrays.
Context {R : Type} `{Scalar R}.

(** [a[idx]] for a full multi-index. *)
Definition item (a : ndarray R) (idx : list nat) : R :=
  nth (ravel (shape a) idx) (data a) szero.

(** A Python number used as an array: shape [()]. *)
Definition scalar (x : R) : ndarray R := mk_ndarray [] [x].

(** [jnp.full(s, x)]. *)
Definition full (s : list nat) (x : R) : ndarray R :=
  mk_ndarray s (repeat x (numel s)).

(** [jnp.expand_dims(a, axis=-1)]: one trailing axis of length 1; the
    elements are untouched. *)
Definition expand_dims (a : ndarray R) : ndarray R :=
  mk_ndarray (shape a ++ [1]) (data a).

(** *** Broadcasting *)

(** NumPy's rule on shapes read from the last axis: two lengths are
    compatible when they are equal or one of them is 1; the shorter shape
    is padded on the left. *)
Fixpoint broadcast_rev (a b : list nat) : option (list nat) :=
  match a, b with
  | [], _ => Some b
  | _, [] => Some a
  | x :: a', y :: b' =>
      if (x =? y)%nat then cons x <$> broadcast_rev a' b'
      else if (x =? 1)%nat then cons y <$> broadcast_rev a' b'
      else if (y =? 1)%nat then cons x <$> broadcast_rev a' b'
      else None
  end.

Definition broadcast_shapes (a b : list nat) : option (list nat) :=
  @rev nat <$> broadcast_rev (rev a) (rev b).

(** [s] broadcasts to [target] without changing [target]. *)
Definition broadcasts_to (s target : list nat) : Prop :=
  broadcast_shapes s target = Some target.

#[export] Instance broadcasts_to_dec s target : Decision (broadcasts_to s target).
Proof. unfold broadcasts_to. apply _. Defined.

(** The index read in an operand of shape [s] for the index [idx] of the
    broadcast result: the trailing axes of [idx], with 0 on the axes of
    length 1. *)
Definition align (s idx : list nat) : list nat :=
  zip_with (λ n i, if (n =? 1)%nat then 0 else i) s
           (drop (length idx - length s) idx).

Definition bitem (a : ndarray R) (idx : list nat) : R :=
  item a (align (shape a) idx).

(** [jnp.broadcast_to(a, s)]. *)
Definition broadcast_to (s : list nat) (a : ndarray R) : option (ndarray R) :=
  if decide (broadcasts_to (shape a) s)
  then Some (mk_ndarray s (map (bitem a) (indices s)))
  else None.

(** An elementwise binary operation with broadcasting; incompatible
    shapes raise. *)
Definition broadcast_binop (f : R → R → R) (a b : ndarray R)
  : result (ndarray R) :=
  match broadcast_shapes (shape a) (shape b) with
  | Some s =>
      Ok (mk_ndarray s (map (λ idx, f (bitem a idx) (bitem b idx)) (indices s)))
  | None => Err ValueError
  end.

(** [a + b]. *)
Definition add : ndarray R → ndarray R → result (ndarray R) :=
  broadcast_binop sadd.

(** [a[..., g]]: the slice of [a] at position [g] of its last axis. *)
Definition take_last (g : nat) (a : ndarray R) : ndarray R :=
  let s := removelast (shape a) in
  mk_ndarray s (map (λ idx, item a (idx ++ [g])) (indices s)).

(** *** einsum *)

Definition labels_env : Type := list (ascii * nat).

Fixpoint env_lookup (l : ascii) (env : labels_env) : option nat :=
  match env with
  | [] => None
  | (l', d) :: env' => if Ascii.eqb l l' then Some d else env_lookup l env'
  end.

(** The subscripts string split into its operand terms and its output
    term.  Blanks are dropped; only the explicit form (with [->]) is
    read. *)
Fixpoint split_comma (cur : list ascii) (s : list ascii) : list (list ascii) :=
  match s with
  | [] => [rev cur]
  | c :: s' =>
      if Ascii.eqb c ","%char then rev cur :: split_comma [] s'
      else split_comma (c :: cur) s'
  end.

Fixpoint split_arrow (cur : list ascii) (s : list ascii)
  : option (list ascii * list ascii) :=
  match s with
  | [] => None
  | c :: s' =>
      match s' with
      | c' :: s'' =>
          if Ascii.eqb c "-"%char && Ascii.eqb c' ">"%char
          then Some (rev cur, s'')
          else split_arrow (c :: cur) s'
      | [] => None
      end
  end.

Definition parse_subscripts (subscripts : string)
  : option (list (list ascii) * list ascii) :=
  let s := filter (λ c, c ≠ " "%char) (list_ascii_of_string subscripts) in
  match split_arrow [] s with
  | Some (ins, out) => Some (split_comma [] ins, out)
  | None => None
  end.

(** Each label of a term is given the length of the axis it names; a term
    whose length differs from the operand's rank, or a label that names
    axes of two lengths, is refused. *)
Fixpoint bind_labels (term : list ascii) (dims : list nat) (env : labels_env)
  : option labels_env :=
  match term, dims with
  | [], [] => Some env
  | l :: term', d :: dims' =>
      match env_lookup l env with
      | Some d' =>
          if (d =? d')%nat then bind_labels term' dims' env else None
      | None => bind_labels term' dims' (env ++ [(l, d)])
      end
  | _, _ => None
  end.

(** The index of an operand under an assignment of the labels. *)
Definition subscript (asg : labels_env) (term : list ascii) : list nat :=
  map (λ l, default 0 (env_lookup l asg)) term.

(** The contraction over two operands once the labels are known. *)
Definition contract (ta tb out : list ascii) (env : labels_env)
    (a b : ndarray R) : ndarray R :=
  let summed := filter (λ l, l ∉ out) (map fst env) in
  let out_shape := subscript env out in
  let sum_shape := subscript env summed in
  mk_ndarray out_shape
    (map (λ oi,
            ssum (map (λ si,
                         let asg := zip out oi ++ zip summed si in
                         smul (item a (subscript asg ta))
                              (item b (subscript asg tb)))
                      (indices sum_shape)))
         (indices out_shape)).

(** [jnp.einsum(subscripts, a, b)]. *)
Definition einsum (subscripts : string) (a b : ndarray R)
  : result (ndarray R) :=
  match parse_subscripts subscripts with
  | Some ([ta; tb], out) =>
      match bind_labels ta (shape a) [] with
      | Some env1 =>
          match bind_labels tb (shape b) env1 with
          | Some env =>
              if forallb (λ l, bool_decide (is_Some (env_lookup l env))) out
              then Ok (contract ta tb out env a b)
              else Err ValueError
          | None => Err ValueError
          end
      | None => Err ValueError
      end
  | _ => Err ValueError
  end.

End arrays.

End jnp.

(** ** The numpyro model run

    Running a numpyro model under its handlers is a sequence of effects:
    every [numpyro.sample] and [numpyro.deterministic] statement declares a
    site, and a [with numpyro.plate(...)] block changes the shape of the
    sites declared inside it.  A run is modelled as a computation that reads
    the random draws and the stack of open plates, and that extends a
    record of what it declared; an exception stops it, and the record keeps
    what was declared before. *)

Module numpyro.
Import jnp.

Section handlers.
Context {R : Type} `{Scalar R}.

(** *** Distributions *)

(** The distribution families the program builds, and the point mass. *)
Inductive Distribution : Type :=
  | HalfNormal (scale : ndarray R)
  | Normal (loc scale : ndarray R)
  | Gamma (concentration rate : ndarray R)
  | Beta (concentration1 concentration0 : ndarray R)
  | Delta (v : ndarray R).

(** The batch shape is the broadcast of the parameters' shapes; numpyro
    refuses parameters that do not broadcast. *)
Definition batch_shape (d : Distribution) : option (list nat) :=
  match d with
  | HalfNormal s => Some (shape s)
  | Normal l s => broadcast_shapes (shape l) (shape s)
  | Gamma c r => broadcast_shapes (shape c) (shape r)
  | Beta c1 c0 => broadcast_shapes (shape c1) (shape c0)
  | Delta v => Some (shape v)
  end.

(** *** Sites and plates *)

(** An open plate: its name, its (negative) batch dimension and its
    size. *)
Record CondIndepStackFrame : Type := {
  frame_name : string;
  frame_dim : Z;
  frame_size : nat
}.

Inductive site_type : Type := sample_site | deterministic_site.

(** What a run records of a declared site. *)
Record Site : Type := {
  site_kind : site_type;
  site_name : string;
  site_fn : option Distribution;
  site_value : ndarray R;
  site_is_observed : bool;
  site_cond_indep_stack : list CondIndepStackFrame
}.

(** A call that leaves the model for a numerical kernel: the callee,
    the data it transforms and its parameters that are arrays, by
    keyword. *)
Record kernel_call : Type := {
  callee : string;
  call_data : ndarray R;
  call_params : list (string * ndarray R)
}.

(** The record of a run: the sites in the order they were declared, and
    the kernel calls in the order they were made. *)
Record run_record : Type := {
  trace : list Site;
  kernel_calls : list kernel_call
}.

Definition empty_record : run_record :=
  {| trace := []; kernel_calls := [] |}.

(** What a run reads: the value drawn at each latent site (a stream of
    scalars for every site name, of which the site takes as many as its
    shape asks for) and the open plates, innermost first. *)
Record run_env : Type := {
  draws : string → nat → R;
  open_plates : list CondIndepStackFrame
}.

(** *** The monad of model runs *)

Definition M (A : Type) : Type :=
  run_env → run_record → result A * run_record.

Definition ret {A} (a : A) : M A := λ _ w, (Ok a, w).

Definition bind {A B} (m : M A) (k : A → M B) : M B :=
  λ e w,
    match m e w with
    | (Ok a, w') => k a e w'
    | (Err x, w') => (Err x, w')
    end.

Definition raise {A} (x : error) : M A := λ _ w, (Err x, w).

(** A pure step that may raise. *)
Definition lift {A} (r : result A) : M A := λ _ w, (r, w).

Definition declare (s : Site) : M unit :=
  λ _ w, (Ok tt, {| trace := trace w ++ [s]; kernel_calls := kernel_calls w |}).

Definition record_call (c : kernel_call) : M unit :=
  λ _ w, (Ok tt, {| trace := trace w; kernel_calls := kernel_calls w ++ [c] |}).

(** *** Plates *)

(** The first free dimension, counted down from -1. *)
Fixpoint allocate_dim (fuel : nat) (occupied : list Z) (d : Z) : Z :=
  match fuel with
  | 0 => d
  | S fuel' =>
      if bool_decide (d ∈ occupied)
      then allocate_dim fuel' occupied (d - 1)
      else d
  end.

(** [with numpyro.plate(name, size, dim): body].  numpyro asserts that
    the size is positive, refuses a non-negative [dim] and asserts that
    the dimension is free; without [dim] the plate takes the first free
    one. *)
Definition plate {A} (name : string) (size : nat) (dim : option Z)
    (body : M A) : M A :=
  λ e w,
    if (size =? 0)%nat then (Err AssertionError, w)
    else
      let occupied := frame_dim <$> open_plates e in
      let enter (d : Z) :=
        body {| draws := draws e;
                open_plates :=
                  {| frame_name := name; frame_dim := d; frame_size := size |}
                  :: open_plates e |} w in
      match dim with
      | Some d =>
          if (0 <=? d)%Z then (Err ValueError, w)
          else if bool_decide (d ∈ occupied) then (Err AssertionError, w)
          else enter d
      | None => enter (allocate_dim (length occupied) occupied (-1))
      end.

(** [with numpyro.plate_stack(prefix, sizes): body]: one plate per
    size, the last size at dimension -1 and entered first; the plates are
    named [prefix_0], [prefix_1], ... from the right. *)
Fixpoint plate_stack_from {A} (prefix : string) (i : nat)
    (reversed_sizes : list nat) (body : M A) : M A :=
  match reversed_sizes with
  | [] => body
  | size :: rest =>
      plate (prefix +:+ "_" +:+ pretty i) size (Some (-1 - Z.of_nat i)%Z)
            (plate_stack_from prefix (S i) rest body)
  end.

Definition plate_stack {A} (prefix : string) (sizes : list nat)
    (body : M A) : M A :=
  plate_stack_from prefix 0 (rev sizes) body.

(** The shape the plates of [stack] ask for: as many axes as the deepest
    plate needs, the size of each plate at its dimension and 1
    elsewhere. *)
Definition expected_shape (stack : list CondIndepStackFrame) : list nat :=
  let n_dims := Z.to_nat (foldr Z.max 0%Z ((λ f, - frame_dim f)%Z <$> stack)) in
  foldl (λ acc f, <[Z.to_nat (Z.of_nat n_dims + frame_dim f) := frame_size f]> acc)
        (replicate n_dims 1) stack.

(** One plate handling a sample statement: the distribution is expanded
    to the broadcast of its batch shape with the expected shape. *)
Definition plate_expand (stack : list CondIndepStackFrame) (bs : list nat)
  : option (list nat) :=
  let expected := expected_shape stack in
  let overlap_idx := length expected - length bs in
  match broadcast_shapes (drop overlap_idx expected) bs with
  | Some s => Some (take overlap_idx expected ++ s)
  | None => None
  end.

(** The open plates handle the statement from the innermost outwards;
    each sees the frames of the plates inside it and its own. *)
Fixpoint plates_expand (seen rest : list CondIndepStackFrame) (bs : list nat)
  : option (list nat) :=
  match rest with
  | [] => Some bs
  | f :: rest' =>
      match plate_expand (seen ++ [f]) bs with
      | Some bs' => plates_expand (seen ++ [f]) rest' bs'
      | None => None
      end
  end.

(** *** Statements *)

(** The value of a latent site of shape [s]: the point mass gives its
    value, every other family the draw the run was given. *)
Definition draw_value (draw : nat → R) (fn : Distribution) (s : list nat)
  : result (ndarray R) :=
  match fn with
  | Delta v =>
      match broadcast_to s v with
      | Some x => Ok x
      | None => Err ValueError
      end
  | _ => Ok (mk_ndarray s (map draw (seq 0 (numel s))))
  end.

(** [numpyro.sample(name, fn, obs=obs)]. *)
Definition sample (name : string) (fn : Distribution)
    (obs : option (ndarray R)) : M (ndarray R) :=
  λ e w,
    match batch_shape fn with
    | None => (Err ValueError, w)
    | Some bs =>
        match plates_expand [] (open_plates e) bs with
        | None => (Err ValueError, w)
        | Some s =>
            bind (match obs with
                  | Some o => ret o
                  | None => lift (draw_value (draws e name) fn s)
                  end)
                 (λ v,
                    bind (declare
                            {| site_kind := sample_site;
                               site_name := name;
                               site_fn := Some fn;
                               site_value := v;
                               site_is_observed := bool_decide (is_Some obs);
                               site_cond_indep_stack := open_plates e |})
                         (λ _, ret v))
                 e w
        end
    end.

(** [numpyro.deterministic(name, value)]. *)
Definition deterministic (name : string) (value : ndarray R)
  : M (ndarray R) :=
  λ e w,
    bind (declare
            {| site_kind := deterministic_site;
               site_name := name;
               site_fn := None;
               site_value := value;
               site_is_observed := false;
               site_cond_indep_stack := open_plates e |})
         (λ _, ret value) e w.

End handlers.

Arguments Distribution R : clear implicits.
Arguments Site R : clear implicits.
Arguments kernel_call R : clear implicits.
Arguments run_record R : clear implicits.
Arguments run_env R : clear implicits.
Arguments M R A : clear implicits.

End numpyro.

Declare Scope run_scope.
Delimit Scope run_scope with run.
Notation "'let*' x ':=' m 'in' k" := (numpyro.bind m (λ x, k))
  (at level 10, x name, m at level 100, k at level 200) : run_scope.
Notation "'do*' m 'in' k" := (numpyro.bind m (λ _, k))
  (at level 10, m at level 100, k at level 200) : run_scope.

Local Open Scope run_scope.

(** ** The kernels of media_transforms

    models.py calls five functions of the module [media_transforms], whose
    code is not in models.py: they are an interface here.  A kernel takes
    arrays and returns an array or raises.  Every call is kept in the run
    record with the arrays it was given. *)

Module media_transforms.
Import jnp numpyro.

Class Kernels (R : Type) : Type := {
  adstock_kernel :
    ndarray R → ndarray R → bool → result (ndarray R);
  carryover_kernel :
    ndarray R → ndarray R → ndarray R → Z → result (ndarray R);
  hill_kernel :
    ndarray R → ndarray R → ndarray R → result (ndarray R);
  exponential_kernel :
    ndarray R → ndarray R → result (ndarray R);
  apply_exponent_safe_kernel :
    ndarray R → ndarray R → result (ndarray R)
}.

(** *** Contracts of the kernels

    What the model relies on.  Every kernel returns an array of the shape of
    its data when its parameters broadcast against the data: the lag weight
    of [adstock] against one time step, the parameters of [carryover]
    against the channel axis, the parameters of the elementwise kernels
    against the whole array. *)
Class ShapePreserving {R : Type} `{Scalar R} (K : Kernels R) : Prop := {
  adstock_shape d w n :
    broadcasts_to (shape w) (tail (shape d)) →
    ∃ out, adstock_kernel d w n = Ok out ∧ shape out = shape d;
  carryover_shape d r p lags c :
    shape d !! 1 = Some c →
    broadcasts_to (shape r) [c] → broadcasts_to (shape p) [c] →
    ∃ out, carryover_kernel d r p lags = Ok out ∧ shape out = shape d;
  hill_shape d h s :
    broadcasts_to (shape h) (shape d) → broadcasts_to (shape s) (shape d) →
    ∃ out, hill_kernel d h s = Ok out ∧ shape out = shape d;
  exponential_shape d s :
    broadcasts_to (shape s) (shape d) →
    ∃ out, exponential_kernel d s = Ok out ∧ shape out = shape d;
  apply_exponent_safe_shape d x :
    broadcasts_to (shape x) (shape d) →
    ∃ out, apply_exponent_safe_kernel d x = Ok out ∧ shape out = shape d
}.

(** A kernel reads a parameter through its broadcast only: two parameters
    with the same broadcast give the same result. *)
Class BroadcastInvariant {R : Type} `{Scalar R} (K : Kernels R) : Prop := {
  adstock_broadcast d w w' n :
    is_Some (broadcast_to (tail (shape d)) w) →
    broadcast_to (tail (shape d)) w = broadcast_to (tail (shape d)) w' →
    adstock_kernel d w n = adstock_kernel d w' n;
  exponential_broadcast d s s' :
    is_Some (broadcast_to (shape d) s) →
    broadcast_to (shape d) s = broadcast_to (shape d) s' →
    exponential_kernel d s = exponential_kernel d s'
}.

(** On geo data (rank 3) a kernel works on every geo slice by itself: with
    parameters that have a trailing axis of length 1 (and, for
    [carryover], per-channel parameters), the slice of the result at a geo
    is the result on the slice of the data. *)
Class GeoLocal {R : Type} `{Scalar R} (K : Kernels R) : Prop := {
  adstock_geo d w n out g ws :
    ndim d = 3 → shape d !! 2 = Some g → shape w = ws ++ [1] →
    broadcasts_to (shape w) (tail (shape d)) →
    adstock_kernel d w n = Ok out →
    ∀ i, i < g →
      adstock_kernel (take_last i d) (take_last 0 w) n = Ok (take_last i out);
  carryover_geo d r p lags out c g :
    ndim d = 3 → shape d !! 1 = Some c → shape d !! 2 = Some g →
    broadcasts_to (shape r) [c] → broadcasts_to (shape p) [c] →
    carryover_kernel d r p lags = Ok out →
    ∀ i, i < g →
      carryover_kernel (take_last i d) r p lags = Ok (take_last i out);
  hill_geo d h s out g hs ss :
    ndim d = 3 → shape d !! 2 = Some g →
    shape h = hs ++ [1] → shape s = ss ++ [1] →
    broadcasts_to (shape h) (shape d) → broadcasts_to (shape s) (shape d) →
    hill_kernel d h s = Ok out →
    ∀ i, i < g →
      hill_kernel (take_last i d) (take_last 0 h) (take_last 0 s)
      = Ok (take_last i out);
  exponential_geo d s out g ss :
    ndim d = 3 → shape d !! 2 = Some g → shape s = ss ++ [1] →
    broadcasts_to (shape s) (shape d) →
    exponential_kernel d s = Ok out →
    ∀ i, i < g →
      exponential_kernel (take_last i d) (take_last 0 s) = Ok (take_last i out);
  apply_exponent_safe_geo d x out g xs :
    ndim d = 3 → shape d !! 2 = Some g → shape x = xs ++ [1] →
    broadcasts_to (shape x) (shape d) →
    apply_exponent_safe_kernel d x = Ok out →
    ∀ i, i < g →
      apply_exponent_safe_kernel (take_last i d) (take_last 0 x)
      = Ok (take_last i out)
}.

(** Kernels that check their parameters as the contracts ask and return
    the data as it is: the least instance of the interface, used to run the
    model on concrete data. *)
Definition checking_kernels (R : Type) `{Scalar R} : Kernels R := {|
  adstock_kernel d w _ :=
    if decide (broadcasts_to (shape w) (tail (shape d)))
    then Ok d else Err ValueError;
  carryover_kernel d r p _ :=
    match shape d !! 1 with
    | Some c =>
        if decide (broadcasts_to (shape r) [c] ∧ broadcasts_to (shape p) [c])
        then Ok d else Err ValueError
    | None => Err IndexError
    end;
  hill_kernel d h s :=
    if decide (broadcasts_to (shape h) (shape d)
               ∧ broadcasts_to (shape s) (shape d))
    then Ok d else Err ValueError;
  exponential_kernel d s :=
    if decide (broadcasts_to (shape s) (shape d))
    then Ok d else Err ValueError;
  apply_exponent_safe_kernel d x :=
    if decide (broadcasts_to (shape x) (shape d))
    then Ok d else Err ValueError
|}.

Section calls.
Context {R : Type} `{Scalar R} `{Kernels R}.

(** [media_transforms.adstock(data=, lag_weight=, normalise=)]. *)
Definition adstock (data lag_weight : ndarray R) (normalise : bool)
  : M R (ndarray R) :=
  do* record_call {| callee := "adstock";
                     call_data := data;
                     call_params := [("lag_weight", lag_weight)] |} in
  lift (adstock_kernel data lag_weight normalise).

(** [media_transforms.carryover(data=, ad_effect_retention_rate=,
    peak_effect_delay=, number_lags=)]. *)
Definition carryover (data ad_effect_retention_rate peak_effect_delay
    : ndarray R) (number_lags : Z) : M R (ndarray R) :=
  do* record_call
        {| callee := "carryover";
           call_data := data;
           call_params :=
             [("ad_effect_retention_rate", ad_effect_retention_rate);
              ("peak_effect_delay", peak_effect_delay)] |} in
  lift (carryover_kernel data ad_effect_retention_rate peak_effect_delay
          number_lags).

(** [media_transforms.hill(data=, half_max_effective_concentration=,
    slope=)]. *)
Definition hill (data half_max_effective_concentration slope : ndarray R)
  : M R (ndarray R) :=
  do* record_call
        {| callee := "hill";
           call_data := data;
           call_params :=
             [("half_max_effective_concentration",
               half_max_effective_concentration);
              ("slope", slope)] |} in
  lift (hill_kernel data half_max_effective_concentration slope).

(** [media_transforms.exponential(data=, slope=)]. *)
Definition exponential (data slope : ndarray R) : M R (ndarray R) :=
  do* record_call {| callee := "exponential";
                     call_data := data;
                     call_params := [("slope", slope)] |} in
  lift (exponential_kernel data slope).

(** [media_transforms.apply_exponent_safe(data=, exponent=)]. *)
Definition apply_exponent_safe (data exponent : ndarray R)
  : M R (ndarray R) :=
  do* record_call {| callee := "apply_exponent_safe";
                     call_data := data;
                     call_params := [("exponent", exponent)] |} in
  lift (apply_exponent_safe_kernel data exponent).

End calls.

End media_transforms.

(** ** models.py *)

Module models.
Import jnp numpyro.

Definition _INTERCEPT : string := "intercept".
Definition _COEF_TREND : string := "coef_trend".
Definition _SIGMA : string := "sigma".
Definition _COEF_EXTRA_FEATURES : string := "coef_extra_features".

Definition MODEL_PRIORS_NAMES : gset string :=
  {[ _INTERCEPT; _COEF_TREND; _SIGMA; _COEF_EXTRA_FEATURES ]}.

Definition _EXPONENT : string := "exponent".
Definition _LAG_WEIGHT : string := "lag_weight".
Definition _HALF_MAX_EFFECTIVE_CONCENTRATION : string :=
  "half_max_effective_concentration".
Definition _SLOPE : string := "slope".
Definition _AD_EFFECT_RETENTION_RATE : string := "ad_effect_retention_rate".
Definition _PEAK_EFFECT_DELAY : string := "peak_effect_delay".

Definition TRANSFORM_PRIORS_NAMES : gmap string (gset string) :=
  {[ "carryover" :=
       {[ _AD_EFFECT_RETENTION_RATE; _PEAK_EFFECT_DELAY; _EXPONENT ]};
     "adstock" := {[ _EXPONENT; _LAG_WEIGHT ]};
     "hill_adstock" :=
       {[ _LAG_WEIGHT; _HALF_MAX_EFFECTIVE_CONCENTRATION; _SLOPE ]};
     "exponential_adstock" := {[ _LAG_WEIGHT; _SLOPE ]};
     "exponential_adstock_static_dim" := {[ _LAG_WEIGHT; _SLOPE ]};
     "exponential_adstock_static_decay" := {[ _LAG_WEIGHT; _SLOPE ]};
     "exponential_adstock_static_dim_decay" := {[ _LAG_WEIGHT; _SLOPE ]} ]}.

Section priors.
Context {R : Type} `{Scalar R}.

(** A prior as the model receives it: a distribution, or a plain number
    or array.  (The dictionary and sequence forms of the [Prior] union
    are turned into distributions by the caller of the model.) *)
Inductive Prior : Type :=
  | prior_distribution (d : Distribution R)
  | prior_value (v : ndarray R).

(** A Python float literal. *)
Definition float (z : Z) : ndarray R := scalar (sconst z).

Definition _get_default_priors : gmap string Prior :=
  {[ _INTERCEPT := prior_distribution (HalfNormal (float 2));
     _COEF_TREND := prior_distribution (Normal (float 0) (float 1));
     _SIGMA := prior_distribution (Gamma (float 1) (float 1));
     _COEF_EXTRA_FEATURES :=
       prior_distribution (Normal (float 0) (float 1)) ]}.

Definition _get_transform_default_priors
  : gmap string (gmap string Prior) :=
  {[ "carryover" :=
       {[ _AD_EFFECT_RETENTION_RATE :=
            prior_distribution (Beta (float 1) (float 1));
          _PEAK_EFFECT_DELAY := prior_distribution (HalfNormal (float 2));
          _EXPONENT := prior_distribution (Beta (float 9) (float 1)) ]};
     "adstock" :=
       {[ _EXPONENT := prior_distribution (Beta (float 9) (float 1));
          _LAG_WEIGHT := prior_distribution (Beta (float 2) (float 1)) ]};
     "hill_adstock" :=
       {[ _LAG_WEIGHT := prior_distribution (Beta (float 2) (float 1));
          _HALF_MAX_EFFECTIVE_CONCENTRATION :=
            prior_distribution (Gamma (float 1) (float 1));
          _SLOPE := prior_distribution (Gamma (float 1) (float 1)) ]};
     "exponential_adstock" :=
       {[ _LAG_WEIGHT := prior_distribution (Beta (float 2) (float 1));
          _SLOPE := prior_distribution (Gamma (float 1) (float 1)) ]};
     "exponential_adstock_static_dim" :=
       {[ _LAG_WEIGHT := prior_distribution (Beta (float 2) (float 1)) ]};
     "exponential_adstock_static_decay" :=
       {[ _SLOPE := prior_distribution (Gamma (float 1) (float 1)) ]};
     "exponential_adstock_static_dim_decay" := ∅ ]}.

(** The expression [custom_priors.get(name, default_priors[name])]: the
    subscript is evaluated first and raises on a name the default table
    lacks; then the custom entry wins when there is one. *)
Definition resolve_prior (custom_priors default_priors : gmap string Prior)
    (name : string) : result Prior :=
  match getitem default_priors name with
  | Ok d => Ok (default d (custom_priors !! name))
  | Err e => Err e
  end.

(** [numpyro.sample(name=name, fn=prior)]: numpyro refuses an [fn] that
    is not a distribution. *)
Definition sample_prior (name : string) (prior : Prior) : M R (ndarray R) :=
  match prior with
  | prior_distribution d => sample name d None
  | prior_value _ => raise TypeError
  end.

(** A prior used as a plain value ([custom_priors.get(name, 1)] handed to
    [jnp.expand_dims] or to a kernel): a distribution is not an array. *)
Definition as_array (prior : Prior) : result (ndarray R) :=
  match prior with
  | prior_value v => Ok v
  | prior_distribution _ => Err TypeError
  end.

(** The block
    [with numpyro.plate(name=f"{name}_plate", size=media_data.shape[1]):
       x = numpyro.sample(name=name,
                          fn=custom_priors.get(name, default_priors[name]))]
    that every sampled transform parameter goes through. *)
Definition sample_per_channel (media_data : ndarray R)
    (custom_priors default_priors : gmap string Prior) (name : string)
  : M R (ndarray R) :=
  let* size := lift (tuple_getitem (shape media_data) 1) in
  plate (name +:+ "_plate") size None
    (let* fn := lift (resolve_prior custom_priors default_priors name) in
     sample_prior name fn).

(** [x = jnp.expand_dims(x, axis=-1)] under [if media_data.ndim == 3]. *)
Definition expand_if_geo (media_data x : ndarray R) : ndarray R :=
  if (ndim media_data =? 3)%nat then expand_dims x else x.

End priors.

Arguments Prior R : clear implicits.

Section transforms.
Context {R : Type} `{Scalar R} `{media_transforms.Kernels R}.

Definition transform_adstock (media_data : ndarray R)
    (custom_priors : gmap string (Prior R)) (normalise : bool)
  : M R (ndarray R) :=
  let* transform_default_priors :=
    lift (getitem _get_transform_default_priors "adstock") in
  let* lag_weight :=
    sample_per_channel media_data custom_priors transform_default_priors
      _LAG_WEIGHT in
  let* exponent :=
    sample_per_channel media_data custom_priors transform_default_priors
      _EXPONENT in
  let lag_weight := expand_if_geo media_data lag_weight in
  let exponent := expand_if_geo media_data exponent in
  let* adstock := media_transforms.adstock media_data lag_weight normalise in
  media_transforms.apply_exponent_safe adstock exponent.

Definition transform_hill_adstock (media_data : ndarray R)
    (custom_priors : gmap string (Prior R)) (normalise : bool)
  : M R (ndarray R) :=
  let* transform_default_priors :=
    lift (getitem _get_transform_default_priors "hill_adstock") in
  let* lag_weight :=
    sample_per_channel media_data custom_priors transform_default_priors
      _LAG_WEIGHT in
  let* half_max_effective_concentration :=
    sample_per_channel media_data custom_priors transform_default_priors
      _HALF_MAX_EFFECTIVE_CONCENTRATION in
  let* slope :=
    sample_per_channel media_data custom_priors transform_default_priors
      _SLOPE in
  let lag_weight := expand_if_geo media_data lag_weight in
  let half_max_effective_concentration :=
    expand_if_geo media_data half_max_effective_concentration in
  let slope := expand_if_geo media_data slope in
  let* adstock := media_transforms.adstock media_data lag_weight normalise in
  media_transforms.hill adstock half_max_effective_concentration slope.

Definition transform_exponential_adstock (media_data : ndarray R)
    (custom_priors : gmap string (Prior R)) (normalise : bool)
  : M R (ndarray R) :=
  let* transform_default_priors :=
    lift (getitem _get_transform_default_priors "exponential_adstock") in
  let* lag_weight :=
    sample_per_channel media_data custom_priors transform_default_priors
      _LAG_WEIGHT in
  let* slope :=
    sample_per_channel media_data custom_priors transform_default_priors
      _SLOPE in
  let lag_weight := expand_if_geo media_data lag_weight in
  let slope := expand_if_geo media_data slope in
  let* adstock := media_transforms.adstock media_data lag_weight normalise in
  media_transforms.exponential adstock slope.

Definition transform_exponential_adstock_static_dim
    (media_data : ndarray R) (custom_priors : gmap string (Prior R))
    (normalise : bool) : M R (ndarray R) :=
  let* transform_default_priors :=
    lift (getitem _get_transform_default_priors
            "exponential_adstock_static_dim") in
  let* lag_weight :=
    sample_per_channel media_data custom_priors transform_default_priors
      _LAG_WEIGHT in
  let slope := default (prior_value (float 1)) (custom_priors !! _SLOPE) in
  let* slope := lift (as_array slope) in
  let lag_weight := expand_if_geo media_data lag_weight in
  let slope := expand_if_geo media_data slope in
  let* adstock := media_transforms.adstock media_data lag_weight normalise in
  media_transforms.exponential adstock slope.

Definition transform_exponential_adstock_static_decay
    (media_data : ndarray R) (custom_priors : gmap string (Prior R))
    (normalise : bool) : M R (ndarray R) :=
  let* transform_default_priors :=
    lift (getitem _get_transform_default_priors
            "exponential_adstock_static_decay") in
  let lag_weight :=
    default (prior_value (float 1)) (custom_priors !! _LAG_WEIGHT) in
  let* slope :=
    sample_per_channel media_data custom_priors transform_default_priors
      _SLOPE in
  let* lag_weight := lift (as_array lag_weight) in
  let lag_weight := expand_if_geo media_data lag_weight in
  let slope := expand_if_geo media_data slope in
  let* adstock := media_transforms.adstock media_data lag_weight normalise in
  media_transforms.exponential adstock slope.

Definition transform_exponential_adstock_static_dim_decay
    (media_data : ndarray R) (custom_priors : gmap string (Prior R))
    (normalise : bool) : M R (ndarray R) :=
  let* transform_default_priors :=
    lift (getitem _get_transform_default_priors
            "exponential_adstock_static_dim_decay") in
  let lag_weight :=
    default (prior_value (float 1)) (custom_priors !! _LAG_WEIGHT) in
  let slope := default (prior_value (float 1)) (custom_priors !! _SLOPE) in
  let* lag_weight := lift (as_array lag_weight) in
  let* slope := lift (as_array slope) in
  let lag_weight := expand_if_geo media_data lag_weight in
  let slope := expand_if_geo media_data slope in
  let* adstock := media_transforms.adstock media_data lag_weight normalise in
  media_transforms.exponential adstock slope.

Definition transform_carryover (media_data : ndarray R)
    (custom_priors : gmap string (Prior R)) (number_lags : Z)
  : M R (ndarray R) :=
  let* transform_default_priors :=
    lift (getitem _get_transform_default_priors "carryover") in
  let* ad_effect_retention_rate :=
    sample_per_channel media_data custom_priors transform_default_priors
      _AD_EFFECT_RETENTION_RATE in
  let* peak_effect_delay :=
    sample_per_channel media_data custom_priors transform_default_priors
      _PEAK_EFFECT_DELAY in
  let* exponent :=
    sample_per_channel media_data custom_priors transform_default_priors
      _EXPONENT in
  let* carryover :=
    media_transforms.carryover media_data ad_effect_retention_rate
      peak_effect_delay number_lags in
  let exponent := expand_if_geo media_data exponent in
  media_transforms.apply_exponent_safe carryover exponent.

(** *** Keyword arguments *)

(** A value of [transform_kwargs]. *)
Inductive kwarg : Type :=
  | kw_bool (b : bool)
  | kw_int (n : Z).

Definition kw_as_bool (v : kwarg) : option bool :=
  match v with kw_bool b => Some b | kw_int _ => None end.

Definition kw_as_int (v : kwarg) : option Z :=
  match v with kw_int n => Some n | kw_bool b => Some (if b then 1 else 0)%Z end.

(** Binding [**kwargs] to the one optional parameter [key] of a function:
    any other keyword raises [TypeError], a missing one takes the
    default. *)
Definition bind_kwargs {A} (key : string) (read : kwarg → option A)
    (dflt : A) (kwargs : gmap string kwarg) : result A :=
  if bool_decide (dom kwargs ⊆ ({[ key ]} : gset string)) then
    match kwargs !! key with
    | None => Ok dflt
    | Some v =>
        match read v with Some a => Ok a | None => Err TypeError end
    end
  else Err TypeError.

(** The [TransformFunction] protocol:
    [__call__(media_data, custom_priors, **kwargs)]. *)
Definition TransformFunction : Type :=
  ndarray R → gmap string (Prior R) → gmap string kwarg → M R (ndarray R).

(** A function [def f(media_data, custom_priors, normalise=dflt)] as a
    [TransformFunction]. *)
Definition def_normalise (dflt : bool)
    (f : ndarray R → gmap string (Prior R) → bool → M R (ndarray R))
  : TransformFunction :=
  λ media_data custom_priors kwargs,
    let* normalise := lift (bind_kwargs "normalise" kw_as_bool dflt kwargs) in
    f media_data custom_priors normalise.

(** A function [def f(media_data, custom_priors, number_lags=dflt)] as a
    [TransformFunction]. *)
Definition def_number_lags (dflt : Z)
    (f : ndarray R → gmap string (Prior R) → Z → M R (ndarray R))
  : TransformFunction :=
  λ media_data custom_priors kwargs,
    let* number_lags :=
      lift (bind_kwargs "number_lags" kw_as_int dflt kwargs) in
    f media_data custom_priors number_lags.

(** *** The model *)

(** The first statements of [media_mix_model]: the sizes read off the
    shape of the media data. *)
Definition media_shape (media_data : ndarray R)
  : result (nat * nat * list nat * nat) :=
  match tuple_getitem (shape media_data) 0 with
  | Err e => Err e
  | Ok data_size =>
  match tuple_getitem (shape media_data) 1 with
  | Err e => Err e
  | Ok n_channels =>
  match (if (ndim media_data =? 3)%nat
         then match tuple_getitem (shape media_data) 2 with
              | Ok g => Ok [g]
              | Err e => Err e
              end
         else Ok []) with
  | Err e => Err e
  | Ok geo_shape =>
  match (if (ndim media_data =? 3)%nat
         then tuple_getitem (shape media_data) 2
         else Ok 1) with
  | Err e => Err e
  | Ok n_geos => Ok (data_size, n_channels, geo_shape, n_geos)
  end end end end.

(** How Python prints the tuples handed to [numpyro.plate_stack] as its
    prefix. *)
Definition plate_prefixes_national : string := "('extra_feature',)".
Definition plate_prefixes_geo : string := "('extra_feature', 'geo')".

Definition media_mix_model
    (media_data target_data media_prior media_sigma : ndarray R)
    (transform_function : TransformFunction)
    (custom_priors : gmap string (Prior R))
    (transform_kwargs : option (gmap string kwarg))
    (extra_features : option (ndarray R)) : M R unit :=
  let default_priors := _get_default_priors in
  let* sizes := lift (media_shape media_data) in
  let '(data_size, n_channels, geo_shape, n_geos) := sizes in
  let* intercept :=
    plate (_INTERCEPT +:+ "_plate") n_geos None
      (let* fn := lift (resolve_prior custom_priors default_priors
                          _INTERCEPT) in
       sample_prior _INTERCEPT fn) in
  let* sigma :=
    plate (_SIGMA +:+ "_plate") n_geos None
      (let* fn := lift (resolve_prior custom_priors default_priors _SIGMA) in
       sample_prior _SIGMA fn) in
  let* coef_media :=
    plate "channel_media_plate" n_channels
      (Some (if (ndim media_data =? 3)%nat then -2 else -1)%Z)
      (let* coef_media :=
         sample (if (ndim media_data =? 3)%nat
                 then "channel_coef_media" else "coef_media")
                (Normal media_prior media_sigma) None in
       if (ndim media_data =? 3)%nat then
         plate "geo_media_plate" n_geos (Some (-1)%Z)
           (sample "coef_media" (Normal media_prior media_sigma) None)
       else ret coef_media) in
  let* media_transformed :=
    (let* value :=
       transform_function media_data custom_priors
         (default ∅ transform_kwargs) in
     deterministic "media_transformed" value) in
  (* For national models *)
  let media_einsum := "tc, c -> t" in
  let* prediction :=
    (let* contraction :=
       lift (einsum media_einsum media_transformed coef_media) in
     lift (add intercept contraction)) in
  let* prediction :=
    match extra_features with
    | Some extra_features =>
        let* n_features := lift (tuple_getitem (shape extra_features) 1) in
        let plate_prefixes :=
          if (ndim extra_features =? 3)%nat
          then plate_prefixes_geo else plate_prefixes_national in
        let extra_features_einsum :=
          if (ndim extra_features =? 3)%nat
          then "tfg, fg -> tg" else "tf, f -> t" in
        let extra_features_plates_shape :=
          if (ndim extra_features =? 3)%nat
          then n_features :: geo_shape else [n_features] in
        let* coef_extra_features :=
          plate_stack plate_prefixes extra_features_plates_shape
            (let* fn := lift (resolve_prior custom_priors default_priors
                                _COEF_EXTRA_FEATURES) in
             sample_prior _COEF_EXTRA_FEATURES fn) in
        let* extra_features_effect :=
          lift (einsum extra_features_einsum extra_features
                  coef_extra_features) in
        lift (add prediction extra_features_effect)
    | None => ret prediction
    end in
  let* mu := deterministic "mu" prediction in
  do* sample "target" (Normal mu sigma) (Some target_data) in
  ret tt.

(** *** The seven transforms *)

(** The transform functions of the module under the names of
    [TRANSFORM_PRIORS_NAMES], for given values of their keyword
    parameters. *)
Definition transforms (normalise : bool) (number_lags : Z)
  : list (string * (ndarray R → gmap string (Prior R) → M R (ndarray R))) :=
  [ ("carryover", λ m c, transform_carryover m c number_lags);
    ("adstock", λ m c, transform_adstock m c normalise);
    ("hill_adstock", λ m c, transform_hill_adstock m c normalise);
    ("exponential_adstock",
     λ m c, transform_exponential_adstock m c normalise);
    ("exponential_adstock_static_dim",
     λ m c, transform_exponential_adstock_static_dim m c normalise);
    ("exponential_adstock_static_decay",
     λ m c, transform_exponential_adstock_static_decay m c normalise);
    ("exponential_adstock_static_dim_decay",
     λ m c, transform_exponential_adstock_static_dim_decay m c normalise) ].

(** The same functions as [TransformFunction]s, each with the default of
    its keyword parameter. *)
Definition transform_functions : list (string * TransformFunction) :=
  [ ("carryover", def_number_lags 13 transform_carryover);
    ("adstock", def_normalise true transform_adstock);
    ("hill_adstock", def_normalise true transform_hill_adstock);
    ("exponential_adstock",
     def_normalise false transform_exponential_adstock);
    ("exponential_adstock_static_dim",
     def_normalise false transform_exponential_adstock_static_dim);
    ("exponential_adstock_static_decay",
     def_normalise false transform_exponential_adstock_static_decay);
    ("exponential_adstock_static_dim_decay",
     def_normalise false transform_exponential_adstock_static_dim_decay) ].

(** Modelled from the spec: the dispatch point that receives a transform
    name.  models.py takes the transform as a function; the lookup of a
    name among the seven strategies is in the front end of the library,
    which is not part of models.py.  As the specification words it, a
    name outside the seven recognized strategies fails with
    [UnknownTransformName], and the model is declared only once the name
    is resolved. *)
Definition dispatch (transform_name : string) : result TransformFunction :=
  match (list_to_map transform_functions : gmap string TransformFunction)
          !! transform_name with
  | Some f => Ok f
  | None => Err UnknownTransformName
  end.

(** Modelled from the spec: the model declaration entered by transform
    name (the produced interface of the specification). *)
Definition media_mix_model_by_name
    (media_data target_data media_prior media_sigma : ndarray R)
    (transform_name : string)
    (custom_priors : gmap string (Prior R))
    (transform_kwargs : option (gmap string kwarg))
    (extra_features : option (ndarray R)) : M R unit :=
  let* transform_function := lift (dispatch transform_name) in
  media_mix_model media_data target_data media_prior media_sigma
    transform_function custom_priors transform_kwargs extra_features.

(** *** Vocabulary of the statements *)

(** A run outside any plate, with the given draws. *)
Definition top_level (draw : string → nat → R) : run_env R :=
  {| draws := draw; open_plates := [] |}.


(** The sites of a record that carry the name [name]. *)
Definition sites_named (name : string) (w : run_record R) : list (Site R) :=
  filter (λ s, site_name s = name) (trace w).

(** The sites of a record other than those named [name]. *)
Definition sites_but (name : string) (w : run_record R) : list (Site R) :=
  filter (λ s, site_name s ≠ name) (trace w).

(** A custom prior that is no finer than per channel: its batch shape
    (its shape, for a plain value) broadcasts to the channel axis. *)
Definition per_channel_prior (n_channels : nat) (p : Prior R) : Prop :=
  match p with
  | prior_distribution d =>
      ∃ bs, batch_shape d = Some bs ∧ broadcasts_to bs [n_channels]
  | prior_value v => broadcasts_to (shape v) [n_channels]
  end.

Definition per_channel_priors (n_channels : nat)
    (custom_priors : gmap string (Prior R)) : Prop :=
  map_Forall (λ _ p, per_channel_prior n_channels p) custom_priors.

(** All geo slices of a rank-3 array are the same. *)
Definition geo_invariant (a : ndarray R) : Prop :=
  ∀ g, shape a !! 2 = Some g →
  ∀ i j, i < g → j < g → take_last i a = take_last j a.

(** The point mass at 1, the prior that pins a parameter to 1. *)
Definition point_mass_one : Prior R :=
  prior_distribution (Delta (float 1)).

End transforms.

End models.

(** ** Observing runs *)

Section observing.
Context {R : Type} `{Scalar R}.

(** [after m e w Q]: the run of [m] from the record [w] ends in a result
    and a record that satisfy [Q], whether it returns or raises. *)
Definition after {A} (m : numpyro.M R A) (e : numpyro.run_env R)
    (w : numpyro.run_record R)
    (Q : result A → numpyro.run_record R → Prop) : Prop :=
  Q (m e w).1 (m e w).2.

(** The record after one more site, after one more kernel call. *)
Definition with_site (w : numpyro.run_record R) (s : numpyro.Site R)
  : numpyro.run_record R :=
  {| numpyro.trace := numpyro.trace w ++ [s];
     numpyro.kernel_calls := numpyro.kernel_calls w |}.

Definition with_call (w : numpyro.run_record R) (c : numpyro.kernel_call R)
  : numpyro.run_record R :=
  {| numpyro.trace := numpyro.trace w;
     numpyro.kernel_calls := numpyro.kernel_calls w ++ [c] |}.

(** The site a sample statement declares. *)
Definition sampled_site (e : numpyro.run_env R) (name : string)
    (fn : numpyro.Distribution R) (obs : option (jnp.ndarray R))
    (v : jnp.ndarray R) : numpyro.Site R :=
  {| numpyro.site_kind := numpyro.sample_site;
     numpyro.site_name := name;
     numpyro.site_fn := Some fn;
     numpyro.site_value := v;
     numpyro.site_is_observed := bool_decide (is_Some obs);
     numpyro.site_cond_indep_stack := numpyro.open_plates e |}.

(** The site a deterministic statement declares. *)
Definition deterministic_node (e : numpyro.run_env R) (name : string)
    (v : jnp.ndarray R) : numpyro.Site R :=
  {| numpyro.site_kind := numpyro.deterministic_site;
     numpyro.site_name := name;
     numpyro.site_fn := None;
     numpyro.site_value := v;
     numpyro.site_is_observed := false;
     numpyro.site_cond_indep_stack := numpyro.open_plates e |}.

(** The environment inside one more plate. *)
Definition under_plate (e : numpyro.run_env R)
    (f : numpyro.CondIndepStackFrame) : numpyro.run_env R :=
  {| numpyro.draws := numpyro.draws e;
     numpyro.open_plates := f :: numpyro.open_plates e |}.

(** The plate of a transform parameter, entered outside any other
    plate. *)
Definition channel_plate (name : string) (n_channels : nat)
  : numpyro.CondIndepStackFrame :=
  {| numpyro.frame_name := name +:+ "_plate";
     numpyro.frame_dim := -1;
     numpyro.frame_size := n_channels |}.

End observing.

(** ** Observing kernel calls *)

Section observing_calls.
Context {R : Type} `{Scalar R}.

(** The shape a transform gives to the parameter [k] of the kernel
    [callee] on geo data with [c] channels: the two parameters of the
    carryover kernel keep the shape of their sample; every other parameter
    gets one trailing axis, after the [c] values of its sample or, for a
    parameter without a default prior (a pinned one), after the plain
    number 1. *)
Definition geo_parameter_shape (table : gmap string (models.Prior R))
    (c : nat) (callee k : string) : list nat :=
  if decide (callee = "carryover") then [c]
  else if decide (k ∈ dom table) then [c; 1] else [1].

(** The kernel calls a run added to the record [w]. *)
Definition calls_since (w w' : numpyro.run_record R)
    (calls : list (numpyro.kernel_call R)) : Prop :=
  numpyro.kernel_calls w' = numpyro.kernel_calls w ++ calls.

(** The callee and the shapes of the parameters of every call of a
    record. *)
Definition call_shapes (w : numpyro.run_record R)
  : list (string * list (string * list nat)) :=
  (λ call, (numpyro.callee call,
            (λ kp, (kp.1, jnp.shape kp.2)) <$> numpyro.call_params call))
  <$> numpyro.kernel_calls w.

End observing_calls.

(** ** The exponential adstock composition *)

Section composition.
Context {R : Type} `{Scalar R} `{media_transforms.Kernels R}.

(** The number 1 broadcast to [c] channels: [c] ones. *)
Definition ones (c : nat) : jnp.ndarray R :=
  jnp.mk_ndarray [c] (repeat sone c).

(** What the four exponential adstock transforms return once their
    parameters are known:
    [exponential(adstock(media_data, lag_weight, normalise), slope)]. *)
Definition exponential_of_adstock (media_data lag_weight slope : jnp.ndarray R)
    (normalise : bool) : result (jnp.ndarray R) :=
  match media_transforms.adstock_kernel media_data lag_weight normalise with
  | Ok adstock => media_transforms.exponential_kernel adstock slope
  | Err x => Err x
  end.

(** Two parameters with the same broadcast to the shape [s]. *)
Definition same_broadcast (s : list nat) (p p' : jnp.ndarray R) : Prop :=
  is_Some (jnp.broadcast_to s p) ∧ jnp.broadcast_to s p = jnp.broadcast_to s p'.

End composition.

(** ** Draws *)

Section draws.
Context {R : Type} `{Scalar R}.

(** The value a distribution other than a point mass draws at the site
    [name] for [c] channels. *)
Definition drawn (draw : string → nat → R) (name : string) (c : nat)
  : jnp.ndarray R :=
  jnp.mk_ndarray [c] (map (draw name) (seq 0 (jnp.numel [c]))).

End draws.

(** ** What a computation may declare *)

Section declaring.
Context {R : Type} `{Scalar R}.

(** [declares P m]: from any record and in any environment, the run of [m]
    keeps the sites that were there and adds only sites whose name
    satisfies [P], whether it returns or raises. *)
Definition declares {A} (P : string → Prop) (m : numpyro.M R A) : Prop :=
  ∀ e w, ∃ new,
    numpyro.trace (m e w).2 = numpyro.trace w ++ new
    ∧ Forall (λ s, P (numpyro.site_name s)) new.

(** A prior that can be sampled in a plate of shape [s]: a distribution
    whose batch shape broadcasts to [s]. *)
Definition broadcasting_distribution (s : list nat) (p : models.Prior R)
  : Prop :=
  match p with
  | models.prior_distribution d =>
      ∃ bs, numpyro.batch_shape d = Some bs ∧ jnp.broadcasts_to bs s
  | models.prior_value _ => False
  end.

End declaring.

(** ** The plates of the media coefficients *)

Section coefficient_plates.
Context {R : Type} `{Scalar R}.

(** The plate over channels: at dimension -2 on geo data, where the plate
    over geos is at dimension -1, and at dimension -1 otherwise. *)
Definition channel_media_plate (n_channels : nat) (geo : bool)
  : numpyro.CondIndepStackFrame :=
  {| numpyro.frame_name := "channel_media_plate";
     numpyro.frame_dim := if geo then -2 else -1;
     numpyro.frame_size := n_channels |}.

Definition geo_media_plate (n_geos : nat) : numpyro.CondIndepStackFrame :=
  {| numpyro.frame_name := "geo_media_plate";
     numpyro.frame_dim := -1;
     numpyro.frame_size := n_geos |}.

(** The plate of a model-level parameter, one value per geo. *)
Definition geo_plate (name : string) (n_geos : nat)
  : numpyro.CondIndepStackFrame :=
  {| numpyro.frame_name := name +:+ "_plate";
     numpyro.frame_dim := -1;
     numpyro.frame_size := n_geos |}.

(** The environment of a top-level run inside the given plates, innermost
    first. *)
Definition inside (draw : string → nat → R)
    (plates : list numpyro.CondIndepStackFrame) : numpyro.run_env R :=
  {| numpyro.draws := draw; numpyro.open_plates := plates |}.

End coefficient_plates.

(** ** The model-level priors *)

Section model_priors.
Context {R : Type} `{Scalar R}.

(** [n_geos] as the model computes it from the shape of the media data:
    [shape[2]] for rank 3, and 1 otherwise. *)
Definition n_geos_of (media_shape : list nat) : nat :=
  match media_shape with
  | [_; _; g] => g
  | _ => 1
  end.

(** The custom priors of the intercept and of sigma, if any, can be
    sampled with one value per geo. *)
Definition model_priors_per_geo (n_geos : nat)
    (custom_priors : gmap string (models.Prior R)) : Prop :=
  ∀ name p,
    name = models._INTERCEPT ∨ name = models._SIGMA →
    custom_priors !! name = Some p →
    broadcasting_distribution [n_geos] p.

End model_priors.

(** ** Two runs that differ in one draw *)

Section two_runs.
Context {R : Type} `{Scalar R}.





End two_runs.

(** ** Concrete runs

    Small inputs on integer scalars, with the checking kernels, on which
    the statements below are instantiated. *)

(** National media data: 3 time steps, 2 channels. *)
Definition national_media : jnp.ndarray Z :=
  jnp.mk_ndarray [3; 2] [1; 2; 3; 4; 5; 6]%Z.

(** Geo media data: 2 time steps, 4 channels, 3 geos, the same in every
    geo. *)
Definition geo_media : jnp.ndarray Z :=
  jnp.mk_ndarray [2; 4; 3]
    [1; 1; 1; 2; 2; 2; 3; 3; 3; 4; 4; 4;
     5; 5; 5; 6; 6; 6; 7; 7; 7; 8; 8; 8]%Z.

(** Geo media data with 1 time step, 2 channels and 1 geo. *)
Definition small_geo_media : jnp.ndarray Z :=
  jnp.mk_ndarray [1; 2; 1] [0; 0]%Z.

Definition geo_target : jnp.ndarray Z :=
  jnp.mk_ndarray [2; 3] [0; 0; 0; 0; 0; 0]%Z.

(** Draws: the [k]-th scalar of every site is [k + 1]. *)
Definition counting_draw : string → nat → Z := λ _ k, (Z.of_nat k + 1)%Z.


(** The adstock transform with the checking kernels, as a function of the
    media data and the custom priors, and as a [TransformFunction]. *)
Definition adstock_checked
  : jnp.ndarray Z → gmap string (models.Prior Z)
    → numpyro.M Z (jnp.ndarray Z) :=
  λ m c, @models.transform_adstock Z _ (media_transforms.checking_kernels Z)
           m c true.

Definition carryover_checked
  : jnp.ndarray Z → gmap string (models.Prior Z)
    → numpyro.M Z (jnp.ndarray Z) :=
  λ m c, @models.transform_carryover Z _ (media_transforms.checking_kernels Z)
           m c 13.

Definition adstock_function : @models.TransformFunction Z :=
  @models.def_normalise Z true
    (@models.transform_adstock Z _ (media_transforms.checking_kernels Z)).

(** The run of the model on the geo media data, for given draws. *)
Definition geo_model_run (draw : string → nat → Z)
  : result unit * numpyro.run_record Z :=
  @models.media_mix_model Z _ geo_media geo_target
    (jnp.scalar 0%Z) (jnp.scalar 1%Z) adstock_function ∅ None None
    (models.top_level draw) numpyro.empty_record.

(** A target for the national media data. *)
Definition national_target : jnp.ndarray Z :=
  jnp.mk_ndarray [3] [0; 0; 0]%Z.

(** The run of the model on the national media data, for given draws. *)
Definition national_model_run (draw : string → nat → Z)
  : result unit * numpyro.run_record Z :=
  @models.media_mix_model Z _ national_media national_target
    (jnp.scalar 0%Z) (jnp.scalar 1%Z) adstock_function ∅ None None
    (models.top_level draw) numpyro.empty_record.

(** ** The sites of a run, in order *)

Section sites_in_order.
Context {R : Type} `{Scalar R}.

(** [declares_in_order names m]: from any record and in any environment,
    the run of [m] keeps the sites that were there and adds sites whose
    names are, in this order, the first names of [names]; when it returns
    it has added a site for every name of [names]. *)
Definition declares_in_order {A} (names : list string) (m : numpyro.M R A)
  : Prop :=
  ∀ e w, ∃ new,
    numpyro.trace (m e w).2 = numpyro.trace w ++ new
    ∧ numpyro.site_name <$> new `prefix_of` names
    ∧ ∀ a, (m e w).1 = Ok a → numpyro.site_name <$> new = names.

End sites_in_order.

(** The sites each transform samples, in the order of its statements: the
    parameters it pins are no sites. *)
Definition sampled_sites : list (string * list string) :=
  [ ("carryover",
     [models._AD_EFFECT_RETENTION_RATE; models._PEAK_EFFECT_DELAY;
      models._EXPONENT]);
    ("adstock", [models._LAG_WEIGHT; models._EXPONENT]);
    ("hill_adstock",
     [models._LAG_WEIGHT; models._HALF_MAX_EFFECTIVE_CONCENTRATION;
      models._SLOPE]);
    ("exponential_adstock", [models._LAG_WEIGHT; models._SLOPE]);
    ("exponential_adstock_static_dim", [models._LAG_WEIGHT]);
    ("exponential_adstock_static_decay", [models._SLOPE]);
    ("exponential_adstock_static_dim_decay", []) ].

(** The sites of the model in the order of its statements, for media data
    of rank 3 or not, the sites of the transform, and with extra features
    or without. *)
Definition model_sites (geo : bool) (transform_sites : list string)
    (extra : bool) : list string :=
  [models._INTERCEPT; models._SIGMA]
  ++ (if geo then ["channel_coef_media"; "coef_media"] else ["coef_media"])
  ++ transform_sites
  ++ ["media_transformed"]
  ++ (if extra then [models._COEF_EXTRA_FEATURES] else [])
  ++ ["mu"; "target"].

(** ** Custom priors that fit a transform *)

Section fitting_priors.
Context {R : Type} `{Scalar R}.

(** The custom priors fit a transform on [c] channels: under a name the
    transform samples ([sites]) there is, if anything, a distribution that
    can be sampled with one value per channel; under a name it reads but
    does not sample (a pinned parameter) there is, if anything, a plain
    value that broadcasts to the channels. *)
Definition transform_priors_fit (sites : list string) (names : gset string)
    (c : nat) (custom_priors : gmap string (models.Prior R)) : Prop :=
  ∀ k p, k ∈ names → custom_priors !! k = Some p →
    if decide (k ∈ sites) then broadcasting_distribution [c] p
    else match p with
         | models.prior_value v => jnp.broadcasts_to (jnp.shape v) [c]
         | models.prior_distribution _ => False
         end.

End fitting_priors.

(** Extra features for the national media data: 3 time steps, 1
    feature. *)
Definition national_extra_features : jnp.ndarray Z :=
  jnp.mk_ndarray [3; 1] [1; 2; 3]%Z.

(** The run of the model on the national media data with the extra
    features, for given draws. *)
Definition national_extra_features_run (draw : string → nat → Z)
  : result unit * numpyro.run_record Z :=
  @models.media_mix_model Z _ national_media national_target
    (jnp.scalar 0%Z) (jnp.scalar 1%Z) adstock_function ∅ None
    (Some national_extra_features)
    (models.top_level draw) numpyro.empty_record.

(** Media data with 3 time steps and no channel. *)
Definition no_channel_media : jnp.ndarray Z := jnp.mk_ndarray [3; 0] [].

(** ** Keyword arguments and kernel pipelines *)

(** The one keyword parameter of each transform, besides [media_data] and
    [custom_priors]. *)
Definition keyword_of (name : string) : string :=
  if decide (name = "carryover") then "number_lags" else "normalise".

(** The two kernels each transform calls, in the order of the calls. *)
Definition kernel_pipelines : list (string * (string * string)) :=
  [ ("carryover", ("carryover", "apply_exponent_safe"));
    ("adstock", ("adstock", "apply_exponent_safe"));
    ("hill_adstock", ("adstock", "hill"));
    ("exponential_adstock", ("adstock", "exponential"));
    ("exponential_adstock_static_dim", ("adstock", "exponential"));
    ("exponential_adstock_static_decay", ("adstock", "exponential"));
    ("exponential_adstock_static_dim_decay", ("adstock", "exponential")) ].

Section replaying.
Context {R : Type} `{Scalar R} `{media_transforms.Kernels R}.

(** What a recorded call computed: the kernel of the callee on the data
    and the parameters of the record, with the [normalise] and
    [number_lags] of the transform. *)
Definition replay (normalise : bool) (number_lags : Z)
    (call : numpyro.kernel_call R) : result (jnp.ndarray R) :=
  let data := numpyro.call_data call in
  match numpyro.call_params call with
  | [(_, p)] =>
      if decide (numpyro.callee call = "adstock")
      then media_transforms.adstock_kernel data p normalise
      else if decide (numpyro.callee call = "exponential")
      then media_transforms.exponential_kernel data p
      else if decide (numpyro.callee call = "apply_exponent_safe")
      then media_transforms.apply_exponent_safe_kernel data p
      else Err ValueError
  | [(_, p); (_, q)] =>
      if decide (numpyro.callee call = "carryover")
      then media_transforms.carryover_kernel data p q number_lags
      else if decide (numpyro.callee call = "hill")
      then media_transforms.hill_kernel data p q
      else Err ValueError
  | _ => Err ValueError
  end.

End replaying.

(** The static variant that samples the lag weight only, with the
    checking kernels. *)
Definition static_dim_checked
  : jnp.ndarray Z → gmap string (models.Prior Z)
    → numpyro.M Z (jnp.ndarray Z) :=
  λ m c, @models.transform_exponential_adstock_static_dim Z _
           (media_transforms.checking_kernels Z) m c true.

(** ** The exceptions of a run *)

Section exceptions.
Context {R : Type} `{Scalar R}.

(** [raises_only P m]: from any record and in any environment, an
    exception the run of [m] raises satisfies [P]. *)
Definition raises_only {A} (P : error → Prop) (m : numpyro.M R A) : Prop :=
  ∀ e w x, (m e w).1 = Err x → P x.

(** An exception one of the kernels raises, on some arguments. *)
Definition raised_by_a_kernel (K : media_transforms.Kernels R) (x : error)
  : Prop :=
  (∃ d w n, media_transforms.adstock_kernel d w n = Err x)
  ∨ (∃ d r p lags, media_transforms.carryover_kernel d r p lags = Err x)
  ∨ (∃ d h s, media_transforms.hill_kernel d h s = Err x)
  ∨ (∃ d s, media_transforms.exponential_kernel d s = Err x)
  ∨ (∃ d p, media_transforms.apply_exponent_safe_kernel d p = Err x).

End exceptions.

(** A prior location with one value per channel, for the geo media
    data. *)
Definition per_channel_media_prior : jnp.ndarray Z :=
  jnp.mk_ndarray [4] [0; 0; 0; 0]%Z.

(** Geo media data with 2 time steps, 4 channels and 1 geo. *)
Definition one_geo_media : jnp.ndarray Z :=
  jnp.mk_ndarray [2; 4; 1] [1; 2; 3; 4; 5; 6; 7; 8]%Z.

Definition one_geo_target : jnp.ndarray Z :=
  jnp.mk_ndarray [2; 1] [0; 0]%Z.

(** The run of the model on geo media data with the per-channel prior
    location. *)
Definition per_channel_prior_run (media_data target_data : jnp.ndarray Z)
  : result unit * numpyro.run_record Z :=
  @models.media_mix_model Z _ media_data target_data
    per_channel_media_prior (jnp.scalar 1%Z) adstock_function ∅ None None
    (models.top_level counting_draw) numpyro.empty_record.

(** * Properties *)

Import jnp numpyro media_transforms models.

(** ** Prior resolution *)

Section prior_resolution.
Context {R : Type} `{Scalar R}.

Lemma resolve_prior_valid (custom default_table : gmap string (Prior R))
    (name : string) (d : Prior R) :
  default_table !! name = Some d →
  resolve_prior custom default_table name = Ok (default d (custom !! name)).
Proof. intros Hd. unfold resolve_prior, getitem. by rewrite Hd. Qed.

Lemma resolve_prior_missing (custom default_table : gmap string (Prior R))
    (name : string) :
  default_table !! name = None →
  resolve_prior custom default_table name = Err KeyError.
Proof. intros Hd. unfold resolve_prior, getitem. by rewrite Hd. Qed.

Lemma default_in_custom (custom : gmap string (Prior R)) name d p :
  custom !! name = Some p → default d (custom !! name) = p.
Proof. by intros ->. Qed.

(** C5.  Prior resolution, the expression
    [custom_priors.get(name, default_priors[name])], on a default table
    that holds the name: it gives the entry of the custom mapping when
    the name is one of its keys and the entry of the default table
    otherwise.  This covers every name of every transform's default
    table, and the model-level parameters intercept, sigma and
    coef_extra_features in the table of [_get_default_priors]. *)
Theorem prior_resolution_custom_else_default
    (custom : gmap string (Prior R)) :
  (∀ (default_table : gmap string (Prior R)) (name : string) (d : Prior R),
     default_table !! name = Some d →
     (∀ p, custom !! name = Some p →
           resolve_prior custom default_table name = Ok p)
     ∧ (custom !! name = None →
        resolve_prior custom default_table name = Ok d))
  ∧ (∀ (transform : string) (table : gmap string (Prior R)) (name : string),
       _get_transform_default_priors !! transform = Some table →
       name ∈ dom table →
       ∃ d, table !! name = Some d
            ∧ resolve_prior custom table name
              = Ok (default d (custom !! name)))
  ∧ (∀ name, name ∈ [_INTERCEPT; _SIGMA; _COEF_EXTRA_FEATURES] →
       ∃ d, _get_default_priors !! name = Some d
            ∧ resolve_prior custom _get_default_priors name
              = Ok (default d (custom !! name))).
Proof.
  split; [|split].
  - intros table name d Hd. split.
    + intros p Hp. rewrite (resolve_prior_valid _ _ _ d Hd).
      by rewrite Hp.
    + intros Hn. rewrite (resolve_prior_valid _ _ _ d Hd).
      by rewrite Hn.
  - intros transform table name _ [d Hd]%elem_of_dom.
    exists d. split; [done|]. by apply resolve_prior_valid.
  - intros name Hin.
    assert (∃ d, (_get_default_priors (R:=R)) !! name = Some d) as [d Hd].
    { repeat (apply elem_of_cons in Hin as [-> | Hin]);
        [eexists; reflexivity ..|].
      by apply elem_of_nil in Hin. }
    exists d. split; [done|]. by apply resolve_prior_valid.
Qed.

End prior_resolution.

(** A custom entry for [lag_weight] is what the adstock table resolves
    to. *)
Lemma prior_resolution_witness :
  resolve_prior (R:=Z) {[ _LAG_WEIGHT := point_mass_one ]}
    {[ _LAG_WEIGHT := prior_distribution (Beta (float 2) (float 1)) ]}
    _LAG_WEIGHT
  = Ok point_mass_one.
Proof.
  refine (proj1 (proj1 (prior_resolution_custom_else_default _) _ _ _ _) _ _);
    reflexivity.
Defined.

(** ** The sizes read off the media data *)

Section media_shape.
Context {R : Type} `{Scalar R}.

(** C7, as the code has it.  The first statements of [media_mix_model]
    fail (tuple index out of range) exactly on media data of rank 0 or
    1.  On every other rank they succeed: the number of geos is
    [shape[2]] and the geo shape [(shape[2],)] for rank 3, and 1 and [()]
    for every other rank, rank 4 and above included. *)
Theorem media_shape_by_rank (media_data : ndarray R) :
  match shape media_data with
  | data_size :: n_channels :: rest =>
      media_shape media_data
      = Ok (data_size, n_channels,
            match rest with [n_geos] => [n_geos] | _ => [] end,
            match rest with [n_geos] => n_geos | _ => 1 end)
  | _ => media_shape media_data = Err IndexError
  end.
Proof.
  unfold media_shape, ndim, tuple_getitem.
  destruct (shape media_data) as [|t [|c [|g [|x rest]]]]; reflexivity.
Qed.

End media_shape.

(** Media data of rank 4 passes the shape derivation, as national data. *)
Lemma media_shape_accepts_rank_4 :
  ndim (mk_ndarray [1; 1; 1; 1] [0%Z]) = 4
  ∧ media_shape (mk_ndarray [1; 1; 1; 1] [0%Z]) = Ok (1, 1, [], 1).
Proof. split; reflexivity. Qed.

(** ** Dispatch by name *)

Section dispatch.
Context {R : Type} `{Scalar R} `{Kernels R}.

Lemma dispatch_unknown (transform_name : string) :
  transform_name ∉ dom TRANSFORM_PRIORS_NAMES →
  dispatch transform_name = Err UnknownTransformName.
Proof.
  intros Hnot. unfold dispatch.
  rewrite not_elem_of_list_to_map_1; [done|].
  intros Hin. apply Hnot.
  cbn in Hin.
  repeat (apply elem_of_cons in Hin as [-> | Hin]);
    try (apply elem_of_dom; eexists; reflexivity).
  by apply elem_of_nil in Hin.
Qed.

(** C6.  Entered with a name outside the seven keys of
    [TRANSFORM_PRIORS_NAMES], the model declaration fails with
    [UnknownTransformName] and leaves the run record as it found it: no
    site has been declared.  The name has no default table either. *)
Theorem unknown_transform_name_fails_first
    (transform_name : string)
    (media_data target_data media_prior media_sigma : ndarray R)
    (custom_priors : gmap string (Prior R))
    (transform_kwargs : option (gmap string kwarg))
    (extra_features : option (ndarray R))
    (e : run_env R) (w : run_record R) :
  transform_name ∉ dom TRANSFORM_PRIORS_NAMES →
  media_mix_model_by_name media_data target_data media_prior media_sigma
    transform_name custom_priors transform_kwargs extra_features e w
  = (Err UnknownTransformName, w)
  ∧ getitem (_get_transform_default_priors (R:=R)) transform_name
    = Err KeyError.
Proof.
  intros Hnot. split.
  - unfold media_mix_model_by_name, bind, lift.
    by rewrite (dispatch_unknown _ Hnot).
  - unfold getitem.
    destruct (_get_transform_default_priors !! transform_name) eqn:E;
      [|done].
    exfalso. apply Hnot.
    assert (dom (_get_transform_default_priors (R:=R))
            = dom TRANSFORM_PRIORS_NAMES) as <-.
    { unfold _get_transform_default_priors, TRANSFORM_PRIORS_NAMES.
      by rewrite !dom_insert_L, !dom_singleton_L. }
    apply elem_of_dom. by eexists.
Qed.

End dispatch.

(** ** Reasoning about runs *)

Section runs.
Context {R : Type} `{Scalar R}.

Lemma after_bind {A B} (m : M R A) (k : A → M R B) e w
    (Q : result B → run_record R → Prop) :
  after m e w (λ r w1,
    match r with
    | Ok a => after (k a) e w1 Q
    | Err x => Q (Err x) w1
    end) →
  after (bind m k) e w Q.
Proof.
  unfold after, bind. destruct (m e w) as [[a|x] w1]; simpl; auto.
Qed.

Lemma after_ret {A} (a : A) e w (Q : result A → run_record R → Prop) :
  Q (Ok a) w → after (ret a) e w Q.
Proof. done. Qed.

Lemma after_lift {A} (r : result A) e w (Q : result A → run_record R → Prop) :
  Q r w → after (lift r) e w Q.
Proof. done. Qed.

Lemma after_raise {A} x e w (Q : result A → run_record R → Prop) :
  Q (Err x) w → after (raise x) e w Q.
Proof. done. Qed.

Lemma after_mono {A} (m : M R A) e w (Q Q' : result A → run_record R → Prop) :
  after m e w Q → (∀ r w', Q r w' → Q' r w') → after m e w Q'.
Proof. unfold after. auto. Qed.

Lemma after_record_call c e w (Q : result unit → run_record R → Prop) :
  Q (Ok tt) (with_call w c) → after (record_call c) e w Q.
Proof. done. Qed.

Lemma after_deterministic name (v : ndarray R) e w
    (Q : result (ndarray R) → run_record R → Prop) :
  Q (Ok v) (with_site w (deterministic_node e name v)) →
  after (deterministic name v) e w Q.
Proof. done. Qed.

(** A sample statement raises without declaring anything, or declares
    its one site and returns the value of the site. *)
Lemma after_sample name (fn : Distribution R) obs e w
    (Q : result (ndarray R) → run_record R → Prop) :
  (∀ x, Q (Err x) w) →
  (∀ bs s v,
     batch_shape fn = Some bs →
     plates_expand [] (open_plates e) bs = Some s →
     match obs with
     | Some o => v = o
     | None => draw_value (draws e name) fn s = Ok v
     end →
     Q (Ok v) (with_site w (sampled_site e name fn obs v))) →
  after (sample name fn obs) e w Q.
Proof.
  intros Herr Hok. unfold after, sample.
  destruct (batch_shape fn) as [bs|] eqn:Hbs; [|apply Herr].
  destruct (plates_expand [] (open_plates e) bs) as [s|] eqn:Hs;
    [|apply Herr].
  destruct obs as [o|]; simpl.
  - by apply (Hok bs s o).
  - unfold bind, lift.
    destruct (draw_value (draws e name) fn s) as [v|x] eqn:Hv; simpl;
      [|apply Herr].
    by apply (Hok bs s v).
Qed.

(** Entering a plate: the body runs with one more open plate, unless the
    plate is refused. *)
Lemma after_plate {A} name size dim (body : M R A) e w
    (Q : result A → run_record R → Prop) :
  (∀ x, Q (Err x) w) →
  (∀ d, 0 < size → (d < 0)%Z →
        (dim = None → d = allocate_dim (length (open_plates e))
                            (frame_dim <$> open_plates e) (-1)) →
        (∀ d', dim = Some d' → d = d') →
        after body
          {| draws := draws e;
             open_plates :=
               {| frame_name := name; frame_dim := d; frame_size := size |}
               :: open_plates e |} w Q) →
  after (plate name size dim body) e w Q.
Proof.
  intros Herr Hbody. unfold after, plate.
  destruct (size =? 0)%nat eqn:Hsz; [apply Herr|].
  apply Nat.eqb_neq in Hsz.
  destruct dim as [d|].
  - destruct (0 <=? d)%Z eqn:Hd; [apply Herr|].
    apply Z.leb_gt in Hd.
    case_bool_decide; [apply Herr|].
    apply Hbody; [lia|done|done|]. by intros ? [= ->].
  - rewrite length_fmap.
    apply Hbody; [lia| |done|done].
    clear. generalize (frame_dim <$> open_plates e) as occ.
    intros occ. generalize (length (open_plates e)) as fuel.
    assert (∀ fuel d, (d < 0)%Z → (allocate_dim fuel occ d < 0)%Z) as Hgen.
    { induction fuel as [|fuel IH]; intros d Hd; simpl; [done|].
      case_bool_decide; [apply IH; lia|done]. }
    intros fuel. by apply Hgen.
Qed.

End runs.

(** ** Shapes *)

Section shapes.
Context {R : Type} `{Scalar R}.

Lemma broadcast_rev_length a b c :
  broadcast_rev a b = Some c → length c = length a `max` length b.
Proof.
  revert b c. induction a as [|x a IH]; intros [|y b] c; simpl.
  - by intros [= <-].
  - by intros [= <-].
  - intros [= <-]. simpl. lia.
  - repeat case_match; try done;
      destruct (broadcast_rev a b) as [c'|] eqn:E; simpl; try done;
      intros [= <-]; simpl; rewrite (IH _ _ E); lia.
Qed.

Lemma broadcast_shapes_length a b c :
  broadcast_shapes a b = Some c → length c = length a `max` length b.
Proof.
  unfold broadcast_shapes.
  destruct (broadcast_rev (rev a) (rev b)) as [c'|] eqn:E; simpl; [|done].
  intros [= <-]. rewrite length_rev, (broadcast_rev_length _ _ _ E).
  by rewrite !length_rev.
Qed.

Lemma broadcast_rev_comm a b : broadcast_rev a b = broadcast_rev b a.
Proof.
  revert b. induction a as [|x a IH]; intros [|y b]; simpl; try done.
  rewrite (IH b), (Nat.eqb_sym y x).
  destruct (x =? y)%nat eqn:E; [by apply Nat.eqb_eq in E as ->|].
  by destruct (x =? 1)%nat eqn:E1, (y =? 1)%nat eqn:E2;
    try (apply Nat.eqb_eq in E1 as ->); try (apply Nat.eqb_eq in E2 as ->).
Qed.

Lemma broadcast_shapes_comm a b : broadcast_shapes a b = broadcast_shapes b a.
Proof. unfold broadcast_shapes. by rewrite broadcast_rev_comm. Qed.

Lemma broadcast_shapes_nil_l s : broadcast_shapes [] s = Some s.
Proof. unfold broadcast_shapes. simpl. by rewrite rev_involutive. Qed.

Lemma broadcast_shapes_refl s : broadcast_shapes s s = Some s.
Proof.
  unfold broadcast_shapes.
  assert (∀ l, broadcast_rev l l = Some l) as ->.
  { induction l as [|x l IH]; simpl; [done|].
    by rewrite Nat.eqb_refl, IH. }
  simpl. by rewrite rev_involutive.
Qed.

(** Shapes that end in the same way: the last axes are handled first. *)
Lemma broadcast_shapes_snoc a b x y :
  broadcast_shapes (a ++ [x]) (b ++ [y])
  = if (x =? y)%nat then (λ s, s ++ [x]) <$> broadcast_shapes a b
    else if (x =? 1)%nat then (λ s, s ++ [y]) <$> broadcast_shapes a b
    else if (y =? 1)%nat then (λ s, s ++ [x]) <$> broadcast_shapes a b
    else None.
Proof.
  unfold broadcast_shapes. rewrite !rev_app_distr. simpl.
  repeat case_match; try done;
    by destruct (broadcast_rev (rev a) (rev b)).
Qed.

(** What broadcasts to a single axis. *)
Lemma broadcasts_to_singleton bs n :
  broadcasts_to bs [n] ↔ bs = [] ∨ bs = [1] ∨ bs = [n].
Proof.
  split.
  - intros Hb. pose proof (broadcast_shapes_length _ _ _ Hb) as Hlen.
    simpl in Hlen.
    destruct bs as [|x [|y bs]]; [by left| |simpl in Hlen; lia].
    right. revert Hb. unfold broadcasts_to, broadcast_shapes. simpl.
    destruct (x =? n)%nat eqn:E; [apply Nat.eqb_eq in E as ->; by right|].
    destruct (x =? 1)%nat eqn:E1; [apply Nat.eqb_eq in E1 as ->; by left|].
    destruct (n =? 1)%nat; simpl; [|done].
    intros [= ->]. by rewrite Nat.eqb_refl in E.
  - intros [-> | [-> | ->]].
    + apply broadcast_shapes_nil_l.
    + unfold broadcasts_to, broadcast_shapes.
      by destruct n as [|[|n]].
    + apply broadcast_shapes_refl.
Qed.

Lemma broadcast_to_shape s (a x : ndarray R) :
  broadcast_to s a = Some x → shape x = s.
Proof. unfold broadcast_to. case_decide; [|done]. by intros [= <-]. Qed.

Lemma broadcast_to_is_Some s (a : ndarray R) :
  broadcasts_to (shape a) s → is_Some (broadcast_to s a).
Proof. intros Hb. unfold broadcast_to. by rewrite decide_True. Qed.

Lemma draw_value_shape draw (fn : Distribution R) s v :
  draw_value draw fn s = Ok v → shape v = s.
Proof.
  destruct fn; simpl; try by intros [= <-].
  destruct (broadcast_to s v0) eqn:E; [|done].
  intros [= <-]. by apply broadcast_to_shape in E.
Qed.

(** A draw succeeds when the batch shape of the distribution broadcasts
    to the shape asked for. *)
Lemma draw_value_ok draw (fn : Distribution R) bs s :
  batch_shape fn = Some bs → broadcasts_to bs s →
  ∃ v, draw_value draw fn s = Ok v.
Proof.
  destruct fn; simpl; intros Hbs Hb; try by eexists.
  injection Hbs as <-.
  destruct (broadcast_to_is_Some s v Hb) as [x ->]. by eexists.
Qed.

(** *** The shape of a site under one plate *)

Lemma plates_expand_one f bs :
  plates_expand [] [f] bs = plate_expand [f] bs.
Proof. simpl. by destruct (plate_expand [f] bs). Qed.

Lemma expected_shape_one f :
  frame_dim f = (-1)%Z → expected_shape [f] = [frame_size f].
Proof. intros Hd. unfold expected_shape. simpl. by rewrite Hd. Qed.

Lemma plate_expand_one f bs n :
  frame_dim f = (-1)%Z → frame_size f = n → broadcasts_to bs [n] →
  plate_expand [f] bs = Some [n].
Proof.
  intros Hd Hn Hb. unfold plate_expand. rewrite (expected_shape_one f Hd), Hn.
  apply broadcasts_to_singleton in Hb as [-> | [-> | ->]]; simpl.
  - done.
  - rewrite broadcast_shapes_comm.
    by rewrite (proj2 (broadcasts_to_singleton [1] n)); [|auto].
  - by rewrite broadcast_shapes_refl.
Qed.

End shapes.

(** Goals on the broadcast of shapes whose lengths are known. *)
Ltac solve_broadcast :=
  unfold broadcasts_to, broadcast_shapes;
  cbn -[Nat.eqb];
  repeat first
    [ rewrite Nat.eqb_refl; cbn -[Nat.eqb]
    | match goal with
      | |- context [(?x =? ?y)%nat] =>
          let E := fresh "E" in
          destruct (x =? y)%nat eqn:E;
          [apply Nat.eqb_eq in E; subst|]; cbn -[Nat.eqb]
      end ];
  try done.

(** ** The statements of the transforms *)

Section transform_statements.
Context {R : Type} `{Scalar R} `{Kernels R}.

(** The sampling block of a transform parameter: it raises without
    declaring anything, or it declares the site of the parameter under the
    plate of the parameter and returns its value. *)
Lemma after_sample_per_channel media_data
    (custom_priors default_priors : gmap string (Prior R)) name e w
    (Q : result (ndarray R) → run_record R → Prop) :
  (∀ x, Q (Err x) w) →
  (∀ c f d bs s v,
     shape media_data !! 1 = Some c → 0 < c →
     frame_name f = name +:+ "_plate" → frame_size f = c →
     (open_plates e = [] → frame_dim f = (-1)%Z) →
     resolve_prior custom_priors default_priors name
     = Ok (prior_distribution d) →
     batch_shape d = Some bs →
     plates_expand [] (f :: open_plates e) bs = Some s →
     draw_value (draws e name) d s = Ok v →
     Q (Ok v) (with_site w (sampled_site (under_plate e f) name d None v))) →
  after (sample_per_channel media_data custom_priors default_priors name) e w Q.
Proof.
  intros Herr Hok. unfold sample_per_channel.
  apply after_bind, after_lift. unfold tuple_getitem.
  destruct (shape media_data !! 1) as [c|] eqn:Hc; [|apply Herr].
  apply after_plate; [done|]. intros dim Hpos Hneg Halloc _.
  apply after_bind, after_lift.
  destruct (resolve_prior custom_priors default_priors name) as [[d|v]|x]
    eqn:Hres; [|apply Herr..].
  apply after_sample; [done|]. intros bs s v Hbs Hs Hv.
  apply (Hok c {| frame_name := name +:+ "_plate"; frame_dim := dim;
                  frame_size := c |} d bs s v); try done.
  intros He. rewrite (Halloc eq_refl), He. done.
Qed.

(** The same block when it is known to succeed: outside any plate, with a
    prior whose batch shape broadcasts to the channel axis. *)
Lemma sample_per_channel_run media_data
    (custom_priors default_priors : gmap string (Prior R)) name e w c d bs :
  shape media_data !! 1 = Some c → 0 < c → open_plates e = [] →
  resolve_prior custom_priors default_priors name
  = Ok (prior_distribution d) →
  batch_shape d = Some bs → broadcasts_to bs [c] →
  ∃ v, draw_value (draws e name) d [c] = Ok v
       ∧ sample_per_channel media_data custom_priors default_priors name e w
         = (Ok v,
            with_site w
              (sampled_site (under_plate e (channel_plate name c))
                 name d None v)).
Proof.
  intros Hc Hpos He Hres Hbs Hb.
  destruct (draw_value_ok (draws e name) d bs [c] Hbs Hb) as [v Hv].
  exists v. split; [done|].
  unfold sample_per_channel, bind at 1, lift at 1, tuple_getitem.
  rewrite Hc. unfold plate. rewrite He.
  destruct c as [|c']; [lia|]. simpl.
  unfold bind at 1, lift at 1. rewrite Hres.
  unfold sample_prior, sample. rewrite Hbs. simpl open_plates.
  rewrite plates_expand_one.
  rewrite (plate_expand_one _ bs (S c')); [|done..].
  unfold bind, lift. simpl draws. rewrite Hv. simpl.
  unfold with_site, sampled_site, under_plate, channel_plate.
  by rewrite He.
Qed.

Lemma after_sample_per_channel_ok media_data
    (custom_priors default_priors : gmap string (Prior R)) name e w
    (Q : result (ndarray R) → run_record R → Prop) c d bs :
  shape media_data !! 1 = Some c → 0 < c → open_plates e = [] →
  resolve_prior custom_priors default_priors name
  = Ok (prior_distribution d) →
  batch_shape d = Some bs → broadcasts_to bs [c] →
  (∀ v, shape v = [c] → draw_value (draws e name) d [c] = Ok v →
        Q (Ok v)
          (with_site w
             (sampled_site (under_plate e (channel_plate name c))
                name d None v))) →
  after (sample_per_channel media_data custom_priors default_priors name) e w Q.
Proof.
  intros Hc Hpos He Hres Hbs Hb Hok.
  destruct (sample_per_channel_run media_data custom_priors default_priors
              name e w c d bs) as (v & Hv & Hrun); try done.
  unfold after. rewrite Hrun. simpl.
  apply Hok; [|done]. by apply draw_value_shape in Hv.
Qed.

(** A kernel call is recorded, then the kernel decides the result. *)
Lemma after_adstock data lag_weight normalise e w
    (Q : result (ndarray R) → run_record R → Prop) :
  Q (adstock_kernel data lag_weight normalise)
    (with_call w {| callee := "adstock"; call_data := data;
                    call_params := [("lag_weight", lag_weight)] |}) →
  after (media_transforms.adstock data lag_weight normalise) e w Q.
Proof. done. Qed.

Lemma after_carryover data ad_effect_retention_rate peak_effect_delay
    number_lags e w (Q : result (ndarray R) → run_record R → Prop) :
  Q (carryover_kernel data ad_effect_retention_rate peak_effect_delay
       number_lags)
    (with_call w
       {| callee := "carryover"; call_data := data;
          call_params :=
            [("ad_effect_retention_rate", ad_effect_retention_rate);
             ("peak_effect_delay", peak_effect_delay)] |}) →
  after (media_transforms.carryover data ad_effect_retention_rate
           peak_effect_delay number_lags) e w Q.
Proof. done. Qed.

Lemma after_hill data half_max_effective_concentration slope e w
    (Q : result (ndarray R) → run_record R → Prop) :
  Q (hill_kernel data half_max_effective_concentration slope)
    (with_call w
       {| callee := "hill"; call_data := data;
          call_params :=
            [("half_max_effective_concentration",
              half_max_effective_concentration);
             ("slope", slope)] |}) →
  after (media_transforms.hill data half_max_effective_concentration slope)
    e w Q.
Proof. done. Qed.

Lemma after_exponential data slope e w
    (Q : result (ndarray R) → run_record R → Prop) :
  Q (exponential_kernel data slope)
    (with_call w {| callee := "exponential"; call_data := data;
                    call_params := [("slope", slope)] |}) →
  after (media_transforms.exponential data slope) e w Q.
Proof. done. Qed.

Lemma after_apply_exponent_safe data exponent e w
    (Q : result (ndarray R) → run_record R → Prop) :
  Q (apply_exponent_safe_kernel data exponent)
    (with_call w {| callee := "apply_exponent_safe"; call_data := data;
                    call_params := [("exponent", exponent)] |}) →
  after (media_transforms.apply_exponent_safe data exponent) e w Q.
Proof. done. Qed.

End transform_statements.

(** ** The default tables of the transforms *)

Section default_tables.
Context {R : Type} `{Scalar R}.

Lemma defaults_carryover :
  getitem (_get_transform_default_priors (R:=R)) "carryover"
  = Ok {[ _AD_EFFECT_RETENTION_RATE :=
            prior_distribution (Beta (float 1) (float 1));
          _PEAK_EFFECT_DELAY := prior_distribution (HalfNormal (float 2));
          _EXPONENT := prior_distribution (Beta (float 9) (float 1)) ]}.
Proof. reflexivity. Qed.

Lemma defaults_adstock :
  getitem (_get_transform_default_priors (R:=R)) "adstock"
  = Ok {[ _EXPONENT := prior_distribution (Beta (float 9) (float 1));
          _LAG_WEIGHT := prior_distribution (Beta (float 2) (float 1)) ]}.
Proof. reflexivity. Qed.

Lemma defaults_hill_adstock :
  getitem (_get_transform_default_priors (R:=R)) "hill_adstock"
  = Ok {[ _LAG_WEIGHT := prior_distribution (Beta (float 2) (float 1));
          _HALF_MAX_EFFECTIVE_CONCENTRATION :=
            prior_distribution (Gamma (float 1) (float 1));
          _SLOPE := prior_distribution (Gamma (float 1) (float 1)) ]}.
Proof. reflexivity. Qed.

Lemma defaults_exponential_adstock :
  getitem (_get_transform_default_priors (R:=R)) "exponential_adstock"
  = Ok {[ _LAG_WEIGHT := prior_distribution (Beta (float 2) (float 1));
          _SLOPE := prior_distribution (Gamma (float 1) (float 1)) ]}.
Proof. reflexivity. Qed.

Lemma defaults_static_dim :
  getitem (_get_transform_default_priors (R:=R))
    "exponential_adstock_static_dim"
  = Ok {[ _LAG_WEIGHT := prior_distribution (Beta (float 2) (float 1)) ]}.
Proof. reflexivity. Qed.

Lemma defaults_static_decay :
  getitem (_get_transform_default_priors (R:=R))
    "exponential_adstock_static_decay"
  = Ok {[ _SLOPE := prior_distribution (Gamma (float 1) (float 1)) ]}.
Proof. reflexivity. Qed.

Lemma defaults_static_dim_decay :
  getitem (_get_transform_default_priors (R:=R))
    "exponential_adstock_static_dim_decay"
  = Ok ∅.
Proof. reflexivity. Qed.

(** The shape of a media array of rank 2 or 3. *)
Lemma rank_2_or_3 (media_data : ndarray R) :
  ndim media_data = 2 ∨ ndim media_data = 3 →
  ∃ t c, shape media_data = [t; c] ∨ ∃ g, shape media_data = [t; c; g].
Proof.
  unfold ndim.
  destruct (shape media_data) as [|t [|c [|g [|x l]]]]; simpl;
    intros [?|?]; try lia; exists t, c; eauto.
Qed.

Lemma expand_if_geo_rank_2 (media_data x : ndarray R) t c :
  shape media_data = [t; c] → expand_if_geo media_data x = x.
Proof. intros Hs. unfold expand_if_geo, ndim. by rewrite Hs. Qed.

Lemma expand_if_geo_rank_3 (media_data x : ndarray R) t c g :
  shape media_data = [t; c; g] →
  expand_if_geo media_data x = expand_dims x.
Proof. intros Hs. unfold expand_if_geo, ndim. by rewrite Hs. Qed.

End default_tables.

(** One step of a run that is known to succeed. *)
Ltac step_table :=
  apply after_bind, after_lift;
  first [ rewrite defaults_carryover | rewrite defaults_adstock
        | rewrite defaults_hill_adstock | rewrite defaults_exponential_adstock
        | rewrite defaults_static_dim | rewrite defaults_static_decay
        | rewrite defaults_static_dim_decay ].

Ltac step_sample_default c :=
  apply after_bind;
  eapply (after_sample_per_channel_ok _ _ _ _ _ _ _ c);
  [ eassumption | assumption | reflexivity | reflexivity | reflexivity
  | apply broadcast_shapes_nil_l | ];
  let v := fresh "v" in
  let Hshape := fresh "Hshape" in
  intros v Hshape _.

(** Rewriting with the shapes that are known, then the broadcast. *)
Ltac known_shapes :=
  repeat match goal with
         | Hs : shape ?v = _ |- context [shape ?v] => rewrite Hs
         end.

Ltac solve_shapes :=
  unfold float, scalar; cbn [shape expand_dims]; known_shapes;
  cbn [app tail]; solve_broadcast.

(** The branch [if media_data.ndim == 3] once the shape is known. *)
Ltac expand_geo Hs :=
  first [ rewrite !(expand_if_geo_rank_2 _ _ _ _ Hs)
        | rewrite !(expand_if_geo_rank_3 _ _ _ _ _ Hs) ].

(** A pinned parameter without a custom entry is the number 1. *)
Ltac step_pinned :=
  apply after_bind, after_lift; rewrite lookup_empty; cbn [default as_array].

(** ** Shape preservation *)

Section shape_preservation.
Context {R : Type} `{Scalar R} (K : Kernels R) `{!ShapePreserving K}.

(** C3.  With an empty custom-priors mapping, each of the seven transforms
    returns, on media data of rank 2 or 3 with at least one channel, an
    array of the shape of the media data; the kernels are those of any
    instance that keeps its shape contract. *)
Theorem transforms_preserve_shape
    (normalise : bool) (number_lags : Z) (name : string)
    (f : ndarray R → gmap string (Prior R) → M R (ndarray R))
    (media_data : ndarray R) (draw : string → nat → R) (w : run_record R) :
  (name, f) ∈ transforms normalise number_lags →
  ndim media_data = 2 ∨ ndim media_data = 3 →
  (∀ c, shape media_data !! 1 = Some c → 0 < c) →
  ∃ out w',
    f media_data ∅ (top_level draw) w = (Ok out, w')
    ∧ shape out = shape media_data.
Proof.
  intros Hin Hrank Hpos.
  destruct (rank_2_or_3 media_data Hrank) as (t & c & Hshape).
  assert (shape media_data !! 1 = Some c) as Hc.
  { by destruct Hshape as [-> | [g ->]]. }
  specialize (Hpos c Hc).
  cut (after (f media_data ∅) (top_level draw) w
         (λ r _, ∃ out, r = Ok out ∧ shape out = shape media_data)).
  { unfold after. destruct (f media_data ∅ (top_level draw) w) as [r w'].
    simpl. intros (out & -> & Hout). by exists out, w'. }
  unfold transforms in Hin.
  repeat (apply elem_of_cons in Hin as [[= -> ->] | Hin]);
    [..|by apply elem_of_nil in Hin].
  - (* carryover *)
    unfold transform_carryover. step_table.
    step_sample_default c. step_sample_default c. step_sample_default c.
    apply after_bind, after_carryover.
    destruct (carryover_shape media_data v v0 number_lags c)
      as (a & -> & Ha); [done|solve_shapes..|].
    apply after_apply_exponent_safe.
    destruct (apply_exponent_safe_shape a (expand_if_geo media_data v1))
      as (out & -> & Hout).
    { destruct Hshape as [Hs | [g Hs]]; expand_geo Hs; solve_shapes. }
    exists out. split; [done|congruence].
  - (* adstock *)
    unfold transform_adstock. step_table.
    step_sample_default c. step_sample_default c.
    apply after_bind, after_adstock.
    destruct (adstock_shape media_data (expand_if_geo media_data v) normalise)
      as (a & -> & Ha).
    { destruct Hshape as [Hs | [g Hs]]; expand_geo Hs; solve_shapes. }
    apply after_apply_exponent_safe.
    destruct (apply_exponent_safe_shape a (expand_if_geo media_data v0))
      as (out & -> & Hout).
    { destruct Hshape as [Hs | [g Hs]]; expand_geo Hs; solve_shapes. }
    exists out. split; [done|congruence].
  - (* hill_adstock *)
    unfold transform_hill_adstock. step_table.
    step_sample_default c. step_sample_default c. step_sample_default c.
    apply after_bind, after_adstock.
    destruct (adstock_shape media_data (expand_if_geo media_data v) normalise)
      as (a & -> & Ha).
    { destruct Hshape as [Hs | [g Hs]]; expand_geo Hs; solve_shapes. }
    apply after_hill.
    destruct (hill_shape a (expand_if_geo media_data v0)
                (expand_if_geo media_data v1)) as (out & -> & Hout).
    { destruct Hshape as [Hs | [g Hs]]; expand_geo Hs; solve_shapes. }
    { destruct Hshape as [Hs | [g Hs]]; expand_geo Hs; solve_shapes. }
    exists out. split; [done|congruence].
  - (* exponential_adstock *)
    unfold transform_exponential_adstock. step_table.
    step_sample_default c. step_sample_default c.
    apply after_bind, after_adstock.
    destruct (adstock_shape media_data (expand_if_geo media_data v) normalise)
      as (a & -> & Ha).
    { destruct Hshape as [Hs | [g Hs]]; expand_geo Hs; solve_shapes. }
    apply after_exponential.
    destruct (exponential_shape a (expand_if_geo media_data v0))
      as (out & -> & Hout).
    { destruct Hshape as [Hs | [g Hs]]; expand_geo Hs; solve_shapes. }
    exists out. split; [done|congruence].
  - (* exponential_adstock_static_dim *)
    unfold transform_exponential_adstock_static_dim. step_table.
    step_sample_default c. step_pinned.
    apply after_bind, after_adstock.
    destruct (adstock_shape media_data (expand_if_geo media_data v) normalise)
      as (a & -> & Ha).
    { destruct Hshape as [Hs | [g Hs]]; expand_geo Hs; solve_shapes. }
    apply after_exponential.
    destruct (exponential_shape a (expand_if_geo media_data (float 1)))
      as (out & -> & Hout).
    { destruct Hshape as [Hs | [g Hs]]; expand_geo Hs; solve_shapes. }
    exists out. split; [done|congruence].
  - (* exponential_adstock_static_decay *)
    unfold transform_exponential_adstock_static_decay. step_table.
    step_sample_default c. step_pinned.
    apply after_bind, after_adstock.
    destruct (adstock_shape media_data
                (expand_if_geo media_data (float 1)) normalise)
      as (a & -> & Ha).
    { destruct Hshape as [Hs | [g Hs]]; expand_geo Hs; solve_shapes. }
    apply after_exponential.
    destruct (exponential_shape a (expand_if_geo media_data v))
      as (out & -> & Hout).
    { destruct Hshape as [Hs | [g Hs]]; expand_geo Hs; solve_shapes. }
    exists out. split; [done|congruence].
  - (* exponential_adstock_static_dim_decay *)
    unfold transform_exponential_adstock_static_dim_decay. step_table.
    step_pinned. step_pinned.
    apply after_bind, after_adstock.
    destruct (adstock_shape media_data
                (expand_if_geo media_data (float 1)) normalise)
      as (a & -> & Ha).
    { destruct Hshape as [Hs | [g Hs]]; expand_geo Hs; solve_shapes. }
    apply after_exponential.
    destruct (exponential_shape a (expand_if_geo media_data (float 1)))
      as (out & -> & Hout).
    { destruct Hshape as [Hs | [g Hs]]; expand_geo Hs; solve_shapes. }
    exists out. split; [done|congruence].
Qed.

End shape_preservation.

(** ** What the kernels are given *)

Section kernel_parameters.
Context {R : Type} `{Scalar R} (K : Kernels R).

Lemma calls_since_refl (w : run_record R) : calls_since w w [].
Proof. unfold calls_since. by rewrite app_nil_r. Qed.

Lemma calls_since_site (w w' : run_record R) s calls :
  calls_since w w' calls → calls_since w (with_site w' s) calls.
Proof. done. Qed.

Lemma calls_since_call (w w' : run_record R) c calls :
  calls_since w w' calls → calls_since w (with_call w' c) (calls ++ [c]).
Proof. unfold calls_since. simpl. intros ->. by rewrite app_assoc. Qed.

End kernel_parameters.

(** The calls of a run, read off the record it ends in. *)
Ltac solve_calls :=
  repeat first [ apply calls_since_call | apply calls_since_site
               | apply calls_since_refl ].

(** Every parameter of the calls listed has its shape. *)
Ltac check_parameters :=
  let call := fresh "call" in
  let k := fresh "k" in
  let p := fresh "p" in
  let Hcall := fresh "Hcall" in
  let Hp := fresh "Hp" in
  intros call k p Hcall Hp; simpl in Hcall;
  repeat (apply elem_of_cons in Hcall as [-> | Hcall]);
  try (by apply elem_of_nil in Hcall);
  simpl in Hp;
  repeat (apply elem_of_cons in Hp as [[= -> ->] | Hp]);
  try (by apply elem_of_nil in Hp);
  unfold geo_parameter_shape; cbn [callee];
  repeat case_decide; try done;
  unfold float, scalar; cbn [shape expand_dims]; known_shapes;
  try done; try set_solver.

Ltac finish_calls := eexists; split; [solve_calls|check_parameters].

Section kernel_parameter_shapes.
Context {R : Type} `{Scalar R} (K : Kernels R).

(** C2, as the code has it.  On geo data (rank 3) with [c] channels and no
    custom priors, whatever the kernels do, every parameter that a
    transform hands to a kernel has the shape [geo_parameter_shape] gives:
    [(c, 1)] for a sampled parameter and [(1,)] for a pinned one, except
    that [ad_effect_retention_rate] and [peak_effect_delay] reach the
    carryover kernel with the shape [(c,)] of their sample. *)
Theorem transform_parameters_on_geo_data
    (normalise : bool) (number_lags : Z) (name : string)
    (f : ndarray R → gmap string (Prior R) → M R (ndarray R))
    (table : gmap string (Prior R))
    (media_data : ndarray R) (t c g : nat)
    (draw : string → nat → R) (w : run_record R) :
  (name, f) ∈ transforms normalise number_lags →
  getitem _get_transform_default_priors name = Ok table →
  shape media_data = [t; c; g] → 0 < c →
  ∃ calls,
    calls_since w (f media_data ∅ (top_level draw) w).2 calls
    ∧ ∀ call k p,
        call ∈ calls → (k, p) ∈ call_params call →
        shape p = geo_parameter_shape table c (callee call) k.
Proof.
  intros Hin Htable Hs Hpos.
  assert (shape media_data !! 1 = Some c) as Hc by (by rewrite Hs).
  cut (after (f media_data ∅) (top_level draw) w
         (λ _ w', ∃ calls,
            calls_since w w' calls
            ∧ ∀ call k p,
                call ∈ calls → (k, p) ∈ call_params call →
                shape p = geo_parameter_shape table c (callee call) k)).
  { done. }
  unfold transforms in Hin.
  repeat (apply elem_of_cons in Hin as [[= -> ->] | Hin]);
    [..|by apply elem_of_nil in Hin].
  - (* carryover *)
    rewrite defaults_carryover in Htable. injection Htable as <-.
    unfold transform_carryover. step_table.
    step_sample_default c. step_sample_default c. step_sample_default c.
    apply after_bind, after_carryover.
    destruct (carryover_kernel media_data v v0 number_lags) as [a|x];
      [apply after_apply_exponent_safe; expand_geo Hs|]; finish_calls.
  - (* adstock *)
    rewrite defaults_adstock in Htable. injection Htable as <-.
    unfold transform_adstock. step_table.
    step_sample_default c. step_sample_default c.
    apply after_bind, after_adstock. expand_geo Hs.
    destruct (adstock_kernel media_data (expand_dims v) normalise) as [a|x];
      [apply after_apply_exponent_safe|]; finish_calls.
  - (* hill_adstock *)
    rewrite defaults_hill_adstock in Htable. injection Htable as <-.
    unfold transform_hill_adstock. step_table.
    step_sample_default c. step_sample_default c. step_sample_default c.
    apply after_bind, after_adstock. expand_geo Hs.
    destruct (adstock_kernel media_data (expand_dims v) normalise) as [a|x];
      [apply after_hill|]; finish_calls.
  - (* exponential_adstock *)
    rewrite defaults_exponential_adstock in Htable. injection Htable as <-.
    unfold transform_exponential_adstock. step_table.
    step_sample_default c. step_sample_default c.
    apply after_bind, after_adstock. expand_geo Hs.
    destruct (adstock_kernel media_data (expand_dims v) normalise) as [a|x];
      [apply after_exponential|]; finish_calls.
  - (* exponential_adstock_static_dim *)
    rewrite defaults_static_dim in Htable. injection Htable as <-.
    unfold transform_exponential_adstock_static_dim. step_table.
    step_sample_default c. step_pinned.
    apply after_bind, after_adstock. expand_geo Hs.
    destruct (adstock_kernel media_data (expand_dims v) normalise) as [a|x];
      [apply after_exponential|]; finish_calls.
  - (* exponential_adstock_static_decay *)
    rewrite defaults_static_decay in Htable. injection Htable as <-.
    unfold transform_exponential_adstock_static_decay. step_table.
    step_sample_default c. step_pinned.
    apply after_bind, after_adstock. expand_geo Hs.
    destruct (adstock_kernel media_data (expand_dims (float 1)) normalise)
      as [a|x]; [apply after_exponential|]; finish_calls.
  - (* exponential_adstock_static_dim_decay *)
    rewrite defaults_static_dim_decay in Htable. injection Htable as <-.
    unfold transform_exponential_adstock_static_dim_decay. step_table.
    step_pinned. step_pinned.
    apply after_bind, after_adstock. expand_geo Hs.
    destruct (adstock_kernel media_data (expand_dims (float 1)) normalise)
      as [a|x]; [apply after_exponential|]; finish_calls.
Qed.

End kernel_parameter_shapes.

(** On geo data with two channels the carryover kernel is given its two
    parameters with the shape [(2,)]: no trailing axis was added. *)
Lemma carryover_parameters_keep_their_shape :
  ndim (mk_ndarray [1; 2; 1] [0%Z; 0%Z]) = 3
  ∧ call_shapes
      (@transform_carryover Z _ (checking_kernels Z)
         (mk_ndarray [1; 2; 1] [0%Z; 0%Z]) ∅ 13
         (top_level (λ _ _, 0%Z)) empty_record).2
    = [("carryover",
        [("ad_effect_retention_rate", [2]); ("peak_effect_delay", [2])]);
       ("apply_exponent_safe", [("exponent", [2; 1])])].
Proof. split; vm_compute; reflexivity. Qed.

(** ** The checking kernels keep the contracts *)

Section checking_kernels.
Context {R : Type} `{Scalar R}.

Lemma broadcast_to_Some_inv s (a : ndarray R) :
  is_Some (broadcast_to s a) → broadcasts_to (shape a) s.
Proof. unfold broadcast_to. case_decide; [done|]. by intros [? [=]]. Qed.

(** Dropping a trailing axis of length 1 of a parameter and the last
    axis of the data keeps the parameter broadcastable. *)
Lemma broadcasts_to_drop_last ws s g :
  broadcasts_to (ws ++ [1]) (s ++ [g]) → broadcasts_to ws s.
Proof.
  unfold broadcasts_to. rewrite broadcast_shapes_snoc.
  destruct (broadcast_shapes ws s) as [x|]; simpl.
  - repeat case_match; try done; intros [= Hx];
      by apply app_inj_tail in Hx as [-> _].
  - by repeat case_match.
Qed.

Lemma shape_take_last i (a : ndarray R) :
  shape (take_last i a) = removelast (shape a).
Proof. done. Qed.

#[export] Instance checking_kernels_shape :
  ShapePreserving (checking_kernels R).
Proof.
  split; simpl.
  - intros d w n Hb. rewrite decide_True by done. by exists d.
  - intros d r p lags c -> Hr Hp. rewrite decide_True by done. by exists d.
  - intros d h s Hh Hs. rewrite decide_True by done. by exists d.
  - intros d s Hs. rewrite decide_True by done. by exists d.
  - intros d x Hx. rewrite decide_True by done. by exists d.
Qed.

#[export] Instance checking_kernels_broadcast :
  BroadcastInvariant (checking_kernels R).
Proof.
  split; simpl.
  - intros d w w' n Hw Heq.
    rewrite !decide_True; [done|..].
    + apply broadcast_to_Some_inv. by rewrite <- Heq.
    + by apply broadcast_to_Some_inv.
  - intros d s s' Hs Heq.
    rewrite !decide_True; [done|..].
    + apply broadcast_to_Some_inv. by rewrite <- Heq.
    + by apply broadcast_to_Some_inv.
Qed.

#[export] Instance checking_kernels_geo : GeoLocal (checking_kernels R).
Proof.
  split; simpl.
  - intros d w n out g ws Hd Hg Hw Hb. case_decide; [|done].
    intros [= <-] i Hi. rewrite decide_True; [done|].
    rewrite Hw, removelast_last.
    unfold ndim in Hd.
    destruct (shape d) as [|t [|c [|g' [|? ?]]]]; try done.
    simpl in *. rewrite Hw in Hb.
    by apply (broadcasts_to_drop_last ws [c] g').
  - intros d r p lags out c g Hd Hc Hg Hr Hp. rewrite Hc.
    case_decide; [|done]. intros [= <-] i Hi.
    unfold ndim in Hd.
    destruct (shape d) as [|t [|c' [|g' [|? ?]]]]; try done.
    simpl in *. injection Hc as ->. by rewrite decide_True.
  - intros d h s out g hs ss Hd Hg Hh Hs Hbh Hbs. case_decide; [|done].
    intros [= <-] i Hi. rewrite decide_True; [done|].
    rewrite Hh, Hs, !removelast_last.
    unfold ndim in Hd.
    destruct (shape d) as [|t [|c [|g' [|? ?]]]]; try done.
    simpl in *. rewrite Hh in Hbh. rewrite Hs in Hbs.
    split; by apply (broadcasts_to_drop_last _ [t; c] g').
  - intros d s out g ss Hd Hg Hs Hbs. case_decide; [|done].
    intros [= <-] i Hi. rewrite decide_True; [done|].
    rewrite Hs, !removelast_last.
    unfold ndim in Hd.
    destruct (shape d) as [|t [|c [|g' [|? ?]]]]; try done.
    simpl in *. rewrite Hs in Hbs.
    by apply (broadcasts_to_drop_last _ [t; c] g').
  - intros d x out g xs Hd Hg Hx Hbx. case_decide; [|done].
    intros [= <-] i Hi. rewrite decide_True; [done|].
    rewrite Hx, !removelast_last.
    unfold ndim in Hd.
    destruct (shape d) as [|t [|c [|g' [|? ?]]]]; try done.
    simpl in *. rewrite Hx in Hbx.
    by apply (broadcasts_to_drop_last _ [t; c] g').
Qed.

End checking_kernels.

(** ** Geo slices *)

Section geo_slices.
Context {R : Type} `{Scalar R} (K : Kernels R).
Context `{!ShapePreserving K} `{!GeoLocal K}.

Lemma geo_invariant_from (a b : ndarray R) g :
  shape b !! 2 = Some g →
  (∀ i j, i < g → j < g → take_last i a = take_last j a) →
  (∀ i, i < g → ∃ F : ndarray R → result (ndarray R),
                   ∀ k, k < g → F (take_last k a) = Ok (take_last k b)) →
  geo_invariant b.
Proof.
  intros Hg Ha HF g' Hg' i j Hi Hj. rewrite Hg in Hg'. injection Hg' as <-.
  destruct (HF i Hi) as [F HFk].
  pose proof (HFk i Hi) as Hbi. pose proof (HFk j Hj) as Hbj.
  rewrite (Ha i j Hi Hj) in Hbi. congruence.
Qed.

Lemma adstock_keeps_geo_invariance d w n out ws t c g :
  shape d = [t; c; g] → shape w = ws ++ [1] →
  broadcasts_to (shape w) [c; g] →
  adstock_kernel d w n = Ok out →
  geo_invariant d → geo_invariant out ∧ shape out = shape d.
Proof.
  intros Hd Hw Hb Hk Hinv.
  destruct (adstock_shape d w n) as (out' & Hk' & Hout).
  { by rewrite Hd. }
  assert (out' = out) as -> by congruence.
  split; [|done].
  apply (geo_invariant_from d out g).
  - by rewrite Hout, Hd.
  - apply Hinv. by rewrite Hd.
  - intros i Hi. exists (λ x, adstock_kernel x (take_last 0 w) n).
    apply (adstock_geo d w n out g ws); try done.
    + unfold ndim. by rewrite Hd.
    + by rewrite Hd.
    + by rewrite Hd.
Qed.

Lemma carryover_keeps_geo_invariance d r p lags out t c g :
  shape d = [t; c; g] →
  broadcasts_to (shape r) [c] → broadcasts_to (shape p) [c] →
  carryover_kernel d r p lags = Ok out →
  geo_invariant d → geo_invariant out ∧ shape out = shape d.
Proof.
  intros Hd Hr Hp Hk Hinv.
  destruct (carryover_shape d r p lags c) as (out' & Hk' & Hout);
    [by rewrite Hd|done..|].
  assert (out' = out) as -> by congruence.
  split; [|done].
  apply (geo_invariant_from d out g).
  - by rewrite Hout, Hd.
  - apply Hinv. by rewrite Hd.
  - intros i Hi. exists (λ x, carryover_kernel x r p lags).
    apply (carryover_geo d r p lags out c g); try done.
    + unfold ndim. by rewrite Hd.
    + by rewrite Hd.
    + by rewrite Hd.
Qed.

Lemma hill_keeps_geo_invariance d h s out hs ss t c g :
  shape d = [t; c; g] → shape h = hs ++ [1] → shape s = ss ++ [1] →
  broadcasts_to (shape h) [t; c; g] → broadcasts_to (shape s) [t; c; g] →
  hill_kernel d h s = Ok out →
  geo_invariant d → geo_invariant out ∧ shape out = shape d.
Proof.
  intros Hd Hh Hs Hbh Hbs Hk Hinv.
  destruct (hill_shape d h s) as (out' & Hk' & Hout);
    [by rewrite Hd..|].
  assert (out' = out) as -> by congruence.
  split; [|done].
  apply (geo_invariant_from d out g).
  - by rewrite Hout, Hd.
  - apply Hinv. by rewrite Hd.
  - intros i Hi.
    exists (λ x, hill_kernel x (take_last 0 h) (take_last 0 s)).
    apply (hill_geo d h s out g hs ss); try done.
    + unfold ndim. by rewrite Hd.
    + by rewrite Hd.
    + by rewrite Hd.
    + by rewrite Hd.
Qed.

Lemma exponential_keeps_geo_invariance d s out ss t c g :
  shape d = [t; c; g] → shape s = ss ++ [1] →
  broadcasts_to (shape s) [t; c; g] →
  exponential_kernel d s = Ok out →
  geo_invariant d → geo_invariant out ∧ shape out = shape d.
Proof.
  intros Hd Hs Hbs Hk Hinv.
  destruct (exponential_shape d s) as (out' & Hk' & Hout);
    [by rewrite Hd|].
  assert (out' = out) as -> by congruence.
  split; [|done].
  apply (geo_invariant_from d out g).
  - by rewrite Hout, Hd.
  - apply Hinv. by rewrite Hd.
  - intros i Hi. exists (λ x, exponential_kernel x (take_last 0 s)).
    apply (exponential_geo d s out g ss); try done.
    + unfold ndim. by rewrite Hd.
    + by rewrite Hd.
    + by rewrite Hd.
Qed.

Lemma apply_exponent_safe_keeps_geo_invariance d x out xs t c g :
  shape d = [t; c; g] → shape x = xs ++ [1] →
  broadcasts_to (shape x) [t; c; g] →
  apply_exponent_safe_kernel d x = Ok out →
  geo_invariant d → geo_invariant out ∧ shape out = shape d.
Proof.
  intros Hd Hx Hbx Hk Hinv.
  destruct (apply_exponent_safe_shape d x) as (out' & Hk' & Hout);
    [by rewrite Hd|].
  assert (out' = out) as -> by congruence.
  split; [|done].
  apply (geo_invariant_from d out g).
  - by rewrite Hout, Hd.
  - apply Hinv. by rewrite Hd.
  - intros i Hi. exists (λ y, apply_exponent_safe_kernel y (take_last 0 x)).
    apply (apply_exponent_safe_geo d x out g xs); try done.
    + unfold ndim. by rewrite Hd.
    + by rewrite Hd.
    + by rewrite Hd.
Qed.

End geo_slices.

(** ** Priors that are no finer than per channel *)

Section per_channel.
Context {R : Type} `{Scalar R} `{Kernels R}.

Lemma per_channel_resolved (custom table : gmap string (Prior R)) name dflt
    c d :
  per_channel_priors c custom →
  table !! name = Some dflt → per_channel_prior c dflt →
  resolve_prior custom table name = Ok (prior_distribution d) →
  ∃ bs, batch_shape d = Some bs ∧ broadcasts_to bs [c].
Proof.
  intros Hpc Ht Hd. rewrite (resolve_prior_valid _ _ _ dflt Ht).
  destruct (custom !! name) as [p|] eqn:Hp; simpl; intros [= ->].
  - apply (Hpc name _ Hp).
  - apply Hd.
Qed.

Lemma per_channel_pinned (custom : gmap string (Prior R)) name c x :
  per_channel_priors c custom →
  as_array (default (prior_value (float 1)) (custom !! name)) = Ok x →
  broadcasts_to (shape x) [c].
Proof.
  intros Hpc.
  destruct (custom !! name) as [[d|v]|] eqn:Hp; simpl; intros [= <-].
  - apply (Hpc name _ Hp).
  - apply broadcast_shapes_nil_l.
Qed.

Lemma broadcasts_to_expand_step s c g :
  broadcasts_to s [c] → broadcasts_to (s ++ [1]) [c; g].
Proof.
  intros [-> | [-> | ->]]%broadcasts_to_singleton; solve_broadcast.
Qed.

Lemma broadcasts_to_expand_full s t c g :
  broadcasts_to s [c] → broadcasts_to (s ++ [1]) [t; c; g].
Proof.
  intros [-> | [-> | ->]]%broadcasts_to_singleton; solve_broadcast.
Qed.

(** The sampling block under per-channel priors: its value, if any, has
    one axis, the channels. *)
Lemma after_sample_per_channel_shape media_data
    (custom_priors default_priors : gmap string (Prior R)) name dflt e w
    (Q : result (ndarray R) → run_record R → Prop) c :
  shape media_data !! 1 = Some c → open_plates e = [] →
  per_channel_priors c custom_priors →
  default_priors !! name = Some dflt → per_channel_prior c dflt →
  (∀ x w', Q (Err x) w') →
  (∀ v w', shape v = [c] → Q (Ok v) w') →
  after (sample_per_channel media_data custom_priors default_priors name) e w Q.
Proof.
  intros Hc He Hpc Ht Hd Herr Hok.
  apply after_sample_per_channel; [done|].
  intros c' f d bs s v Hc' Hpos Hname Hsize Hdim Hres Hbs Hs Hv.
  rewrite Hc in Hc'. injection Hc' as <-.
  apply Hok. rewrite (draw_value_shape _ _ _ _ Hv).
  destruct (per_channel_resolved _ _ _ _ c d Hpc Ht Hd Hres)
    as (bs' & Hbs' & Hb).
  rewrite Hbs in Hbs'. injection Hbs' as <-.
  rewrite He, plates_expand_one in Hs.
  rewrite (plate_expand_one f bs c (Hdim He) Hsize Hb) in Hs. congruence.
Qed.

End per_channel.

(** A default prior of the tables has scalar parameters. *)
Ltac scalar_default :=
  simpl; eexists; split; [reflexivity|apply broadcast_shapes_nil_l].

Ltac step_sample_pc c :=
  apply after_bind;
  eapply (after_sample_per_channel_shape _ _ _ _ _ _ _ _ c);
  [ eassumption | reflexivity | eassumption | reflexivity | scalar_default
  | by intros ? ? ? [=] | ];
  let v := fresh "v" in
  let w := fresh "w" in
  let Hshape := fresh "Hshape" in
  intros v w Hshape.

Ltac step_pinned_pc c :=
  apply after_bind, after_lift;
  let x := fresh "x" in
  let Hx := fresh "Hx" in
  let Hbx := fresh "Hbx" in
  match goal with
  | |- context [as_array ?p] =>
      destruct (as_array p) as [x|] eqn:Hx; [|by intros ? [=]];
      pose proof (per_channel_pinned _ _ c x ltac:(eassumption) Hx) as Hbx
  end.

(** The side conditions on a parameter with its trailing axis. *)
Ltac solve_expanded :=
  cbn [shape expand_dims];
  first
    [ reflexivity
    | first [ apply broadcasts_to_expand_step
            | apply broadcasts_to_expand_full ];
      first [ assumption | known_shapes; apply broadcast_shapes_refl ] ].

Section geo_invariance.
Context {R : Type} `{Scalar R} (K : Kernels R).
Context `{!ShapePreserving K} `{!GeoLocal K}.

(** C9.  On geo data whose geo slices are all equal, with custom priors
    that are no finer than per channel, the result of each of the seven
    transforms has all its geo slices equal. *)
Theorem transforms_keep_geo_invariance
    (normalise : bool) (number_lags : Z) (name : string)
    (f : ndarray R → gmap string (Prior R) → M R (ndarray R))
    (media_data : ndarray R) (t c g : nat)
    (custom_priors : gmap string (Prior R))
    (draw : string → nat → R) (w w' : run_record R) (out : ndarray R) :
  (name, f) ∈ transforms normalise number_lags →
  shape media_data = [t; c; g] →
  per_channel_priors c custom_priors →
  geo_invariant media_data →
  f media_data custom_priors (top_level draw) w = (Ok out, w') →
  geo_invariant out.
Proof.
  intros Hin Hs Hpc Hinv Hrun.
  assert (shape media_data !! 1 = Some c) as Hc by (by rewrite Hs).
  cut (after (f media_data custom_priors) (top_level draw) w
         (λ r _, ∀ out, r = Ok out → geo_invariant out)).
  { unfold after. rewrite Hrun. simpl. auto. }
  clear Hrun.
  unfold transforms in Hin.
  repeat (apply elem_of_cons in Hin as [[= -> ->] | Hin]);
    [..|by apply elem_of_nil in Hin].
  - (* carryover *)
    unfold transform_carryover. step_table.
    step_sample_pc c. step_sample_pc c. step_sample_pc c.
    apply after_bind, after_carryover.
    destruct (carryover_kernel media_data v v0 number_lags) as [a|x] eqn:Hk;
      [|by intros ? [=]].
    destruct (carryover_keeps_geo_invariance K media_data v v0 number_lags
                a t c g) as [Hinv_a Hshape_a];
      [done|solve_shapes|solve_shapes|done|done|].
    rewrite Hs in Hshape_a.
    apply after_apply_exponent_safe. expand_geo Hs.
    intros out' Hk'.
    apply (apply_exponent_safe_keeps_geo_invariance K a (expand_dims v1)
                out' (shape v1) t c g);
      [done|solve_expanded|solve_expanded|done|done].
  - (* adstock *)
    unfold transform_adstock. step_table.
    step_sample_pc c. step_sample_pc c.
    apply after_bind, after_adstock. expand_geo Hs.
    destruct (adstock_kernel media_data (expand_dims v) normalise)
      as [a|x] eqn:Hk; [|by intros ? [=]].
    destruct (adstock_keeps_geo_invariance K media_data (expand_dims v)
                normalise a (shape v) t c g) as [Hinv_a Hshape_a];
      [done|solve_expanded..|done|done|].
    rewrite Hs in Hshape_a.
    apply after_apply_exponent_safe.
    intros out' Hk'.
    apply (apply_exponent_safe_keeps_geo_invariance K a (expand_dims v0)
                out' (shape v0) t c g);
      [done|solve_expanded|solve_expanded|done|done].
  - (* hill_adstock *)
    unfold transform_hill_adstock. step_table.
    step_sample_pc c. step_sample_pc c. step_sample_pc c.
    apply after_bind, after_adstock. expand_geo Hs.
    destruct (adstock_kernel media_data (expand_dims v) normalise)
      as [a|x] eqn:Hk; [|by intros ? [=]].
    destruct (adstock_keeps_geo_invariance K media_data (expand_dims v)
                normalise a (shape v) t c g) as [Hinv_a Hshape_a];
      [done|solve_expanded..|done|done|].
    rewrite Hs in Hshape_a.
    apply after_hill.
    intros out' Hk'.
    apply (hill_keeps_geo_invariance K a (expand_dims v0) (expand_dims v1)
             out' (shape v0) (shape v1) t c g);
      [done|solve_expanded|solve_expanded|solve_expanded|solve_expanded
      |done|done].
  - (* exponential_adstock *)
    unfold transform_exponential_adstock. step_table.
    step_sample_pc c. step_sample_pc c.
    apply after_bind, after_adstock. expand_geo Hs.
    destruct (adstock_kernel media_data (expand_dims v) normalise)
      as [a|x] eqn:Hk; [|by intros ? [=]].
    destruct (adstock_keeps_geo_invariance K media_data (expand_dims v)
                normalise a (shape v) t c g) as [Hinv_a Hshape_a];
      [done|solve_expanded..|done|done|].
    rewrite Hs in Hshape_a.
    apply after_exponential.
    intros out' Hk'.
    apply (exponential_keeps_geo_invariance K a (expand_dims v0)
                out' (shape v0) t c g);
      [done|solve_expanded|solve_expanded|done|done].
  - (* exponential_adstock_static_dim *)
    unfold transform_exponential_adstock_static_dim. step_table.
    step_sample_pc c. step_pinned_pc c.
    apply after_bind, after_adstock. expand_geo Hs.
    destruct (adstock_kernel media_data (expand_dims v) normalise)
      as [a|x0] eqn:Hk; [|by intros ? [=]].
    destruct (adstock_keeps_geo_invariance K media_data (expand_dims v)
                normalise a (shape v) t c g) as [Hinv_a Hshape_a];
      [done|solve_expanded..|done|done|].
    rewrite Hs in Hshape_a.
    apply after_exponential.
    intros out' Hk'.
    apply (exponential_keeps_geo_invariance K a (expand_dims x)
                out' (shape x) t c g);
      [done|solve_expanded|solve_expanded|done|done].
  - (* exponential_adstock_static_decay *)
    unfold transform_exponential_adstock_static_decay. step_table.
    step_sample_pc c. step_pinned_pc c.
    apply after_bind, after_adstock. expand_geo Hs.
    destruct (adstock_kernel media_data (expand_dims x) normalise)
      as [a|x0] eqn:Hk; [|by intros ? [=]].
    destruct (adstock_keeps_geo_invariance K media_data (expand_dims x)
                normalise a (shape x) t c g) as [Hinv_a Hshape_a];
      [done|solve_expanded..|done|done|].
    rewrite Hs in Hshape_a.
    apply after_exponential.
    intros out' Hk'.
    apply (exponential_keeps_geo_invariance K a (expand_dims v)
                out' (shape v) t c g);
      [done|solve_expanded|solve_expanded|done|done].
  - (* exponential_adstock_static_dim_decay *)
    unfold transform_exponential_adstock_static_dim_decay. step_table.
    step_pinned_pc c. step_pinned_pc c.
    apply after_bind, after_adstock. expand_geo Hs.
    destruct (adstock_kernel media_data (expand_dims x) normalise)
      as [a|x1] eqn:Hk; [|by intros ? [=]].
    destruct (adstock_keeps_geo_invariance K media_data (expand_dims x)
                normalise a (shape x) t c g) as [Hinv_a Hshape_a];
      [done|solve_expanded..|done|done|].
    rewrite Hs in Hshape_a.
    apply after_exponential.
    intros out' Hk'.
    apply (exponential_keeps_geo_invariance K a (expand_dims x0)
                out' (shape x0) t c g);
      [done|solve_expanded|solve_expanded|done|done].
Qed.

End geo_invariance.

(** ** Arrays of ones *)

Section ones.
Context {R : Type} `{Scalar R}.

Lemma indices_bounds s idx :
  In idx (indices s) → Forall2 lt idx s.
Proof.
  revert idx. induction s as [|n s IH]; intros idx; simpl.
  - intros [<- | []]. constructor.
  - rewrite in_flat_map. intros (i & Hi & Hidx).
    apply in_seq in Hi. apply in_map_iff in Hidx as (idx' & <- & Hidx').
    constructor; [lia|by apply IH].
Qed.

Lemma indices_singleton n :
  indices [n] = (λ i, [i]) <$> seq 0 n.
Proof.
  simpl. generalize (seq 0 n). intros l.
  induction l as [|i l IH]; simpl; [done|]. by rewrite IH.
Qed.

Lemma nth_repeat_lt (x d : R) n k : k < n → nth k (repeat x n) d = x.
Proof.
  revert k. induction n as [|n IH]; intros [|k] Hk; simpl; try lia; [done|].
  apply IH. lia.
Qed.

Lemma broadcast_to_float_one c :
  broadcast_to [c] (float 1) = Some (ones c).
Proof.
  unfold broadcast_to. rewrite decide_True by apply broadcast_shapes_nil_l.
  unfold ones. do 2 f_equal. rewrite indices_singleton.
  assert (∀ l : list nat,
            map (bitem (float 1)) ((λ i, [i]) <$> l)
            = repeat sone (length l)) as Hgen.
  { induction l as [|i l IH]; [done|]. cbn. f_equal. exact IH. }
  by rewrite Hgen, length_seq.
Qed.

Lemma draw_value_point_mass_one draw c :
  draw_value draw (Delta (float 1)) [c] = Ok (ones c).
Proof. simpl. by rewrite broadcast_to_float_one. Qed.

(** Reading the plain number 1, with or without a trailing axis. *)
Lemma bitem_float_one idx : bitem (float 1) idx = sone.
Proof. done. Qed.

Lemma bitem_expand_float_one idx :
  bitem (expand_dims (float 1)) idx = sone.
Proof.
  unfold bitem, item, align. simpl.
  by destruct (drop (length idx - 1) idx).
Qed.

(** Reading [c] ones, with or without a trailing axis, at an index of a
    shape they broadcast to. *)
Lemma bitem_ones c i : i < c → bitem (ones c) [i] = sone.
Proof.
  intros Hi. unfold bitem, item, align. simpl.
  apply nth_repeat_lt. destruct (c =? 1)%nat; lia.
Qed.

Lemma bitem_ones_2 c i0 i : i < c → bitem (ones c) [i0; i] = sone.
Proof.
  intros Hi. unfold bitem, item, align. simpl.
  apply nth_repeat_lt. destruct (c =? 1)%nat; lia.
Qed.

Lemma bitem_expand_ones_2 c i k :
  i < c → bitem (expand_dims (ones c)) [i; k] = sone.
Proof.
  intros Hi. unfold bitem, item, align. simpl.
  apply nth_repeat_lt. destruct (c =? 1)%nat; lia.
Qed.

Lemma bitem_expand_ones_3 c i0 i k :
  i < c → bitem (expand_dims (ones c)) [i0; i; k] = sone.
Proof.
  intros Hi. unfold bitem, item, align. simpl.
  apply nth_repeat_lt. destruct (c =? 1)%nat; lia.
Qed.

Lemma broadcast_to_ext s (a b : ndarray R) :
  broadcasts_to (shape a) s → broadcasts_to (shape b) s →
  (∀ idx, In idx (indices s) → bitem a idx = bitem b idx) →
  broadcast_to s a = broadcast_to s b.
Proof.
  intros Ha Hb Hext. unfold broadcast_to.
  rewrite !decide_True by done. do 2 f_equal. by apply map_ext_in.
Qed.

(** The number 1 and [c] ones have the same broadcast, against one time
    step of the data and against the data, for national and for geo
    data. *)
Lemma broadcast_one_ones (media_data : ndarray R) t c s :
  (shape media_data = [t; c] ∨ ∃ g, shape media_data = [t; c; g]) →
  s = tail (shape media_data) ∨ s = shape media_data →
  is_Some (broadcast_to s (expand_if_geo media_data (float 1)))
  ∧ broadcast_to s (expand_if_geo media_data (float 1))
    = broadcast_to s (expand_if_geo media_data (ones c)).
Proof.
  intros [Hs | [g Hs]] Htarget.
  - rewrite !(expand_if_geo_rank_2 _ _ _ _ Hs). rewrite Hs in Htarget.
    split.
    + apply broadcast_to_is_Some, broadcast_shapes_nil_l.
    + apply broadcast_to_ext; [apply broadcast_shapes_nil_l| |].
      { destruct Htarget as [-> | ->]; solve_broadcast. }
      intros idx Hidx%indices_bounds. rewrite bitem_float_one.
      destruct Htarget as [-> | ->].
      * apply Forall2_cons_inv_r in Hidx as (i & idx' & Hi & Hidx & ->).
        apply Forall2_nil_inv_r in Hidx as ->.
        by rewrite bitem_ones.
      * apply Forall2_cons_inv_r in Hidx as (i0 & idx' & _ & Hidx & ->).
        apply Forall2_cons_inv_r in Hidx as (i & idx'' & Hi & Hidx & ->).
        apply Forall2_nil_inv_r in Hidx as ->.
        by rewrite bitem_ones_2.
  - rewrite !(expand_if_geo_rank_3 _ _ _ _ _ Hs). rewrite Hs in Htarget.
    assert (broadcasts_to (shape (expand_dims (float 1))) s) as Hb1.
    { destruct Htarget as [-> | ->]; solve_broadcast. }
    split; [by apply broadcast_to_is_Some|].
    apply broadcast_to_ext; [done| |].
    { destruct Htarget as [-> | ->]; solve_broadcast. }
    intros idx Hidx%indices_bounds. rewrite bitem_expand_float_one.
    destruct Htarget as [-> | ->].
    * apply Forall2_cons_inv_r in Hidx as (i & idx' & Hi & Hidx & ->).
      apply Forall2_cons_inv_r in Hidx as (k & idx'' & _ & Hidx & ->).
      apply Forall2_nil_inv_r in Hidx as ->.
      by rewrite bitem_expand_ones_2.
    * apply Forall2_cons_inv_r in Hidx as (i0 & idx' & _ & Hidx & ->).
      apply Forall2_cons_inv_r in Hidx as (i & idx'' & Hi & Hidx & ->).
      apply Forall2_cons_inv_r in Hidx as (k & idx3 & _ & Hidx & ->).
      apply Forall2_nil_inv_r in Hidx as ->.
      by rewrite bitem_expand_ones_3.
Qed.

End ones.

(** ** The static variants *)

Section static_variants.
Context {R : Type} `{Scalar R} (K : Kernels R).

(** One sampling step whose value is known. *)
Lemma after_sample_per_channel_value media_data
    (custom_priors default_priors : gmap string (Prior R)) name draw w
    (Q : result (ndarray R) → run_record R → Prop) c d v :
  shape media_data !! 1 = Some c → 0 < c →
  resolve_prior custom_priors default_priors name
  = Ok (prior_distribution d) →
  batch_shape d = Some [] →
  draw_value (draw name) d [c] = Ok v →
  (∀ w', Q (Ok v) w') →
  after (sample_per_channel media_data custom_priors default_priors name)
    (top_level draw) w Q.
Proof.
  intros Hc Hpos Hres Hbs Hv HQ.
  eapply (after_sample_per_channel_ok _ _ _ _ _ _ _ c d []);
    [done|done|done|done|done|apply broadcast_shapes_nil_l|].
  intros v' _ Hv'. simpl in Hv'. rewrite Hv in Hv'. injection Hv' as <-.
  apply HQ.
Qed.

Lemma after_exponential_of_adstock media_data lag_weight slope normalise e w :
  after (numpyro.bind
           (media_transforms.adstock media_data lag_weight normalise)
           (λ adstock, media_transforms.exponential adstock slope)) e w
    (λ r _, r = exponential_of_adstock media_data lag_weight slope normalise).
Proof.
  apply after_bind, after_adstock. unfold exponential_of_adstock.
  destruct (adstock_kernel media_data lag_weight normalise); [|done].
  by apply after_exponential.
Qed.

Lemma static_dim_decay_result media_data normalise e w :
  (transform_exponential_adstock_static_dim_decay media_data ∅ normalise e w).1
  = exponential_of_adstock media_data
      (expand_if_geo media_data (float 1))
      (expand_if_geo media_data (float 1)) normalise.
Proof.
  change (after (transform_exponential_adstock_static_dim_decay media_data ∅
                   normalise) e w
            (λ r _, r = exponential_of_adstock media_data
                          (expand_if_geo media_data (float 1))
                          (expand_if_geo media_data (float 1)) normalise)).
  unfold transform_exponential_adstock_static_dim_decay. step_table.
  step_pinned. step_pinned. apply after_exponential_of_adstock.
Qed.

Lemma static_dim_result media_data normalise draw w c :
  shape media_data !! 1 = Some c → 0 < c →
  (transform_exponential_adstock_static_dim media_data ∅ normalise
     (top_level draw) w).1
  = exponential_of_adstock media_data
      (expand_if_geo media_data (drawn draw _LAG_WEIGHT c))
      (expand_if_geo media_data (float 1)) normalise.
Proof.
  intros Hc Hpos.
  change (after (transform_exponential_adstock_static_dim media_data ∅
                   normalise) (top_level draw) w
            (λ r _, r = exponential_of_adstock media_data
                          (expand_if_geo media_data (drawn draw _LAG_WEIGHT c))
                          (expand_if_geo media_data (float 1)) normalise)).
  unfold transform_exponential_adstock_static_dim. step_table.
  apply after_bind.
  eapply (after_sample_per_channel_value _ _ _ _ _ _ _ c); try done.
  intros w1. step_pinned. apply after_exponential_of_adstock.
Qed.

Lemma static_decay_result media_data normalise draw w c :
  shape media_data !! 1 = Some c → 0 < c →
  (transform_exponential_adstock_static_decay media_data ∅ normalise
     (top_level draw) w).1
  = exponential_of_adstock media_data
      (expand_if_geo media_data (float 1))
      (expand_if_geo media_data (drawn draw _SLOPE c)) normalise.
Proof.
  intros Hc Hpos.
  change (after (transform_exponential_adstock_static_decay media_data ∅
                   normalise) (top_level draw) w
            (λ r _, r = exponential_of_adstock media_data
                          (expand_if_geo media_data (float 1))
                          (expand_if_geo media_data (drawn draw _SLOPE c))
                          normalise)).
  unfold transform_exponential_adstock_static_decay. step_table.
  apply after_bind.
  eapply (after_sample_per_channel_value _ _ _ _ _ _ _ c); try done.
  intros w1. step_pinned. apply after_exponential_of_adstock.
Qed.

(** [transform_exponential_adstock] under priors whose draws are known. *)
Lemma exponential_adstock_result media_data
    (custom_priors : gmap string (Prior R)) normalise draw w c d1 d2 v1 v2 :
  shape media_data !! 1 = Some c → 0 < c →
  default (prior_distribution (Beta (float 2) (float 1)))
    (custom_priors !! _LAG_WEIGHT) = prior_distribution d1 →
  default (prior_distribution (Gamma (float 1) (float 1)))
    (custom_priors !! _SLOPE) = prior_distribution d2 →
  batch_shape d1 = Some [] → batch_shape d2 = Some [] →
  draw_value (draw _LAG_WEIGHT) d1 [c] = Ok v1 →
  draw_value (draw _SLOPE) d2 [c] = Ok v2 →
  (transform_exponential_adstock media_data custom_priors normalise
     (top_level draw) w).1
  = exponential_of_adstock media_data
      (expand_if_geo media_data v1) (expand_if_geo media_data v2) normalise.
Proof.
  intros Hc Hpos Hd1 Hd2 Hb1 Hb2 Hv1 Hv2.
  change (after (transform_exponential_adstock media_data custom_priors
                   normalise) (top_level draw) w
            (λ r _, r = exponential_of_adstock media_data
                          (expand_if_geo media_data v1)
                          (expand_if_geo media_data v2) normalise)).
  unfold transform_exponential_adstock. step_table.
  apply after_bind.
  eapply (after_sample_per_channel_value _ _ _ _ _ _ _ c d1 v1); try done.
  { erewrite resolve_prior_valid by reflexivity. by rewrite Hd1. }
  intros w1. apply after_bind.
  eapply (after_sample_per_channel_value _ _ _ _ _ _ _ c d2 v2); try done.
  { erewrite resolve_prior_valid by reflexivity. by rewrite Hd2. }
  intros w2. apply after_exponential_of_adstock.
Qed.

End static_variants.

Section point_mass.
Context {R : Type} `{Scalar R} (K : Kernels R).
Context `{!ShapePreserving K} `{!BroadcastInvariant K}.

Lemma same_broadcast_refl s (p : ndarray R) :
  broadcasts_to (shape p) s → same_broadcast s p p.
Proof. intros Hb. split; [by apply broadcast_to_is_Some|done]. Qed.

Lemma exponential_of_adstock_same_broadcast
    (media_data lag_weight lag_weight' slope slope' : ndarray R) normalise :
  same_broadcast (tail (shape media_data)) lag_weight lag_weight' →
  same_broadcast (shape media_data) slope slope' →
  ∃ out,
    exponential_of_adstock media_data lag_weight slope normalise = Ok out
    ∧ exponential_of_adstock media_data lag_weight' slope' normalise = Ok out.
Proof.
  intros [Hlw Heq] [Hs Heqs]. unfold exponential_of_adstock.
  rewrite <- (adstock_broadcast media_data lag_weight lag_weight' normalise
                Hlw Heq).
  destruct (adstock_shape media_data lag_weight normalise
              (broadcast_to_Some_inv _ _ Hlw)) as (a & -> & Ha).
  rewrite <- Ha in Hs, Heqs.
  rewrite <- (exponential_broadcast a slope slope' Hs Heqs).
  destruct (exponential_shape a slope (broadcast_to_Some_inv _ _ Hs))
    as (out & -> & _).
  by exists out.
Qed.

(** C4.  On media data of rank 2 or 3 with at least one channel, each
    static variant without custom priors returns what
    [transform_exponential_adstock] returns when its pinned parameters are
    given the point mass at 1 as custom prior, for the same draws of the
    parameters that stay sampled; both return an array.  The kernels are
    those of any instance that keeps its shape and that reads a parameter
    through its broadcast. *)
Theorem static_variants_pin_to_one
    (media_data : ndarray R) (normalise : bool)
    (draw : string → nat → R) (w w' : run_record R) :
  ndim media_data = 2 ∨ ndim media_data = 3 →
  (∀ c, shape media_data !! 1 = Some c → 0 < c) →
  (∃ out,
     (transform_exponential_adstock_static_dim_decay media_data ∅ normalise
        (top_level draw) w).1 = Ok out
     ∧ (transform_exponential_adstock media_data
          {[ _LAG_WEIGHT := point_mass_one; _SLOPE := point_mass_one ]}
          normalise (top_level draw) w').1 = Ok out)
  ∧ (∃ out,
       (transform_exponential_adstock_static_dim media_data ∅ normalise
          (top_level draw) w).1 = Ok out
       ∧ (transform_exponential_adstock media_data
            {[ _SLOPE := point_mass_one ]}
            normalise (top_level draw) w').1 = Ok out)
  ∧ (∃ out,
       (transform_exponential_adstock_static_decay media_data ∅ normalise
          (top_level draw) w).1 = Ok out
       ∧ (transform_exponential_adstock media_data
            {[ _LAG_WEIGHT := point_mass_one ]}
            normalise (top_level draw) w').1 = Ok out).
Proof.
  intros Hrank Hpos.
  destruct (rank_2_or_3 media_data Hrank) as (t & c & Hshape).
  assert (shape media_data !! 1 = Some c) as Hc.
  { by destruct Hshape as [-> | [g ->]]. }
  specialize (Hpos c Hc).
  pose proof (broadcast_one_ones media_data t c _ Hshape (or_introl eq_refl))
    as Hone_step.
  pose proof (broadcast_one_ones media_data t c _ Hshape (or_intror eq_refl))
    as Hone_full.
  assert (∀ name,
            same_broadcast (tail (shape media_data))
              (expand_if_geo media_data (drawn draw name c))
              (expand_if_geo media_data (drawn draw name c))
            ∧ same_broadcast (shape media_data)
                (expand_if_geo media_data (drawn draw name c))
                (expand_if_geo media_data (drawn draw name c)))
    as Hdrawn.
  { intros name. split; apply same_broadcast_refl;
      destruct Hshape as [Hs | [g Hs]]; expand_geo Hs; rewrite Hs;
      unfold drawn; solve_shapes. }
  split; [|split].
  - rewrite static_dim_decay_result.
    rewrite (exponential_adstock_result K media_data _ normalise draw w' c
               (Delta (float 1)) (Delta (float 1)) (ones c) (ones c));
      try done; try apply draw_value_point_mass_one.
    by apply exponential_of_adstock_same_broadcast.
  - rewrite (static_dim_result K media_data normalise draw w c Hc Hpos).
    rewrite (exponential_adstock_result K media_data _ normalise draw w' c
               (Beta (float 2) (float 1)) (Delta (float 1))
               (drawn draw _LAG_WEIGHT c) (ones c));
      try done; try apply draw_value_point_mass_one.
    apply exponential_of_adstock_same_broadcast; [apply Hdrawn|done].
  - rewrite (static_decay_result K media_data normalise draw w c Hc Hpos).
    rewrite (exponential_adstock_result K media_data _ normalise draw w' c
               (Delta (float 1)) (Gamma (float 1) (float 1))
               (ones c) (drawn draw _SLOPE c));
      try done; try apply draw_value_point_mass_one.
    apply exponential_of_adstock_same_broadcast; [done|apply Hdrawn].
Qed.

End point_mass.

(** ** The names a computation declares *)

Section declared_names.
Context {R : Type} `{Scalar R} `{Kernels R}.

Lemma declares_ret {A} (P : string → Prop) (a : A) :
  declares (R:=R) P (ret a).
Proof. intros e w. exists []. simpl. by rewrite app_nil_r. Qed.

Lemma declares_lift {A} (P : string → Prop) (r : result A) :
  declares (R:=R) P (lift r).
Proof. intros e w. exists []. simpl. by rewrite app_nil_r. Qed.

Lemma declares_raise {A} (P : string → Prop) x :
  declares (R:=R) (A:=A) P (raise x).
Proof. intros e w. exists []. simpl. by rewrite app_nil_r. Qed.

Lemma declares_record_call (P : string → Prop) (c : kernel_call R) :
  declares P (record_call c).
Proof. intros e w. exists []. simpl. by rewrite app_nil_r. Qed.

Lemma declares_bind {A B} (P : string → Prop) (m : M R A) (k : A → M R B) :
  declares P m → (∀ a, declares P (k a)) → declares P (bind m k).
Proof.
  intros Hm Hk e w. destruct (Hm e w) as (new & Hnew & HP).
  unfold bind. destruct (m e w) as [[a|x] w1]; simpl in *.
  - destruct (Hk a e w1) as (new' & Hnew' & HP').
    exists (new ++ new'). rewrite Hnew', Hnew, app_assoc.
    split; [done|]. by apply Forall_app.
  - by exists new.
Qed.

Lemma declares_plate {A} (P : string → Prop) name size dim (body : M R A) :
  declares P body → declares P (plate name size dim body).
Proof.
  intros Hbody e w. unfold plate.
  assert (∃ new : list (Site R),
            trace w = trace w ++ new
            ∧ Forall (λ s, P (site_name s)) new) as Hnone.
  { exists []. by rewrite app_nil_r. }
  destruct (size =? 0)%nat; [done|].
  destruct dim as [d|].
  - destruct (0 <=? d)%Z; [done|]. case_bool_decide; [done|]. apply Hbody.
  - apply Hbody.
Qed.

Lemma declares_sample (P : string → Prop) name (fn : Distribution R) obs :
  P name → declares P (sample name fn obs).
Proof.
  intros HP e w.
  apply (after_sample name fn obs e w
           (λ _ w', ∃ new, trace w' = trace w ++ new
                           ∧ Forall (λ s, P (site_name s)) new)).
  - intros _. exists []. by rewrite app_nil_r.
  - intros bs s v _ _ _. eexists [_]. split; [done|].
    by repeat constructor.
Qed.

Lemma declares_deterministic (P : string → Prop) name (v : ndarray R) :
  P name → declares P (deterministic name v).
Proof.
  intros HP e w. eexists [_]. split; [done|]. by repeat constructor.
Qed.

Lemma declares_plate_stack_from {A} (P : string → Prop) prefix i sizes
    (body : M R A) :
  declares P body → declares P (plate_stack_from prefix i sizes body).
Proof.
  intros Hbody. revert i.
  induction sizes as [|size sizes IH]; intros i; simpl; [done|].
  apply declares_plate, IH.
Qed.

Lemma declares_plate_stack {A} (P : string → Prop) prefix sizes
    (body : M R A) :
  declares P body → declares P (plate_stack prefix sizes body).
Proof. apply declares_plate_stack_from. Qed.

Lemma declares_sample_prior (P : string → Prop) name (p : Prior R) :
  P name → declares P (sample_prior name p).
Proof.
  intros HP. destruct p; simpl;
    [by apply declares_sample|apply declares_raise].
Qed.

Lemma declares_sample_per_channel (P : string → Prop) media_data
    (custom_priors default_priors : gmap string (Prior R)) name :
  P name →
  declares P (sample_per_channel media_data custom_priors default_priors name).
Proof.
  intros HP. unfold sample_per_channel.
  apply declares_bind; [apply declares_lift|]. intros size.
  apply declares_plate, declares_bind; [apply declares_lift|]. intros fn.
  by apply declares_sample_prior.
Qed.

Lemma declares_weaken {A} (P P' : string → Prop) (m : M R A) :
  (∀ n, P n → P' n) → declares P m → declares P' m.
Proof.
  intros HPP Hm e w. destruct (Hm e w) as (new & Hnew & HP).
  exists new. split; [done|]. eapply Forall_impl; [done|]. auto.
Qed.

(** What is known after a run that declares only some names. *)
Lemma after_declares {A} (P : string → Prop) (m : M R A) e w
    (Q : result A → run_record R → Prop) :
  declares P m →
  (∀ r w' new,
     trace w' = trace w ++ new → Forall (λ s, P (site_name s)) new →
     Q r w') →
  after m e w Q.
Proof.
  intros Hm HQ. destruct (Hm e w) as (new & Hnew & HP).
  unfold after. by apply (HQ _ _ new).
Qed.

End declared_names.

(** Walking through a computation to list the names it declares. *)
Ltac declares_walk :=
  repeat first
    [ apply declares_ret
    | apply declares_lift
    | apply declares_raise
    | apply declares_record_call
    | apply declares_sample_per_channel
    | apply declares_sample_prior
    | apply declares_sample
    | apply declares_deterministic
    | apply declares_plate_stack
    | apply declares_plate
    | apply declares_bind; [|intros ?]
    | match goal with
      | |- declares _ (match ?x with _ => _ end) => destruct x
      | |- declares _ (let '(_, _) := ?x in _) => destruct x
      end ].

Section transform_names.
Context {R : Type} `{Scalar R} (K : Kernels R).

(** Each transform declares only sites named in its entry of
    [TRANSFORM_PRIORS_NAMES], whatever its arguments. *)
Lemma transforms_declare_their_names normalise number_lags name f names
    (media_data : ndarray R) (custom_priors : gmap string (Prior R)) :
  (name, f) ∈ transforms normalise number_lags →
  TRANSFORM_PRIORS_NAMES !! name = Some names →
  declares (λ n, n ∈ names) (f media_data custom_priors).
Proof.
  intros Hin Hnames. unfold transforms in Hin.
  unfold TRANSFORM_PRIORS_NAMES in Hnames.
  repeat (apply elem_of_cons in Hin as [[= -> ->] | Hin]);
    [..|by apply elem_of_nil in Hin];
    simplify_map_eq;
    unfold transform_carryover, transform_adstock, transform_hill_adstock,
      transform_exponential_adstock,
      transform_exponential_adstock_static_dim,
      transform_exponential_adstock_static_decay,
      transform_exponential_adstock_static_dim_decay,
      media_transforms.carryover, media_transforms.adstock,
      media_transforms.hill, media_transforms.exponential,
      media_transforms.apply_exponent_safe;
    declares_walk; set_solver.
Qed.

(** The same for the transform functions with their keyword arguments. *)
Lemma transform_functions_declare_their_names name tf names
    (media_data : ndarray R) (custom_priors : gmap string (Prior R))
    (kwargs : gmap string kwarg) :
  (name, tf) ∈ transform_functions →
  TRANSFORM_PRIORS_NAMES !! name = Some names →
  declares (λ n, n ∈ names) (tf media_data custom_priors kwargs).
Proof.
  intros Hin Hnames. unfold transform_functions in Hin.
  unfold TRANSFORM_PRIORS_NAMES in Hnames.
  repeat (apply elem_of_cons in Hin as [[= -> ->] | Hin]);
    [..|by apply elem_of_nil in Hin];
    simplify_map_eq;
    unfold def_normalise, def_number_lags,
      transform_carryover, transform_adstock, transform_hill_adstock,
      transform_exponential_adstock,
      transform_exponential_adstock_static_dim,
      transform_exponential_adstock_static_decay,
      transform_exponential_adstock_static_dim_decay,
      media_transforms.carryover, media_transforms.adstock,
      media_transforms.hill, media_transforms.exponential,
      media_transforms.apply_exponent_safe;
    declares_walk; set_solver.
Qed.

End transform_names.

(** ** The contraction and the coefficient plates *)

Section contraction.
Context {R : Type} `{Scalar R}.

(** The national subscripts ask for a coefficient of rank 1. *)
Lemma einsum_national_rank (a b : ndarray R) :
  2 ≤ ndim b → einsum "tc, c -> t" a b = Err ValueError.
Proof.
  intros Hb. unfold einsum.
  change (parse_subscripts "tc, c -> t")
    with (Some ([["t"; "c"]; ["c"]]%char, ["t"]%char)).
  cbv beta iota.
  destruct (bind_labels ["t"; "c"]%char (shape a) []) as [env1|];
    [|reflexivity].
  unfold ndim in Hb.
  destruct (shape b) as [|d1 [|d2 l]]; simpl in Hb; try lia.
  simpl. destruct (env_lookup "c" env1); [|done].
  by destruct (d1 =? n)%nat.
Qed.

Lemma plate_expand_length stack bs s :
  plate_expand stack bs = Some s →
  length s = length (expected_shape stack) `max` length bs.
Proof.
  unfold plate_expand.
  destruct (broadcast_shapes _ bs) as [s'|] eqn:E; [|done].
  intros [= <-]. apply broadcast_shapes_length in E.
  rewrite length_app, length_take, E, length_drop. lia.
Qed.

(** The last axes of two shapes that broadcast. *)
Lemma broadcasts_to_snoc_inv bs s x g :
  broadcasts_to (bs ++ [x]) (s ++ [g]) →
  broadcasts_to bs s ∧ (x = 1 ∨ x = g).
Proof.
  unfold broadcasts_to. rewrite broadcast_shapes_snoc.
  destruct (x =? g)%nat eqn:E; [apply Nat.eqb_eq in E as ->|].
  { destruct (broadcast_shapes bs s); simpl; [|done].
    intros [= [-> _]%app_inj_tail]. auto. }
  destruct (x =? 1)%nat eqn:E1; [apply Nat.eqb_eq in E1 as ->|].
  { destruct (broadcast_shapes bs s); simpl; [|done].
    intros [= [-> _]%app_inj_tail]. auto. }
  destruct (g =? 1)%nat; [|done].
  destruct (broadcast_shapes bs s); simpl; [|done].
  intros [= [_ ->]%app_inj_tail]. by rewrite Nat.eqb_refl in E.
Qed.

(** What broadcasts to two axes. *)
Lemma broadcasts_to_pair bs c g :
  broadcasts_to bs [c; g] →
  bs = []
  ∨ ∃ bs' x, bs = bs' ++ [x] ∧ (x = 1 ∨ x = g)
             ∧ (bs' = [] ∨ bs' = [1] ∨ bs' = [c]).
Proof.
  destruct bs as [|y bs] using rev_ind; [by left|]. clear IHbs.
  intros [Hb Hx]%(broadcasts_to_snoc_inv bs [c] y g).
  right. exists bs, y. split; [done|]. split; [done|].
  by apply broadcasts_to_singleton.
Qed.

Lemma expected_shape_geo g : expected_shape [geo_media_plate g] = [g].
Proof. reflexivity. Qed.

Lemma expected_shape_channel_geo c g :
  expected_shape [geo_media_plate g; channel_media_plate c true] = [c; g].
Proof. reflexivity. Qed.

Lemma expected_shape_channel c :
  expected_shape [channel_media_plate c true] = [c; 1].
Proof. reflexivity. Qed.

End contraction.

(** Evaluating the shape of a site under the coefficient plates. *)
Ltac eval_plates :=
  unfold plates_expand, plate_expand; cbn [app];
  rewrite ?expected_shape_geo, ?expected_shape_channel_geo,
    ?expected_shape_channel;
  unfold broadcast_shapes; cbn -[Nat.eqb];
  repeat first
    [ rewrite Nat.eqb_refl; cbn -[Nat.eqb]
    | match goal with
      | |- context [(?x =? ?y)%nat] =>
          let E := fresh "E" in
          destruct (x =? y)%nat eqn:E;
          [apply Nat.eqb_eq in E; subst|]; cbn -[Nat.eqb]
      end ];
  try done.

Section coefficient_shapes.
Context {R : Type} `{Scalar R}.

(** Under the plate over geos inside the plate over channels, a
    distribution no finer than per channel and geo has one value per
    channel and geo. *)
Lemma plates_expand_channel_geo bs c g :
  broadcasts_to bs [c; g] →
  plates_expand [] [geo_media_plate g; channel_media_plate c true] bs
  = Some [c; g].
Proof.
  intros [-> | (bs' & x & -> & [-> | ->] & [-> | [-> | ->]])]%broadcasts_to_pair;
    eval_plates.
Qed.

(** Under the plate over channels alone it has a value too. *)
Lemma plates_expand_channel bs c g :
  broadcasts_to bs [c; g] →
  ∃ s, plates_expand [] [channel_media_plate c true] bs = Some s.
Proof.
  intros [-> | (bs' & x & -> & [-> | ->] & [-> | [-> | ->]])]%broadcasts_to_pair;
    eval_plates; by eexists.
Qed.

End coefficient_shapes.

(** ** The statements of the model *)

Section model_statements.
Context {R : Type} `{Scalar R} `{Kernels R}.

Lemma media_shape_geo (media_data : ndarray R) t c g :
  shape media_data = [t; c; g] → media_shape media_data = Ok (t, c, [g], g).
Proof. intros Hs. unfold media_shape, ndim, tuple_getitem. by rewrite Hs. Qed.

Lemma media_shape_national (media_data : ndarray R) t c :
  shape media_data = [t; c] → media_shape media_data = Ok (t, c, [], 1).
Proof. intros Hs. unfold media_shape, ndim, tuple_getitem. by rewrite Hs. Qed.

(** A model-level parameter, sampled in its plate: the block raises
    without declaring anything, or declares the site of the parameter. *)
Lemma after_sample_resolved
    (custom_priors default_priors : gmap string (Prior R)) name size e w
    (Q : result (ndarray R) → run_record R → Prop) :
  (∀ x, Q (Err x) w) →
  (∀ v s, site_name s = name → Q (Ok v) (with_site w s)) →
  after (plate (name +:+ "_plate") size None
           (bind (lift (resolve_prior custom_priors default_priors name))
                 (λ fn, sample_prior name fn))) e w Q.
Proof.
  intros Herr Hok. apply after_plate; [done|]. intros d _ _ _ _.
  apply after_bind, after_lift.
  destruct (resolve_prior custom_priors default_priors name) as [[fn|v]|x];
    [|apply Herr..].
  apply after_sample; [done|]. intros bs s v _ _ _. by apply Hok.
Qed.

(** The same block when it is known to succeed. *)
Lemma sample_resolved_run
    (custom_priors default_priors : gmap string (Prior R)) name size draw
    d bs :
  0 < size →
  resolve_prior custom_priors default_priors name
  = Ok (prior_distribution d) →
  batch_shape d = Some bs → broadcasts_to bs [size] →
  ∃ v, draw_value (draw name) d [size] = Ok v
       ∧ ∀ w,
           plate (name +:+ "_plate") size None
             (bind (lift (resolve_prior custom_priors default_priors name))
                   (λ fn, sample_prior name fn)) (top_level draw) w
           = (Ok v,
              with_site w
                (sampled_site (inside draw [geo_plate name size]) name d
                   None v)).
Proof.
  intros Hpos Hres Hbs Hb.
  destruct (draw_value_ok (draw name) d bs [size] Hbs Hb) as [v Hv].
  exists v. split; [done|]. intros w.
  unfold plate. simpl.
  destruct size as [|n]; [lia|]. simpl.
  unfold bind at 1, lift at 1. rewrite Hres.
  unfold sample_prior, sample. rewrite Hbs. simpl open_plates.
  rewrite plates_expand_one.
  rewrite (plate_expand_one _ bs (S n)); [|done..].
  unfold bind, lift. simpl draws. by rewrite Hv.
Qed.

(** Any outcome is an outcome. *)
Lemma after_any {A} (m : M R A) e w (Q : result A → run_record R → Prop) :
  (∀ r w', Q r w') → after m e w Q.
Proof. intros HQ. apply HQ. Qed.

(** X2.  On media data of rank 3 the run of the model raises, whatever
    the other arguments, the draws and the record it starts from: the
    coefficient has a value per channel and geo, and the contraction is
    the national one. *)
Lemma media_mix_model_raises_on_geo_data
    (media_data target_data media_prior media_sigma : ndarray R)
    (transform_function : TransformFunction)
    (custom_priors : gmap string (Prior R))
    (transform_kwargs : option (gmap string kwarg))
    (extra_features : option (ndarray R))
    (draw : string → nat → R) (w : run_record R) :
  ndim media_data = 3 →
  ∃ x,
    (media_mix_model media_data target_data media_prior media_sigma
       transform_function custom_priors transform_kwargs extra_features
       (top_level draw) w).1 = Err x.
Proof.
  intros Hrank.
  assert (∃ t c g, shape media_data = [t; c; g]) as (t & c & g & Hs).
  { unfold ndim in Hrank.
    destruct (shape media_data) as [|t [|c [|g [|? ?]]]]; try done.
    by exists t, c, g. }
  change (after (media_mix_model media_data target_data media_prior
                   media_sigma transform_function custom_priors
                   transform_kwargs extra_features) (top_level draw) w
            (λ r _, ∃ x, r = Err x)).
  unfold media_mix_model. rewrite Hrank. cbn [Nat.eqb].
  apply after_bind, after_lift. rewrite (media_shape_geo _ _ _ _ Hs).
  apply after_bind, after_sample_resolved; [by eexists|].
  intros intercept s1 _.
  apply after_bind, after_sample_resolved; [by eexists|].
  intros sigma s2 _.
  apply after_bind, after_plate; [by eexists|]. intros d _ _ _ Hd.
  rewrite (Hd _ eq_refl). clear d Hd.
  apply after_bind, after_sample; [by eexists|].
  intros bs1 sh1 v1 _ _ _.
  apply after_plate; [by eexists|]. intros d _ _ _ Hd.
  rewrite (Hd _ eq_refl). clear d Hd.
  apply after_sample; [by eexists|].
  intros bs sh coef_media Hbs Hsh Hv.
  assert (2 ≤ ndim coef_media) as Hcoef.
  { unfold ndim. rewrite (draw_value_shape _ _ _ _ Hv).
    simpl in Hsh.
    destruct (plate_expand _ bs) as [bs'|]; [|done].
    destruct (plate_expand _ bs') as [sh'|] eqn:Hsh'; [|done].
    injection Hsh as <-. apply plate_expand_length in Hsh'.
    change (expected_shape _) with [c; g] in Hsh'.
    rewrite Hsh'. simpl. lia. }
  apply after_bind, after_bind, after_any. intros [value|x] w'; [|by eexists].
  apply after_deterministic.
  apply after_bind, after_bind, after_lift.
  rewrite (einsum_national_rank _ _ Hcoef). by eexists.
Qed.

End model_statements.

(** ** The coefficient sites *)

Section coefficient_sites.
Context {R : Type} `{Scalar R} (K : Kernels R).

(** The names of the transform parameters are not names of the model. *)
Lemma transform_functions_declare (P : string → Prop) name tf
    (media_data : ndarray R) (custom_priors : gmap string (Prior R))
    (kwargs : gmap string kwarg) :
  (name, tf) ∈ transform_functions →
  (∀ n, n ∈ ({[ _EXPONENT; _LAG_WEIGHT; _HALF_MAX_EFFECTIVE_CONCENTRATION;
                _SLOPE; _AD_EFFECT_RETENTION_RATE; _PEAK_EFFECT_DELAY ]}
             : gset string) → P n) →
  declares P (tf media_data custom_priors kwargs).
Proof.
  intros Hin HP.
  assert (∃ names, TRANSFORM_PRIORS_NAMES !! name = Some names
                   ∧ ∀ n, n ∈ names → P n) as (names & Hnames & Hsub).
  { unfold transform_functions in Hin.
    repeat (apply elem_of_cons in Hin as [[= -> ->] | Hin]);
      [..|by apply elem_of_nil in Hin];
      (eexists; split; [reflexivity|]); intros n Hn; apply HP;
      revert Hn; rewrite !elem_of_union, !elem_of_singleton; tauto. }
  eapply declares_weaken; [exact Hsub|].
  by apply (transform_functions_declare_their_names K name).
Qed.

(** The coefficient block on geo data, when it succeeds. *)
Lemma coef_media_geo_run (media_prior media_sigma : ndarray R) draw c g bs :
  0 < c → 0 < g →
  batch_shape (Normal media_prior media_sigma) = Some bs →
  broadcasts_to bs [c; g] →
  ∃ channel_coef_media coef_media,
    shape coef_media = [c; g]
    ∧ ∀ w,
      plate "channel_media_plate" c (Some (-2)%Z)
        (bind (sample "channel_coef_media" (Normal media_prior media_sigma)
                 None)
              (λ _, plate "geo_media_plate" g (Some (-1)%Z)
                      (sample "coef_media" (Normal media_prior media_sigma)
                         None)))
        (top_level draw) w
      = (Ok coef_media,
         with_site
           (with_site w
              (sampled_site (inside draw [channel_media_plate c true])
                 "channel_coef_media" (Normal media_prior media_sigma) None
                 channel_coef_media))
           (sampled_site
              (inside draw [geo_media_plate g; channel_media_plate c true])
              "coef_media" (Normal media_prior media_sigma) None coef_media)).
Proof.
  intros Hc Hg Hbs Hb.
  destruct (plates_expand_channel bs c g Hb) as [s1 Hs1].
  pose proof (plates_expand_channel_geo bs c g Hb) as Hs2.
  exists (mk_ndarray s1 (map (draw "channel_coef_media") (seq 0 (numel s1)))),
    (mk_ndarray [c; g] (map (draw "coef_media") (seq 0 (numel [c; g])))).
  split; [done|]. intros w.
  unfold plate. destruct c as [|c']; [lia|]. destruct g as [|g']; [lia|].
  simpl. unfold bind at 1. unfold sample at 1. rewrite Hbs.
  change (open_plates _) with [channel_media_plate (S c') true] at 1.
  rewrite Hs1. unfold bind, lift, declare, ret. simpl.
  unfold sample. rewrite Hbs.
  change (plates_expand [] _ bs)
    with (plates_expand []
            [geo_media_plate (S g'); channel_media_plate (S c') true] bs).
  rewrite Hs2. reflexivity.
Qed.

(** The coefficient block on national data, when it succeeds. *)
Lemma coef_media_national_run (media_prior media_sigma : ndarray R) draw c
    bs :
  0 < c →
  batch_shape (Normal media_prior media_sigma) = Some bs →
  broadcasts_to bs [c] →
  ∃ coef_media,
    shape coef_media = [c]
    ∧ ∀ w,
      plate "channel_media_plate" c (Some (-1)%Z)
        (bind (sample "coef_media" (Normal media_prior media_sigma) None)
              (λ coef_media, ret coef_media))
        (top_level draw) w
      = (Ok coef_media,
         with_site w
           (sampled_site (inside draw [channel_media_plate c false])
              "coef_media" (Normal media_prior media_sigma) None coef_media)).
Proof.
  intros Hc Hbs Hb.
  exists (mk_ndarray [c] (map (draw "coef_media") (seq 0 (numel [c])))).
  split; [done|]. intros w.
  unfold plate. destruct c as [|c']; [lia|]. simpl.
  unfold bind at 1. unfold sample at 1. rewrite Hbs.
  simpl open_plates. rewrite plates_expand_one.
  rewrite (plate_expand_one _ bs (S c')); [|done..].
  reflexivity.
Qed.

End coefficient_sites.

(** ** The run of the model up to the coefficients *)

Section model_prefix.
Context {R : Type} `{Scalar R} (K : Kernels R).

Lemma after_run_eq {A} (m : M R A) e w r w1
    (Q : result A → run_record R → Prop) :
  m e w = (r, w1) → Q r w1 → after m e w Q.
Proof. intros Hrun HQ. unfold after. by rewrite Hrun. Qed.

Lemma model_prior_resolved (custom_priors : gmap string (Prior R)) n name :
  model_priors_per_geo n custom_priors →
  name = _INTERCEPT ∨ name = _SIGMA →
  ∃ d bs,
    resolve_prior custom_priors _get_default_priors name
    = Ok (prior_distribution d)
    ∧ batch_shape d = Some bs ∧ broadcasts_to bs [n].
Proof.
  intros Hpriors Hname.
  destruct (custom_priors !! name) as [p|] eqn:Hp.
  - pose proof (Hpriors name p Hname Hp) as Hb.
    destruct p as [d|v]; [|done]. destruct Hb as (bs & Hbs & Hb).
    exists d, bs. split; [|done].
    destruct Hname as [-> | ->];
      erewrite resolve_prior_valid by reflexivity; by rewrite Hp.
  - destruct Hname as [-> | ->];
      (eexists _, []; split;
       [erewrite resolve_prior_valid by reflexivity; by rewrite Hp|]);
      (split; [reflexivity|apply broadcast_shapes_nil_l]).
Qed.

Lemma sites_named_none (new : list (Site R)) name :
  Forall (λ s, site_name s ≠ name) new →
  filter (λ s, site_name s = name) new = [].
Proof.
  induction 1 as [|s new Hs _ IH]; [done|].
  by rewrite filter_cons, decide_False, IH.
Qed.

End model_prefix.

(** The sites of a given name in a trace that is known up to its last
    part. *)
Ltac named_sites :=
  unfold with_site; cbn [trace empty_record];
  rewrite ?filter_app, ?filter_cons, ?filter_nil;
  cbn [site_name sampled_site deterministic_node];
  repeat (case_decide; try done).

(** A name of a transform parameter is not the given name. *)
Ltac other_name :=
  let n := fresh "n" in
  let Hn := fresh "Hn" in
  intros n; rewrite !elem_of_union, !elem_of_singleton; intros Hn;
  repeat (destruct Hn as [Hn | Hn]); by subst.

(** ** The sites of a name in a record *)

Section sites_of_a_name.
Context {R : Type} `{Scalar R}.

Lemma sites_named_with_site_other name (w : run_record R) s :
  site_name s ≠ name →
  sites_named name (with_site w s) = sites_named name w.
Proof.
  intros Hs. unfold sites_named, with_site. cbn [trace].
  by rewrite filter_app, filter_cons, decide_False, filter_nil, app_nil_r.
Qed.

Lemma sites_named_with_site_same name (w : run_record R) s :
  site_name s = name →
  sites_named name (with_site w s) = sites_named name w ++ [s].
Proof.
  intros Hs. unfold sites_named, with_site. cbn [trace].
  by rewrite filter_app, filter_cons, decide_True, filter_nil.
Qed.

Lemma sites_named_declared_others name (w w' : run_record R) new :
  trace w' = trace w ++ new →
  Forall (λ s, site_name s ≠ name) new →
  sites_named name w' = sites_named name w.
Proof.
  intros Htrace Hnew. unfold sites_named.
  by rewrite Htrace, filter_app, (sites_named_none new), app_nil_r.
Qed.

End sites_of_a_name.

(** ** The axes of the media coefficients *)

Section coefficient_axes.
Context {R : Type} `{Scalar R} (K : Kernels R).

(** The site [coef_media] on geo data, whatever the priors: it is
    declared at most once, and only in the plate over the geos inside the
    plate over the channels. *)
Lemma coef_media_geo_plates
    (media_data target_data media_prior media_sigma : ndarray R)
    (name : string) (transform_function : TransformFunction)
    (custom_priors : gmap string (Prior R))
    (transform_kwargs : option (gmap string kwarg))
    (extra_features : option (ndarray R))
    (draw : string → nat → R) (t c g : nat) :
  shape media_data = [t; c; g] →
  (name, transform_function) ∈ transform_functions →
  sites_named "coef_media"
    (media_mix_model media_data target_data media_prior media_sigma
       transform_function custom_priors transform_kwargs extra_features
       (top_level draw) empty_record).2 = []
  ∨ ∃ v,
      sites_named "coef_media"
        (media_mix_model media_data target_data media_prior media_sigma
           transform_function custom_priors transform_kwargs extra_features
           (top_level draw) empty_record).2
      = [sampled_site
           (inside draw [geo_media_plate g; channel_media_plate c true])
           "coef_media" (Normal media_prior media_sigma) None v].
Proof.
  intros Hs Hin.
  match goal with
  | |- sites_named _ (?m ?e ?w).2 = [] ∨ _ =>
      change (after m e w
                (λ _ w',
                   sites_named "coef_media" w' = []
                   ∨ ∃ v,
                       sites_named "coef_media" w'
                       = [sampled_site
                            (inside draw
                               [geo_media_plate g; channel_media_plate c true])
                            "coef_media" (Normal media_prior media_sigma)
                            None v]))
  end.
  assert (sites_named "coef_media" (R:=R) empty_record = []) as Hnone
    by done.
  revert Hnone. generalize (empty_record (R:=R)). intros w Hnone.
  unfold media_mix_model, ndim. rewrite Hs. cbn [length Nat.eqb].
  apply after_bind, after_lift. rewrite (media_shape_geo _ _ _ _ Hs).
  apply after_bind, after_sample_resolved; [by left|].
  intros intercept s1 Hs1.
  rewrite <- (sites_named_with_site_other _ w s1) in Hnone
    by (by rewrite Hs1).
  apply after_bind, after_sample_resolved; [by left|].
  intros sigma s2 Hs2.
  rewrite <- (sites_named_with_site_other _ _ s2) in Hnone
    by (by rewrite Hs2).
  apply after_bind, after_plate; [by left|]. intros d _ _ _ Hd.
  rewrite (Hd _ eq_refl). clear d Hd.
  apply after_bind, after_sample; [by left|].
  intros bs1 sh1 v1 _ _ _.
  match goal with
  | |- context [with_site _ ?s] =>
      rewrite <- (sites_named_with_site_other _ _ s) in Hnone by done
  end.
  apply after_plate; [by left|]. intros d _ _ _ Hd.
  rewrite (Hd _ eq_refl). clear d Hd.
  apply after_sample; [by left|].
  intros bs2 sh2 v _ _ _.
  eapply (after_declares (λ n, n ≠ "coef_media")).
  { declares_walk; try done.
    eapply (transform_functions_declare K); [exact Hin|other_name]. }
  intros r w' new Htrace Hnew. right. exists v.
  rewrite (sites_named_declared_others _ _ _ _ Htrace Hnew).
  rewrite sites_named_with_site_same by done. by rewrite Hnone.
Qed.

(** The same on media data that is not of rank 3: the site is declared at
    most once, and only in the plate over the channels. *)
Lemma coef_media_national_plate
    (media_data target_data media_prior media_sigma : ndarray R)
    (name : string) (transform_function : TransformFunction)
    (custom_priors : gmap string (Prior R))
    (transform_kwargs : option (gmap string kwarg))
    (extra_features : option (ndarray R))
    (draw : string → nat → R) (t c : nat) (rest : list nat) :
  shape media_data = t :: c :: rest → length rest ≠ 1 →
  (name, transform_function) ∈ transform_functions →
  sites_named "coef_media"
    (media_mix_model media_data target_data media_prior media_sigma
       transform_function custom_priors transform_kwargs extra_features
       (top_level draw) empty_record).2 = []
  ∨ ∃ v,
      sites_named "coef_media"
        (media_mix_model media_data target_data media_prior media_sigma
           transform_function custom_priors transform_kwargs extra_features
           (top_level draw) empty_record).2
      = [sampled_site (inside draw [channel_media_plate c false])
           "coef_media" (Normal media_prior media_sigma) None v].
Proof.
  intros Hs Hrest Hin.
  match goal with
  | |- sites_named _ (?m ?e ?w).2 = [] ∨ _ =>
      change (after m e w
                (λ _ w',
                   sites_named "coef_media" w' = []
                   ∨ ∃ v,
                       sites_named "coef_media" w'
                       = [sampled_site
                            (inside draw [channel_media_plate c false])
                            "coef_media" (Normal media_prior media_sigma)
                            None v]))
  end.
  assert (sites_named "coef_media" (R:=R) empty_record = []) as Hnone
    by done.
  revert Hnone. generalize (empty_record (R:=R)). intros w Hnone.
  assert ((ndim media_data =? 3)%nat = false) as Hrank.
  { unfold ndim. rewrite Hs. simpl. by destruct rest as [|? [|? ?]]. }
  assert (media_shape media_data = Ok (t, c, [], 1)) as Hshape.
  { unfold media_shape. rewrite Hrank. unfold tuple_getitem.
    by rewrite Hs. }
  unfold media_mix_model. rewrite Hrank.
  apply after_bind, after_lift. rewrite Hshape.
  apply after_bind, after_sample_resolved; [by left|].
  intros intercept s1 Hs1.
  rewrite <- (sites_named_with_site_other _ w s1) in Hnone
    by (by rewrite Hs1).
  apply after_bind, after_sample_resolved; [by left|].
  intros sigma s2 Hs2.
  rewrite <- (sites_named_with_site_other _ _ s2) in Hnone
    by (by rewrite Hs2).
  apply after_bind, after_plate; [by left|]. intros d _ _ _ Hd.
  rewrite (Hd _ eq_refl). clear d Hd.
  apply after_bind, after_sample; [by left|].
  intros bs1 sh1 v _ _ _. apply after_ret.
  eapply (after_declares (λ n, n ≠ "coef_media")).
  { declares_walk; try done.
    eapply (transform_functions_declare K); [exact Hin|other_name]. }
  intros r w' new Htrace Hnew. right. exists v.
  rewrite (sites_named_declared_others _ _ _ _ Htrace Hnew).
  rewrite sites_named_with_site_same by done. by rewrite Hnone.
Qed.

(** C8, as the code has it.  The site [coef_media] of the model, with
    any of the seven transforms and whatever the priors: on geo data
    (rank 3, [c] channels and [g] geos) it is declared at most once, and
    only in the plate over the [g] geos inside the plate over the [c]
    channels; on any other media data of rank 2 or more it is declared at
    most once, and only in the plate over the [c] channels.  Its
    distribution is the normal distribution of the two prior arrays.  When
    there are channels and geos, the priors of the intercept and of sigma
    can be sampled per geo and the batch shape of the coefficient prior
    broadcasts to [(c, g)] (scalars, or a column of shape [(c, 1)]), the
    site is declared and its value has the shape [(c, g)]; on other media
    data, with a coefficient prior that broadcasts to [(c,)], the shape
    [(c,)]. *)
Theorem coef_media_channel_and_geo_axes
    (media_data target_data media_prior media_sigma : ndarray R)
    (name : string) (transform_function : TransformFunction)
    (custom_priors : gmap string (Prior R))
    (transform_kwargs : option (gmap string kwarg))
    (extra_features : option (ndarray R))
    (draw : string → nat → R) (t c : nat) (rest : list nat) :
  shape media_data = t :: c :: rest →
  (name, transform_function) ∈ transform_functions →
  (∀ g, rest = [g] →
     (sites_named "coef_media"
        (media_mix_model media_data target_data media_prior media_sigma
           transform_function custom_priors transform_kwargs extra_features
           (top_level draw) empty_record).2 = []
      ∨ ∃ v,
          sites_named "coef_media"
            (media_mix_model media_data target_data media_prior media_sigma
               transform_function custom_priors transform_kwargs
               extra_features (top_level draw) empty_record).2
          = [sampled_site
               (inside draw [geo_media_plate g; channel_media_plate c true])
               "coef_media" (Normal media_prior media_sigma) None v])
     ∧ ∀ bs,
         0 < c → 0 < g → model_priors_per_geo g custom_priors →
         batch_shape (Normal media_prior media_sigma) = Some bs →
         broadcasts_to bs [c; g] →
         ∃ v,
           sites_named "coef_media"
             (media_mix_model media_data target_data media_prior media_sigma
                transform_function custom_priors transform_kwargs
                extra_features (top_level draw) empty_record).2
           = [sampled_site
                (inside draw [geo_media_plate g; channel_media_plate c true])
                "coef_media" (Normal media_prior media_sigma) None v]
           ∧ shape v = [c; g])
  ∧ (length rest ≠ 1 →
     (sites_named "coef_media"
        (media_mix_model media_data target_data media_prior media_sigma
           transform_function custom_priors transform_kwargs extra_features
           (top_level draw) empty_record).2 = []
      ∨ ∃ v,
          sites_named "coef_media"
            (media_mix_model media_data target_data media_prior media_sigma
               transform_function custom_priors transform_kwargs
               extra_features (top_level draw) empty_record).2
          = [sampled_site (inside draw [channel_media_plate c false])
               "coef_media" (Normal media_prior media_sigma) None v])
     ∧ ∀ bs,
         0 < c → model_priors_per_geo 1 custom_priors →
         batch_shape (Normal media_prior media_sigma) = Some bs →
         broadcasts_to bs [c] →
         ∃ v,
           sites_named "coef_media"
             (media_mix_model media_data target_data media_prior media_sigma
                transform_function custom_priors transform_kwargs
                extra_features (top_level draw) empty_record).2
           = [sampled_site (inside draw [channel_media_plate c false])
                "coef_media" (Normal media_prior media_sigma) None v]
           ∧ shape v = [c]).
Proof.
  intros Hs Hin. split.
  - intros g ->. split; [by eapply coef_media_geo_plates|].
    intros bs Hc Hg Hpriors Hbs Hb.
    destruct (model_prior_resolved _ _ _INTERCEPT Hpriors (or_introl eq_refl))
      as (di & bsi & Hri & Hbsi & Hbi).
    destruct (model_prior_resolved _ _ _SIGMA Hpriors (or_intror eq_refl))
      as (ds & bss & Hrs & Hbss & Hbs').
    match goal with
    | |- ∃ v, sites_named _ (?m ?e ?w).2 = _ ∧ _ =>
        change (after m e w
                  (λ _ w', ∃ v,
                     sites_named "coef_media" w'
                     = [sampled_site
                          (inside draw
                             [geo_media_plate g; channel_media_plate c true])
                          "coef_media" (Normal media_prior media_sigma)
                          None v]
                     ∧ shape v = [c; g]))
    end.
    unfold media_mix_model, ndim. rewrite Hs. cbn [length Nat.eqb].
    apply after_bind, after_lift. rewrite (media_shape_geo _ _ _ _ Hs).
    destruct (sample_resolved_run custom_priors _get_default_priors
                _INTERCEPT g draw di bsi Hg Hri Hbsi Hbi)
      as (vi & _ & Hrun_i).
    apply after_bind. eapply after_run_eq; [apply Hrun_i|]. cbv beta iota.
    destruct (sample_resolved_run custom_priors _get_default_priors
                _SIGMA g draw ds bss Hg Hrs Hbss Hbs')
      as (vs & _ & Hrun_s).
    apply after_bind. eapply after_run_eq; [apply Hrun_s|]. cbv beta iota.
    destruct (coef_media_geo_run media_prior media_sigma draw c g bs
                Hc Hg Hbs Hb) as (vch & v & Hv & Hrun_c).
    apply after_bind. eapply after_run_eq; [apply Hrun_c|]. cbv beta iota.
    eapply (after_declares (λ n, n ≠ "coef_media")).
    { declares_walk; try done.
      eapply (transform_functions_declare K); [exact Hin|other_name]. }
    intros r w' new Htrace Hnew.
    exists v. split; [|done].
    unfold sites_named. rewrite Htrace.
    rewrite filter_app, (sites_named_none new) by done.
    named_sites.
  - intros Hrest.
    split; [by eapply coef_media_national_plate|].
    intros bs Hc Hpriors Hbs Hb.
    destruct (model_prior_resolved _ _ _INTERCEPT Hpriors (or_introl eq_refl))
      as (di & bsi & Hri & Hbsi & Hbi).
    destruct (model_prior_resolved _ _ _SIGMA Hpriors (or_intror eq_refl))
      as (ds & bss & Hrs & Hbss & Hbs').
    match goal with
    | |- ∃ v, sites_named _ (?m ?e ?w).2 = _ ∧ _ =>
        change (after m e w
                  (λ _ w', ∃ v,
                     sites_named "coef_media" w'
                     = [sampled_site
                          (inside draw [channel_media_plate c false])
                          "coef_media" (Normal media_prior media_sigma)
                          None v]
                     ∧ shape v = [c]))
    end.
    assert ((ndim media_data =? 3)%nat = false) as Hrank.
    { unfold ndim. rewrite Hs. simpl. by destruct rest as [|? [|? ?]]. }
    assert (media_shape media_data = Ok (t, c, [], 1)) as Hshape.
    { unfold media_shape. rewrite Hrank. unfold tuple_getitem.
      by rewrite Hs. }
    unfold media_mix_model. rewrite Hrank.
    apply after_bind, after_lift. rewrite Hshape.
    destruct (sample_resolved_run custom_priors _get_default_priors
                _INTERCEPT 1 draw di bsi ltac:(lia) Hri Hbsi Hbi)
      as (vi & _ & Hrun_i).
    apply after_bind. eapply after_run_eq; [apply Hrun_i|]. cbv beta iota.
    destruct (sample_resolved_run custom_priors _get_default_priors
                _SIGMA 1 draw ds bss ltac:(lia) Hrs Hbss Hbs')
      as (vs & _ & Hrun_s).
    apply after_bind. eapply after_run_eq; [apply Hrun_s|]. cbv beta iota.
    destruct (coef_media_national_run media_prior media_sigma draw c bs
                Hc Hbs Hb) as (v & Hv & Hrun_c).
    apply after_bind. eapply after_run_eq; [apply Hrun_c|]. cbv beta iota.
    eapply (after_declares (λ n, n ≠ "coef_media")).
    { declares_walk; try done.
      eapply (transform_functions_declare K); [exact Hin|other_name]. }
    intros r w' new Htrace Hnew.
    exists v. split; [|done].
    unfold sites_named. rewrite Htrace.
    rewrite filter_app, (sites_named_none new) by done.
    named_sites.
Qed.

End coefficient_axes.

(** ** Runs that differ in one draw *)

Section one_draw.
Context {R : Type} `{Scalar R} `{Kernels R}.


















End one_draw.



Section transforms_one_draw.
Context {R : Type} `{Scalar R} (K : Kernels R).


End transforms_one_draw.

Section model_one_draw.
Context {R : Type} `{Scalar R} (K : Kernels R).



Lemma sites_named_but name other (w : run_record R) :
  name ≠ other →
  sites_named name w = filter (λ s, site_name s = name) (sites_but other w).
Proof.
  intros Hne. unfold sites_named, sites_but. rewrite list_filter_filter.
  apply list_filter_iff. intros s. split; [|tauto].
  intros ->. by split.
Qed.

End model_one_draw.

(** ** The two coefficient sites of the geo model *)

Section two_coefficient_sites.
Context {R : Type} `{Scalar R} (K : Kernels R).




End two_coefficient_sites.

(** ** The model on geo data *)

(** C1, at a rank-3 input.  The run of the model on geo media data (2 time
    steps, 4 channels, 3 geos) raises at the contraction: the sites up to
    [media_transformed] are declared, the coefficient has the shape
    [(4, 3)], and no site [mu] is declared. *)
Theorem geo_model_raises_at_contraction :
  ndim geo_media = 3
  ∧ (geo_model_run counting_draw).1 = Err ValueError
  ∧ (λ s, (site_name s, shape (site_value s)))
    <$> trace (geo_model_run counting_draw).2
    = [("intercept", [3]); ("sigma", [3]); ("channel_coef_media", [4; 1]);
       ("coef_media", [4; 3]); ("lag_weight", [4]); ("exponent", [4]);
       ("media_transformed", [2; 4; 3])]
  ∧ sites_named "mu" (geo_model_run counting_draw).2 = [].
Proof. repeat split; vm_compute; reflexivity. Qed.

(** ** Instances of the statements *)

Lemma elem_of_transforms_adstock :
  ("adstock", adstock_checked)
  ∈ @transforms Z _ (checking_kernels Z) true 13.
Proof. apply list_elem_of_further, list_elem_of_here. Defined.

Lemma elem_of_transforms_carryover :
  ("carryover", carryover_checked)
  ∈ @transforms Z _ (checking_kernels Z) true 13.
Proof. apply list_elem_of_here. Defined.

Lemma elem_of_transform_functions_adstock :
  ("adstock", adstock_function)
  ∈ @transform_functions Z _ (checking_kernels Z).
Proof. apply list_elem_of_further, list_elem_of_here. Defined.

(** The adstock transform keeps the shape of the national media data. *)
Lemma transforms_preserve_shape_witness :
  ∃ out w',
    adstock_checked national_media ∅ (top_level counting_draw) empty_record
    = (Ok out, w')
    ∧ shape out = shape national_media.
Proof.
  apply (transforms_preserve_shape (checking_kernels Z) true 13 "adstock"
           adstock_checked national_media counting_draw empty_record).
  - exact elem_of_transforms_adstock.
  - left. reflexivity.
  - intros c Hc. vm_compute in Hc. injection Hc as <-. lia.
Defined.

(** The parameters the carryover transform hands to its kernels on the
    small geo media data. *)
Lemma transform_parameters_on_geo_data_witness :
  ∃ calls,
    calls_since empty_record
      (carryover_checked small_geo_media ∅ (top_level counting_draw)
         empty_record).2 calls
    ∧ ∀ call k p,
        call ∈ calls → (k, p) ∈ call_params call →
        shape p
        = geo_parameter_shape
            {[ _AD_EFFECT_RETENTION_RATE :=
                 prior_distribution (Beta (float 1) (float 1));
               _PEAK_EFFECT_DELAY :=
                 prior_distribution (HalfNormal (float 2));
               _EXPONENT := prior_distribution (Beta (float 9) (float 1)) ]}
            2 (callee call) k.
Proof.
  apply (transform_parameters_on_geo_data (checking_kernels Z) true 13
           "carryover" carryover_checked _ small_geo_media 1 2 1
           counting_draw empty_record).
  - exact elem_of_transforms_carryover.
  - reflexivity.
  - reflexivity.
  - lia.
Defined.

(** On the national media data the three static variants return what the
    sampled variant returns under point masses at 1. *)
Lemma static_variants_pin_to_one_witness :
  (∃ out,
     (@transform_exponential_adstock_static_dim_decay Z _
        (checking_kernels Z) national_media ∅ false
        (top_level counting_draw) empty_record).1 = Ok out
     ∧ (@transform_exponential_adstock Z _ (checking_kernels Z)
          national_media
          {[ _LAG_WEIGHT := point_mass_one; _SLOPE := point_mass_one ]}
          false (top_level counting_draw) empty_record).1 = Ok out)
  ∧ (∃ out,
       (@transform_exponential_adstock_static_dim Z _
          (checking_kernels Z) national_media ∅ false
          (top_level counting_draw) empty_record).1 = Ok out
       ∧ (@transform_exponential_adstock Z _ (checking_kernels Z)
            national_media {[ _SLOPE := point_mass_one ]}
            false (top_level counting_draw) empty_record).1 = Ok out)
  ∧ (∃ out,
       (@transform_exponential_adstock_static_decay Z _
          (checking_kernels Z) national_media ∅ false
          (top_level counting_draw) empty_record).1 = Ok out
       ∧ (@transform_exponential_adstock Z _ (checking_kernels Z)
            national_media {[ _LAG_WEIGHT := point_mass_one ]}
            false (top_level counting_draw) empty_record).1 = Ok out).
Proof.
  apply (static_variants_pin_to_one (checking_kernels Z) national_media false
           counting_draw empty_record empty_record).
  - left. reflexivity.
  - intros c Hc. vm_compute in Hc. injection Hc as <-. lia.
Defined.

(** An unknown name stops the declaration before anything is declared. *)
Lemma unknown_transform_name_witness :
  @media_mix_model_by_name Z _ (checking_kernels Z) geo_media geo_target
    (scalar 0%Z) (scalar 1%Z) "log_adstock" ∅ None None
    (top_level counting_draw) empty_record
  = (Err UnknownTransformName, empty_record)
  ∧ getitem (_get_transform_default_priors (R:=Z)) "log_adstock"
    = Err KeyError.
Proof.
  apply (unknown_transform_name_fails_first (H0:=checking_kernels Z)
           "log_adstock").
  intros [names Hnames]%elem_of_dom. vm_compute in Hnames. discriminate.
Defined.

Lemma no_custom_model_priors n :
  model_priors_per_geo (R:=Z) n ∅.
Proof. intros name p _ Hp. rewrite lookup_empty in Hp. discriminate. Defined.

(** Media data with 4 channels and 3 geos: [coef_media] is declared in
    the two plates, and with scalar priors it has the shape [(4, 3)]. *)
Lemma coef_media_channel_and_geo_axes_witness :
  (sites_named "coef_media" (geo_model_run counting_draw).2 = []
   ∨ ∃ v,
       sites_named "coef_media" (geo_model_run counting_draw).2
       = [sampled_site
            (inside counting_draw
               [geo_media_plate 3; channel_media_plate 4 true])
            "coef_media" (Normal (scalar 0%Z) (scalar 1%Z)) None v])
  ∧ ∃ v,
      sites_named "coef_media" (geo_model_run counting_draw).2
      = [sampled_site
           (inside counting_draw
              [geo_media_plate 3; channel_media_plate 4 true])
           "coef_media" (Normal (scalar 0%Z) (scalar 1%Z)) None v]
      ∧ shape v = [4; 3].
Proof.
  destruct (proj1 (coef_media_channel_and_geo_axes (checking_kernels Z)
                     geo_media geo_target (scalar 0%Z) (scalar 1%Z)
                     "adstock" adstock_function ∅ None None counting_draw
                     2 4 [3] eq_refl elem_of_transform_functions_adstock)
              3 eq_refl) as [Hplates Hshape].
  split; [exact Hplates|].
  apply (Hshape [] ltac:(lia) ltac:(lia) (no_custom_model_priors _) eq_refl
           (broadcast_shapes_nil_l [4; 3])).
Defined.

(** With a prior location per channel, of shape [(4,)]: on 4 channels
    and 1 geo the value of [coef_media] has the shape [(4, 4)], not
    [(4, 1)]; on 4 channels and 3 geos the run raises at the plate over
    the geos, the value of [channel_coef_media] has the shape [(4, 4)] and
    the site [coef_media] is not declared. *)
Lemma per_channel_prior_misses_the_geo_axis :
  (λ s, shape (site_value s))
  <$> sites_named "coef_media"
        (per_channel_prior_run one_geo_media one_geo_target).2
  = [[4; 4]]
  ∧ (per_channel_prior_run geo_media geo_target).1 = Err ValueError
  ∧ (λ s, (site_name s, shape (site_value s)))
    <$> trace (per_channel_prior_run geo_media geo_target).2
    = [("intercept", [3]); ("sigma", [3]); ("channel_coef_media", [4; 4])]
  ∧ sites_named "coef_media" (per_channel_prior_run geo_media geo_target).2
    = [].
Proof. repeat split; vm_compute; reflexivity. Qed.

(** The geo media data has the same values in every geo, and so has the
    result of the adstock transform on it. *)
Lemma transforms_keep_geo_invariance_witness :
  geo_invariant geo_media
  ∧ geo_invariant
      match (adstock_checked geo_media ∅ (top_level counting_draw)
               empty_record).1 with
      | Ok out => out
      | Err _ => scalar 0%Z
      end.
Proof.
  assert (geo_invariant geo_media) as Hmedia.
  { intros g Hg i j Hi Hj. vm_compute in Hg. injection Hg as <-.
    destruct i as [|[|[|i]]]; [| | |lia];
      destruct j as [|[|[|j]]]; try lia; reflexivity. }
  split; [exact Hmedia|].
  apply (transforms_keep_geo_invariance (checking_kernels Z) true 13
           "adstock" adstock_checked geo_media 2 4 3 ∅ counting_draw
           empty_record
           (adstock_checked geo_media ∅ (top_level counting_draw)
              empty_record).2).
  - exact elem_of_transforms_adstock.
  - reflexivity.
  - apply map_Forall_empty.
  - exact Hmedia.
  - vm_compute. reflexivity.
Defined.




(** ** The national prediction *)

Section national_contraction.
Context {R : Type} `{Scalar R}.

Lemma nth_map_seq (f : nat → R) n i d :
  i < n → nth i (map f (seq 0 n)) d = f i.
Proof.
  intros Hi. rewrite (nth_indep _ d (f 0)) by (rewrite length_map, length_seq; lia).
  rewrite (map_nth f (seq 0 n) 0 i), seq_nth by done. done.
Qed.

(** The contraction [tc, c -> t] on a matrix and a vector. *)
Lemma einsum_national (a b : ndarray R) t c :
  shape a = [t; c] → shape b = [c] →
  einsum "tc, c -> t" a b
  = Ok (mk_ndarray [t]
          (map (λ i, ssum (map (λ j, smul (item a [i; j]) (item b [j]))
                             (seq 0 c)))
               (seq 0 t))).
Proof.
  intros Ha Hb. unfold einsum.
  change (parse_subscripts "tc, c -> t")
    with (Some ([["t"; "c"]; ["c"]]%char, ["t"]%char)).
  cbv beta iota. rewrite Ha, Hb.
  change (bind_labels ["t"; "c"]%char [t; c] [])
    with (Some [("t"%char, t); ("c"%char, c)]).
  cbv beta iota.
  assert (bind_labels ["c"]%char [c] [("t"%char, t); ("c"%char, c)]
          = Some [("t"%char, t); ("c"%char, c)]) as ->.
  { cbn. by rewrite Nat.eqb_refl. }
  cbn [forallb]. 
  change (bool_decide (is_Some (env_lookup "t" [("t"%char, t); ("c"%char, c)])))
    with true.
  cbn [andb]. f_equal. unfold contract.
  change (filter (λ l, l ∉ ["t"%char]) (map fst [("t"%char, t); ("c"%char, c)]))
    with ["c"%char].
  change (subscript [("t"%char, t); ("c"%char, c)] ["t"%char]) with [t].
  change (subscript [("t"%char, t); ("c"%char, c)] ["c"%char]) with [c].
  f_equal. rewrite !indices_singleton.
  rewrite <- !list_fmap_compose. apply list_fmap_ext. intros _ i _.
  unfold compose. f_equal.
  change (@map (list nat) R) with (@fmap list _ (list nat) R).
  rewrite <- list_fmap_compose. done.
Qed.

(** Adding an intercept of one value to a vector. *)
Lemma add_intercept (intercept v : ndarray R) t (f : nat → R) :
  shape intercept = [1] → v = mk_ndarray [t] (map f (seq 0 t)) →
  add intercept v
  = Ok (mk_ndarray [t]
          (map (λ i, sadd (item intercept [0]) (f i)) (seq 0 t))).
Proof.
  intros Hi ->. unfold add, broadcast_binop. rewrite Hi. cbn [shape].
  assert (broadcast_shapes [1] [t] = Some [t]) as ->.
  { apply (proj2 (broadcasts_to_singleton [1] t)). auto. }
  do 2 f_equal. rewrite indices_singleton.
  change (@map (list nat) R) with (@fmap list _ (list nat) R).
  change (@map nat R) with (@fmap list _ nat R).
  rewrite <- list_fmap_compose. apply list_fmap_ext.
  intros k i Hk. apply lookup_seq in Hk as [-> Hk]. unfold compose.
  cbn [Nat.add] in *. f_equal.
  - unfold bitem, align. by rewrite Hi.
  - unfold bitem, item, align. cbn -[Nat.eqb seq].
    destruct (t =? 1)%nat eqn:E.
    + apply Nat.eqb_eq in E as ->. assert (k = 0) as -> by lia. done.
    + rewrite Nat.mul_1_r, Nat.add_0_r. by apply nth_map_seq.
Qed.

End national_contraction.

Section national_prediction.
Context {R : Type} `{Scalar R} (K : Kernels R).

(** X1.  The national prediction.  On media data of rank 2 with [t] time steps
    and [c > 0] channels, without extra features, the run declares one
    site [intercept] of one value and one site [coef_media] of a value
    per channel; and once the transform has returned an array of the
    shape of the media data, the value of the deterministic site [mu] is,
    at each time step, the intercept plus the sum over the channels of the
    transformed media times the coefficient of the channel. *)
Theorem national_prediction_is_intercept_plus_contraction
    (media_data target_data media_prior media_sigma : ndarray R)
    (name : string) (transform_function : TransformFunction)
    (custom_priors : gmap string (Prior R))
    (transform_kwargs : option (gmap string kwarg))
    (draw : string → nat → R) (t c : nat) (bs : list nat) :
  shape media_data = [t; c] → 0 < c →
  (name, transform_function) ∈ transform_functions →
  model_priors_per_geo 1 custom_priors →
  batch_shape (Normal media_prior media_sigma) = Some bs →
  broadcasts_to bs [c] →
  ∃ intercept coef_media,
    shape intercept = [1] ∧ shape coef_media = [c]
    ∧ ∀ final,
        final = (media_mix_model media_data target_data media_prior
                   media_sigma transform_function custom_priors
                   transform_kwargs None (top_level draw) empty_record).2 →
        site_value <$> sites_named "intercept" final = [intercept]
        ∧ site_value <$> sites_named "coef_media" final = [coef_media]
        ∧ ∀ media_transformed,
            site_value <$> sites_named "media_transformed" final
            = [media_transformed] →
            shape media_transformed = [t; c] →
            site_value <$> sites_named "mu" final
            = [mk_ndarray [t]
                 (map (λ i,
                    sadd (item intercept [0])
                      (ssum (map (λ j, smul (item media_transformed [i; j])
                                            (item coef_media [j]))
                               (seq 0 c))))
                    (seq 0 t))].
Proof.
  intros Hs Hc Hin Hpriors Hbs Hb.
  destruct (model_prior_resolved _ _ _INTERCEPT Hpriors (or_introl eq_refl))
    as (di & bsi & Hri & Hbsi & Hbi).
  destruct (model_prior_resolved _ _ _SIGMA Hpriors (or_intror eq_refl))
    as (ds & bss & Hrs & Hbss & Hbs').
  destruct (sample_resolved_run custom_priors _get_default_priors
              _INTERCEPT 1 draw di bsi ltac:(lia) Hri Hbsi Hbi)
    as (vi & Hvi & Hrun_i).
  destruct (sample_resolved_run custom_priors _get_default_priors
              _SIGMA 1 draw ds bss ltac:(lia) Hrs Hbss Hbs')
    as (vs & _ & Hrun_s).
  destruct (coef_media_national_run media_prior media_sigma draw c bs
              Hc Hbs Hb) as (v & Hv & Hrun_c).
  apply draw_value_shape in Hvi.
  exists vi, v. split; [done|]. split; [done|]. intros final ->.
  match goal with
  | |- context [(?m ?e ?w).2] =>
      match type of m with
      | M _ _ =>
          change (after m e w
            (λ _ final,
               site_value <$> sites_named "intercept" final = [vi]
               ∧ site_value <$> sites_named "coef_media" final = [v]
               ∧ ∀ media_transformed,
                   site_value <$> sites_named "media_transformed" final
                   = [media_transformed] →
                   shape media_transformed = [t; c] →
                   site_value <$> sites_named "mu" final
                   = [mk_ndarray [t]
                        (map (λ i,
                           sadd (item vi [0])
                             (ssum (map (λ j,
                                      smul (item media_transformed [i; j])
                                           (item v [j]))
                                      (seq 0 c))))
                           (seq 0 t))]))
      end
  end.
  assert ((ndim media_data =? 3)%nat = false) as Hrank.
  { unfold ndim. by rewrite Hs. }
  unfold media_mix_model. rewrite Hrank.
  apply after_bind, after_lift. rewrite (media_shape_national _ _ _ Hs).
  apply after_bind. eapply after_run_eq; [apply Hrun_i|]. cbv beta iota.
  apply after_bind. eapply after_run_eq; [apply Hrun_s|]. cbv beta iota.
  apply after_bind. eapply after_run_eq; [apply Hrun_c|]. cbv beta iota.
  apply after_bind, after_bind.
  eapply (after_declares
            (λ n, n ≠ "intercept" ∧ n ≠ "coef_media"
                  ∧ n ≠ "media_transformed" ∧ n ≠ "mu")).
  { eapply (transform_functions_declare K); [exact Hin|].
    intros n; rewrite !elem_of_union, !elem_of_singleton; intros Hn;
      repeat (destruct Hn as [Hn | Hn]); by subst. }
  intros r w' new Htrace Hnew.
  assert (∀ n, n ∈ ["intercept"; "coef_media"; "media_transformed"; "mu"] →
               filter (λ s, site_name s = n) new = []) as Hnone.
  { intros n Hn. apply sites_named_none.
    eapply Forall_impl; [exact Hnew|]. intros s (? & ? & ? & ?).
    repeat (apply elem_of_cons in Hn as [-> | Hn]); try done.
    by apply elem_of_nil in Hn. }
  unfold with_site in Htrace. cbn [trace empty_record] in Htrace.
  destruct r as [a|x].
  2:{ unfold sites_named. rewrite Htrace.
      rewrite !filter_app, !Hnone by (repeat constructor).
      split; [named_sites|]. split; [named_sites|].
      intros mt Hmt. revert Hmt. named_sites. }
  apply after_deterministic.
  destruct (decide (shape a = [t; c])) as [Ha|Ha].
  - apply after_bind, after_bind, after_lift.
    rewrite (einsum_national a v t c Ha Hv).
    apply after_lift. erewrite add_intercept; [|exact Hvi|reflexivity].
    apply after_bind, after_ret, after_bind, after_deterministic.
    apply after_bind, after_sample.
    + intros _. unfold sites_named, with_site. cbn [trace]. rewrite Htrace.
      rewrite !filter_app, !Hnone by (repeat constructor).
      split; [named_sites|]. split; [named_sites|].
      intros mt Hmt _. revert Hmt. named_sites. by intros [= <-].
    + intros bs1 s1 v1 _ _ _. apply after_ret.
      unfold sites_named, with_site. cbn [trace]. rewrite Htrace.
      rewrite !filter_app, !Hnone by (repeat constructor).
      split; [named_sites|]. split; [named_sites|].
      intros mt Hmt _. revert Hmt. named_sites. by intros [= <-].
  - eapply (after_declares
              (λ n, n ≠ "intercept" ∧ n ≠ "coef_media"
                    ∧ n ≠ "media_transformed")).
    { declares_walk; done. }
    intros r2 w2 new2 Htrace2 Hnew2.
    assert (∀ n, n ∈ ["intercept"; "coef_media"; "media_transformed"] →
                 filter (λ s, site_name s = n) new2 = []) as Hnone2.
    { intros n Hn. apply sites_named_none.
      eapply Forall_impl; [exact Hnew2|]. intros s (? & ? & ?).
      repeat (apply elem_of_cons in Hn as [-> | Hn]); try done.
      by apply elem_of_nil in Hn. }
    unfold sites_named. rewrite Htrace2. unfold with_site. cbn [trace].
    rewrite Htrace.
    rewrite !filter_app, !Hnone, !Hnone2 by (repeat constructor).
    split; [named_sites|]. split; [named_sites|].
    intros mt Hmt Hshape. revert Hmt. named_sites. intros [= <-]. done.
Qed.

End national_prediction.

(** The national media data with the adstock transform: the prediction
    is the intercept plus the contraction over the 2 channels. *)
Lemma national_prediction_witness :
  ∃ intercept coef_media,
    shape intercept = [1] ∧ shape coef_media = [2]
    ∧ ∀ final,
        final = (national_model_run counting_draw).2 →
        site_value <$> sites_named "intercept" final = [intercept]
        ∧ site_value <$> sites_named "coef_media" final = [coef_media]
        ∧ ∀ media_transformed,
            site_value <$> sites_named "media_transformed" final
            = [media_transformed] →
            shape media_transformed = [3; 2] →
            site_value <$> sites_named "mu" final
            = [mk_ndarray [3]
                 (map (λ i,
                    sadd (item intercept [0])
                      (ssum (map (λ j, smul (item media_transformed [i; j])
                                            (item coef_media [j]))
                               (seq 0 2))))
                    (seq 0 3))].
Proof.
  apply (national_prediction_is_intercept_plus_contraction
           (checking_kernels Z) national_media national_target (scalar 0%Z)
           (scalar 1%Z) "adstock" adstock_function ∅ None counting_draw 3 2
           [] eq_refl ltac:(lia) elem_of_transform_functions_adstock
           (no_custom_model_priors 1) eq_refl (broadcast_shapes_nil_l [2])).
Defined.

(** The same run, evaluated: the transform returns the media data, the
    intercept is 1, the coefficients are 1 and 2, and the prediction is
    [1 + 1*1 + 2*2], [1 + 3*1 + 4*2], [1 + 5*1 + 6*2]. *)
Example national_prediction_evaluated :
  (national_model_run counting_draw).1 = Ok tt
  ∧ site_value <$> sites_named "media_transformed"
                     (national_model_run counting_draw).2
    = [national_media]
  ∧ site_value <$> sites_named "mu" (national_model_run counting_draw).2
    = [mk_ndarray [3] [6; 12; 18]%Z].
Proof. vm_compute. auto. Qed.

(** The model on the geo media data raises. *)
Lemma media_mix_model_raises_on_geo_data_witness :
  ∃ x, (geo_model_run counting_draw).1 = Err x.
Proof.
  apply (media_mix_model_raises_on_geo_data
           geo_media geo_target (scalar 0%Z) (scalar 1%Z) adstock_function
           ∅ None None counting_draw empty_record eq_refl).
Defined.
(** ** The sites of a run, in order *)

Section declared_in_order.
Context {R : Type} `{Scalar R}.

Lemma declares_in_order_eq {A} names names' (m : M R A) :
  declares_in_order names m → names = names' → declares_in_order names' m.
Proof. by intros Hm <-. Qed.

Lemma declares_in_order_ret {A} (a : A) : declares_in_order (R:=R) [] (ret a).
Proof.
  intros e w. exists []. simpl. rewrite app_nil_r.
  split; [done|]. split; [apply prefix_nil|done].
Qed.

Lemma declares_in_order_lift {A} (r : result A) :
  declares_in_order (R:=R) [] (lift r).
Proof.
  intros e w. exists []. simpl. rewrite app_nil_r.
  split; [done|]. split; [apply prefix_nil|done].
Qed.

Lemma declares_in_order_record_call (c : kernel_call R) :
  declares_in_order [] (record_call c).
Proof.
  intros e w. exists []. simpl. rewrite app_nil_r.
  split; [done|]. split; [apply prefix_nil|done].
Qed.

Lemma declares_in_order_bind {A B} names1 names2 (m : M R A) (k : A → M R B) :
  declares_in_order names1 m →
  (∀ a, declares_in_order names2 (k a)) →
  declares_in_order (names1 ++ names2) (bind m k).
Proof.
  intros Hm Hk e w. destruct (Hm e w) as (new1 & Ht1 & Hp1 & Hok1).
  unfold bind. destruct (m e w) as [[a|x] w1]; simpl in *.
  - destruct (Hk a e w1) as (new2 & Ht2 & Hp2 & Hok2).
    exists (new1 ++ new2). rewrite Ht2, Ht1, app_assoc. split; [done|].
    rewrite fmap_app, (Hok1 a eq_refl). split.
    + by apply prefix_app.
    + intros b Hb. by rewrite (Hok2 b Hb).
  - exists new1. split; [done|]. split; [|done].
    by apply prefix_app_r.
Qed.

Lemma declares_in_order_plate {A} names name size dim (body : M R A) :
  declares_in_order names body →
  declares_in_order names (plate name size dim body).
Proof.
  intros Hbody e w.
  assert (∃ new : list (Site R),
            trace w = trace w ++ new
            ∧ site_name <$> new `prefix_of` names) as Hstop.
  { exists []. rewrite app_nil_r. split; [done|apply prefix_nil]. }
  unfold plate. destruct (size =? 0)%nat.
  { destruct Hstop as (new & ? & ?). by exists new. }
  destruct dim as [d|]; [|apply Hbody].
  destruct (0 <=? d)%Z.
  { destruct Hstop as (new & ? & ?). by exists new. }
  case_bool_decide; [|apply Hbody].
  destruct Hstop as (new & ? & ?). by exists new.
Qed.

Lemma declares_in_order_plate_stack_from {A} names prefix i sizes
    (body : M R A) :
  declares_in_order names body →
  declares_in_order names (plate_stack_from prefix i sizes body).
Proof.
  intros Hbody. revert i.
  induction sizes as [|size sizes IH]; intros i; [done|].
  apply declares_in_order_plate, IH.
Qed.

Lemma declares_in_order_plate_stack {A} names prefix sizes (body : M R A) :
  declares_in_order names body →
  declares_in_order names (plate_stack prefix sizes body).
Proof. apply declares_in_order_plate_stack_from. Qed.

Lemma declares_in_order_sample name (fn : Distribution R) obs :
  declares_in_order [name] (sample name fn obs).
Proof.
  intros e w.
  assert (∀ x : error, ∃ new : list (Site R),
            trace w = trace w ++ new
            ∧ site_name <$> new `prefix_of` [name]
            ∧ ∀ a : ndarray R, Err x = Ok a → site_name <$> new = [name])
    as Hstop.
  { intros x. exists []. rewrite app_nil_r.
    split; [done|]. split; [apply prefix_nil|done]. }
  unfold sample. destruct (batch_shape fn) as [bs|]; [|apply Hstop].
  destruct (plates_expand [] (open_plates e) bs) as [s|]; [|apply Hstop].
  destruct obs as [o|]; simpl.
  - eexists [_]. simpl. split; [done|]. split; [done|]. done.
  - unfold bind, lift.
    destruct (draw_value (draws e name) fn s) as [v|x]; simpl;
      [|apply Hstop].
    eexists [_]. simpl. split; [done|]. split; [done|]. done.
Qed.

Lemma declares_in_order_deterministic name (v : ndarray R) :
  declares_in_order [name] (deterministic name v).
Proof. intros e w. eexists [_]. simpl. split; [done|]. split; done. Qed.

Lemma declares_in_order_sample_prior name (p : Prior R) :
  declares_in_order [name] (sample_prior name p).
Proof.
  destruct p as [d|v]; [apply declares_in_order_sample|].
  intros e w. exists []. simpl. rewrite app_nil_r.
  split; [done|]. split; [apply prefix_nil|done].
Qed.

Lemma declares_in_order_sample_per_channel (media_data : ndarray R)
    (custom_priors default_priors : gmap string (Prior R)) name :
  declares_in_order [name]
    (sample_per_channel media_data custom_priors default_priors name).
Proof.
  unfold sample_per_channel.
  apply (declares_in_order_bind [] [name]); [apply declares_in_order_lift|].
  intros size. apply declares_in_order_plate.
  apply (declares_in_order_bind [] [name]); [apply declares_in_order_lift|].
  intros fn. apply declares_in_order_sample_prior.
Qed.

End declared_in_order.

(** Walking through a computation to list the sites it declares. *)
Ltac in_order_walk :=
  repeat first
    [ apply declares_in_order_ret
    | apply declares_in_order_lift
    | apply declares_in_order_record_call
    | apply declares_in_order_sample_per_channel
    | apply declares_in_order_sample_prior
    | apply declares_in_order_sample
    | apply declares_in_order_deterministic
    | apply declares_in_order_plate_stack
    | apply declares_in_order_plate
    | eapply declares_in_order_bind; [|intros ?] ].

Section model_sites_in_order.
Context {R : Type} `{Scalar R} (K : Kernels R).

(** Each transform declares the sites of its sampled parameters, in the
    order of its statements. *)
Lemma transform_functions_in_order name tf sites (media_data : ndarray R)
    (custom_priors : gmap string (Prior R)) (kwargs : gmap string kwarg) :
  (name, tf) ∈ transform_functions → (name, sites) ∈ sampled_sites →
  declares_in_order sites (tf media_data custom_priors kwargs).
Proof.
  intros Hin Hsites. unfold transform_functions in Hin.
  repeat (apply elem_of_cons in Hin as [[= -> ->] | Hin]);
    [..|by apply elem_of_nil in Hin];
    unfold sampled_sites in Hsites;
    repeat (apply elem_of_cons in Hsites as [[= ->] | Hsites]);
    try (by apply elem_of_nil in Hsites);
    unfold def_normalise, def_number_lags, transform_carryover,
      transform_adstock, transform_hill_adstock,
      transform_exponential_adstock,
      transform_exponential_adstock_static_dim,
      transform_exponential_adstock_static_decay,
      transform_exponential_adstock_static_dim_decay,
      media_transforms.adstock, media_transforms.carryover,
      media_transforms.hill, media_transforms.exponential,
      media_transforms.apply_exponent_safe;
    (eapply declares_in_order_eq; [in_order_walk|reflexivity]).
Qed.

Lemma model_sites_NoDup name sites geo extra :
  (name, sites) ∈ sampled_sites → NoDup (model_sites geo sites extra).
Proof.
  intros Hsites. unfold sampled_sites in Hsites.
  repeat (apply elem_of_cons in Hsites as [[= -> ->] | Hsites]);
    [..|by apply elem_of_nil in Hsites];
    destruct geo, extra;
    apply (bool_decide_unpack _); vm_compute; done.
Qed.

(** X3.  The sites of a run of the model, whatever its arguments and
    wherever it stops: their names are, in order, the first names of the
    list [intercept], [sigma], ([channel_coef_media] on rank-3 media
    data,) [coef_media], the sampled parameters of the transform,
    [media_transformed], ([coef_extra_features] with extra features,)
    [mu], [target]; a run that returns has declared them all.  No name
    comes twice. *)
Theorem model_declares_its_sites_in_order
    (media_data target_data media_prior media_sigma : ndarray R)
    (name : string) (transform_function : TransformFunction)
    (sites : list string) (custom_priors : gmap string (Prior R))
    (transform_kwargs : option (gmap string kwarg))
    (extra_features : option (ndarray R)) :
  (name, transform_function) ∈ transform_functions →
  (name, sites) ∈ sampled_sites →
  NoDup (model_sites (ndim media_data =? 3)%nat sites
           (bool_decide (is_Some extra_features)))
  ∧ declares_in_order
      (model_sites (ndim media_data =? 3)%nat sites
         (bool_decide (is_Some extra_features)))
      (media_mix_model media_data target_data media_prior media_sigma
         transform_function custom_priors transform_kwargs extra_features).
Proof.
  intros Hin Hsites. split; [by eapply model_sites_NoDup|].
  unfold media_mix_model.
  destruct (ndim media_data =? 3)%nat, extra_features as [extra_features|];
    (eapply declares_in_order_eq;
     [ eapply declares_in_order_bind; [apply declares_in_order_lift|];
       intros [[[data_size n_channels] geo_shape] n_geos];
       repeat first
         [ eapply (transform_functions_in_order name transform_function);
           [exact Hin|exact Hsites]
         | progress in_order_walk ]
     | unfold model_sites; simpl; by rewrite <- ?app_assoc ]).
Qed.

End model_sites_in_order.

(** ** The custom priors a run reads *)

Section custom_priors_read.
Context {R : Type} `{Scalar R} (K : Kernels R).

(** X4.  The model reads its custom priors under the names [intercept],
    [sigma] and [coef_extra_features] and under the names
    [TRANSFORM_PRIORS_NAMES] lists for its transform, and under no other
    name: two mappings that agree on these names give the same model.  An
    entry under [coef_trend], or under the parameter of another transform,
    changes nothing. *)
Theorem custom_priors_are_read_by_name
    (media_data target_data media_prior media_sigma : ndarray R)
    (name : string) (transform_function : TransformFunction)
    (names : gset string)
    (custom_priors custom_priors' : gmap string (Prior R))
    (transform_kwargs : option (gmap string kwarg))
    (extra_features : option (ndarray R)) :
  (name, transform_function) ∈ transform_functions →
  TRANSFORM_PRIORS_NAMES !! name = Some names →
  (∀ k, k ∈ ({[ _INTERCEPT; _SIGMA; _COEF_EXTRA_FEATURES ]} : gset string)
            ∪ names →
        custom_priors !! k = custom_priors' !! k) →
  media_mix_model media_data target_data media_prior media_sigma
    transform_function custom_priors transform_kwargs extra_features
  = media_mix_model media_data target_data media_prior media_sigma
      transform_function custom_priors' transform_kwargs extra_features.
Proof.
  intros Hin Hnames Hagree.
  assert (custom_priors !! _INTERCEPT = custom_priors' !! _INTERCEPT) as Hi
    by (apply Hagree; rewrite !elem_of_union, !elem_of_singleton; tauto).
  assert (custom_priors !! _SIGMA = custom_priors' !! _SIGMA) as Hs
    by (apply Hagree; rewrite !elem_of_union, !elem_of_singleton; tauto).
  assert (custom_priors !! _COEF_EXTRA_FEATURES
          = custom_priors' !! _COEF_EXTRA_FEATURES) as Hx
    by (apply Hagree; rewrite !elem_of_union, !elem_of_singleton; tauto).
  assert (∀ k, k ∈ names → custom_priors !! k = custom_priors' !! k) as Ht.
  { intros k Hk. apply Hagree. rewrite elem_of_union. by right. }
  clear Hagree.
  unfold media_mix_model, resolve_prior. rewrite Hi, Hs, Hx.
  assert (∀ kwargs,
            transform_function media_data custom_priors kwargs
            = transform_function media_data custom_priors' kwargs) as ->;
    [|done].
  intros kwargs. unfold transform_functions in Hin.
  repeat (apply elem_of_cons in Hin as [[= -> ->] | Hin]);
    [..|by apply elem_of_nil in Hin];
    unfold TRANSFORM_PRIORS_NAMES in Hnames; simplify_map_eq;
    unfold def_normalise, def_number_lags, transform_carryover,
      transform_adstock, transform_hill_adstock,
      transform_exponential_adstock,
      transform_exponential_adstock_static_dim,
      transform_exponential_adstock_static_decay,
      transform_exponential_adstock_static_dim_decay,
      sample_per_channel, resolve_prior;
    rewrite ?(Ht _AD_EFFECT_RETENTION_RATE), ?(Ht _PEAK_EFFECT_DELAY),
      ?(Ht _EXPONENT), ?(Ht _LAG_WEIGHT),
      ?(Ht _HALF_MAX_EFFECTIVE_CONCENTRATION), ?(Ht _SLOPE)
      by (rewrite !elem_of_union, !elem_of_singleton; tauto);
    reflexivity.
Qed.

End custom_priors_read.

(** ** Runs on national data that return *)

Section fitting.
Context {R : Type} `{Scalar R}.

Lemma fit_sampled sites names c (custom table : gmap string (Prior R)) k
    dflt :
  transform_priors_fit sites names c custom → k ∈ names → k ∈ sites →
  table !! k = Some dflt → broadcasting_distribution [c] dflt →
  ∃ d bs,
    resolve_prior custom table k = Ok (prior_distribution d)
    ∧ batch_shape d = Some bs ∧ broadcasts_to bs [c].
Proof.
  intros Hfit Hk Hs Ht Hd. rewrite (resolve_prior_valid _ _ _ dflt Ht).
  destruct (custom !! k) as [p|] eqn:Hp; simpl.
  - specialize (Hfit k p Hk Hp). rewrite decide_True in Hfit by done.
    destruct p as [d|v]; [|done]. destruct Hfit as (bs & ? & ?).
    by exists d, bs.
  - destruct dflt as [d|v]; [|done]. destruct Hd as (bs & ? & ?).
    by exists d, bs.
Qed.

Lemma fit_pinned sites names c (custom : gmap string (Prior R)) k :
  transform_priors_fit sites names c custom → k ∈ names → k ∉ sites →
  ∃ x, as_array (default (prior_value (float 1)) (custom !! k)) = Ok x
       ∧ broadcasts_to (shape x) [c].
Proof.
  intros Hfit Hk Hs.
  destruct (custom !! k) as [p|] eqn:Hp; simpl.
  - specialize (Hfit k p Hk Hp). rewrite decide_False in Hfit by done.
    destruct p as [d|v]; [done|]. by exists v.
  - eexists. split; [done|]. apply broadcast_shapes_nil_l.
Qed.

Lemma broadcasts_to_time s t c :
  broadcasts_to s [c] → broadcasts_to s [t; c].
Proof.
  intros [-> | [-> | ->]]%broadcasts_to_singleton; solve_broadcast.
Qed.

End fitting.

(** Membership in a set or a list that is written out. *)
Ltac written_out :=
  rewrite ?elem_of_union, ?elem_of_singleton, ?elem_of_cons, ?elem_of_nil;
  auto 10.

Ltac not_written_out :=
  rewrite ?elem_of_cons, ?elem_of_nil;
  let Hk := fresh "Hk" in
  intros Hk; repeat (destruct Hk as [Hk | Hk]); done.

(** One sampled parameter and one pinned parameter of a transform whose
    custom priors fit. *)
Ltac step_sample_fit Hfit c :=
  match goal with
  | |- after (numpyro.bind
                (sample_per_channel _ ?custom ?table ?k) _) _ _ _ =>
      let d := fresh "d" in
      let bs := fresh "bs" in
      let Hres := fresh "Hres" in
      let Hbs := fresh "Hbs" in
      let Hb := fresh "Hb" in
      destruct (fit_sampled _ _ c custom table k _ Hfit
                  ltac:(written_out) ltac:(written_out) eq_refl
                  ltac:(scalar_default))
        as (d & bs & Hres & Hbs & Hb);
      apply after_bind;
      eapply (after_sample_per_channel_ok _ _ _ _ _ _ _ c d bs);
      [ eassumption | assumption | reflexivity | exact Hres | exact Hbs
      | exact Hb | ];
      let v := fresh "v" in
      let Hshape := fresh "Hshape" in
      intros v Hshape _
  end.

Ltac step_pinned_fit Hfit c k :=
  let x := fresh "x" in
  let Hx := fresh "Hx" in
  let Hbx := fresh "Hbx" in
  destruct (fit_pinned _ _ c _ k Hfit ltac:(written_out)
              ltac:(not_written_out)) as (x & Hx & Hbx);
  apply after_bind, after_lift; rewrite Hx.

Section national_returns.
Context {R : Type} `{Scalar R} (K : Kernels R) `{!ShapePreserving K}.

(** On national data, with custom priors that fit and without keyword
    arguments, each transform returns an array of the shape of the data. *)
Lemma transform_functions_return_national name tf sites names
    (media_data : ndarray R) (custom_priors : gmap string (Prior R))
    draw w t c :
  (name, tf) ∈ transform_functions → (name, sites) ∈ sampled_sites →
  TRANSFORM_PRIORS_NAMES !! name = Some names →
  shape media_data = [t; c] → 0 < c →
  transform_priors_fit sites names c custom_priors →
  ∃ out w',
    tf media_data custom_priors ∅ (top_level draw) w = (Ok out, w')
    ∧ shape out = [t; c].
Proof.
  intros Hin Hsites Hnames Hs Hpos Hfit.
  assert (shape media_data !! 1 = Some c) as Hc by (by rewrite Hs).
  cut (after (tf media_data custom_priors ∅) (top_level draw) w
         (λ r _, ∃ out, r = Ok out ∧ shape out = shape media_data)).
  { unfold after.
    destruct (tf media_data custom_priors ∅ (top_level draw) w) as [r w'].
    simpl. intros (out & -> & Hout). exists out, w'. by rewrite <- Hs. }
  unfold transform_functions in Hin.
  repeat (apply elem_of_cons in Hin as [[= -> ->] | Hin]);
    [..|by apply elem_of_nil in Hin];
    unfold sampled_sites in Hsites;
    repeat (apply elem_of_cons in Hsites as [[= ->] | Hsites]);
    try (by apply elem_of_nil in Hsites);
    unfold TRANSFORM_PRIORS_NAMES in Hnames; simplify_map_eq;
    unfold def_normalise, def_number_lags;
    apply after_bind, after_lift; cbn [bind_kwargs];
    change (bind_kwargs _ _ ?dflt ∅) with (Ok dflt : result _).
  - (* carryover *)
    unfold transform_carryover. step_table.
    step_sample_fit Hfit c. step_sample_fit Hfit c. step_sample_fit Hfit c.
    apply after_bind, after_carryover.
    destruct (carryover_shape media_data v v0 13 c)
      as (a & -> & Ha); [done|solve_shapes..|].
    apply after_apply_exponent_safe. expand_geo Hs.
    destruct (apply_exponent_safe_shape a v1) as (out & -> & Hout);
      [rewrite Ha; solve_shapes|].
    exists out. split; [done|congruence].
  - (* adstock *)
    unfold transform_adstock. step_table.
    step_sample_fit Hfit c. step_sample_fit Hfit c. expand_geo Hs.
    apply after_bind, after_adstock.
    destruct (adstock_shape media_data v true) as (a & -> & Ha);
      [solve_shapes|].
    apply after_apply_exponent_safe.
    destruct (apply_exponent_safe_shape a v0) as (out & -> & Hout);
      [rewrite Ha; solve_shapes|].
    exists out. split; [done|congruence].
  - (* hill_adstock *)
    unfold transform_hill_adstock. step_table.
    step_sample_fit Hfit c. step_sample_fit Hfit c. step_sample_fit Hfit c.
    expand_geo Hs.
    apply after_bind, after_adstock.
    destruct (adstock_shape media_data v true) as (a & -> & Ha);
      [solve_shapes|].
    apply after_hill.
    destruct (hill_shape a v0 v1) as (out & -> & Hout);
      [rewrite Ha; solve_shapes..|].
    exists out. split; [done|congruence].
  - (* exponential_adstock *)
    unfold transform_exponential_adstock. step_table.
    step_sample_fit Hfit c. step_sample_fit Hfit c. expand_geo Hs.
    apply after_bind, after_adstock.
    destruct (adstock_shape media_data v false) as (a & -> & Ha);
      [solve_shapes|].
    apply after_exponential.
    destruct (exponential_shape a v0) as (out & -> & Hout);
      [rewrite Ha; solve_shapes|].
    exists out. split; [done|congruence].
  - (* exponential_adstock_static_dim *)
    unfold transform_exponential_adstock_static_dim. step_table.
    step_sample_fit Hfit c. step_pinned_fit Hfit c _SLOPE. expand_geo Hs.
    apply after_bind, after_adstock.
    destruct (adstock_shape media_data v false) as (a & -> & Ha);
      [solve_shapes|].
    apply after_exponential.
    destruct (exponential_shape a x) as (out & -> & Hout);
      [rewrite Ha, Hs; by apply broadcasts_to_time|].
    exists out. split; [done|congruence].
  - (* exponential_adstock_static_decay *)
    unfold transform_exponential_adstock_static_decay. step_table.
    step_sample_fit Hfit c. step_pinned_fit Hfit c _LAG_WEIGHT.
    expand_geo Hs.
    apply after_bind, after_adstock.
    destruct (adstock_shape media_data x false) as (a & -> & Ha);
      [by rewrite Hs|].
    apply after_exponential.
    destruct (exponential_shape a v) as (out & -> & Hout);
      [rewrite Ha; solve_shapes|].
    exists out. split; [done|congruence].
  - (* exponential_adstock_static_dim_decay *)
    unfold transform_exponential_adstock_static_dim_decay. step_table.
    step_pinned_fit Hfit c _LAG_WEIGHT. step_pinned_fit Hfit c _SLOPE.
    expand_geo Hs.
    apply after_bind, after_adstock.
    destruct (adstock_shape media_data x false) as (a & -> & Ha);
      [by rewrite Hs|].
    apply after_exponential.
    destruct (exponential_shape a x0) as (out & -> & Hout);
      [rewrite Ha, Hs; by apply broadcasts_to_time|].
    exists out. split; [done|congruence].
Qed.

End national_returns.

Section national_runs_return.
Context {R : Type} `{Scalar R} (K : Kernels R) `{!ShapePreserving K}.

Lemma sample_observed_run name (loc scale obs : ndarray R) draw w t :
  shape loc = [t] → shape scale = [1] →
  sample name (Normal loc scale) (Some obs) (top_level draw) w
  = (Ok obs,
     with_site w
       (sampled_site (top_level draw) name (Normal loc scale) (Some obs)
          obs)).
Proof.
  intros Hl Hs. unfold sample. cbn [batch_shape]. rewrite Hl, Hs.
  assert (broadcast_shapes [t] [1] = Some [t]) as ->.
  { rewrite broadcast_shapes_comm.
    apply (proj2 (broadcasts_to_singleton [1] t)). auto. }
  reflexivity.
Qed.

(** X5.  A run on national data returns.  On media data of rank 2 with
    at least one channel, with kernels that keep their shape contract, any
    of the seven transforms without keyword arguments, custom priors that
    fit the transform and the model, a coefficient prior that can be
    sampled per channel and no extra features, the run of the model
    returns; its last site is the observed site [target], whose value is
    the target data and whose distribution is the normal distribution
    with the value of the site [mu] as location and the value of the site
    [sigma] as scale. *)
Theorem national_model_returns
    (media_data target_data media_prior media_sigma : ndarray R)
    (name : string) (transform_function : TransformFunction)
    (sites : list string) (names : gset string)
    (custom_priors : gmap string (Prior R))
    (transform_kwargs : option (gmap string kwarg))
    (draw : string → nat → R) (t c : nat) (bs : list nat) :
  shape media_data = [t; c] → 0 < c →
  (name, transform_function) ∈ transform_functions →
  (name, sites) ∈ sampled_sites →
  TRANSFORM_PRIORS_NAMES !! name = Some names →
  transform_priors_fit sites names c custom_priors →
  model_priors_per_geo 1 custom_priors →
  batch_shape (Normal media_prior media_sigma) = Some bs →
  broadcasts_to bs [c] →
  default ∅ transform_kwargs = ∅ →
  ∃ final mu sigma,
    media_mix_model media_data target_data media_prior media_sigma
      transform_function custom_priors transform_kwargs None
      (top_level draw) empty_record
    = (Ok tt, final)
    ∧ site_value <$> sites_named "mu" final = [mu]
    ∧ site_value <$> sites_named "sigma" final = [sigma]
    ∧ last (trace final)
      = Some (sampled_site (top_level draw) "target" (Normal mu sigma)
                (Some target_data) target_data).
Proof.
  intros Hs Hc Hin Hsites Hnames Hfit Hpriors Hbs Hb Hkw.
  destruct (model_prior_resolved _ _ _INTERCEPT Hpriors (or_introl eq_refl))
    as (di & bsi & Hri & Hbsi & Hbi).
  destruct (model_prior_resolved _ _ _SIGMA Hpriors (or_intror eq_refl))
    as (ds & bss & Hrs & Hbss & Hbs').
  destruct (sample_resolved_run custom_priors _get_default_priors
              _INTERCEPT 1 draw di bsi ltac:(lia) Hri Hbsi Hbi)
    as (vi & Hvi & Hrun_i).
  destruct (sample_resolved_run custom_priors _get_default_priors
              _SIGMA 1 draw ds bss ltac:(lia) Hrs Hbss Hbs')
    as (vs & Hvs & Hrun_s).
  destruct (coef_media_national_run media_prior media_sigma draw c bs
              Hc Hbs Hb) as (v & Hv & Hrun_c).
  apply draw_value_shape in Hvi. apply draw_value_shape in Hvs.
  cut (after (media_mix_model media_data target_data media_prior
                media_sigma transform_function custom_priors
                transform_kwargs None) (top_level draw) empty_record
         (λ r final,
            r = Ok tt
            ∧ ∃ mu sigma,
                site_value <$> sites_named "mu" final = [mu]
                ∧ site_value <$> sites_named "sigma" final = [sigma]
                ∧ last (trace final)
                  = Some (sampled_site (top_level draw) "target"
                            (Normal mu sigma) (Some target_data)
                            target_data))).
  { unfold after.
    destruct (media_mix_model media_data target_data media_prior
                media_sigma transform_function custom_priors
                transform_kwargs None (top_level draw) empty_record)
      as [r final].
    simpl. intros (-> & mu & sigma & ? & ? & ?). by exists final, mu, sigma. }
  assert ((ndim media_data =? 3)%nat = false) as Hrank.
  { unfold ndim. by rewrite Hs. }
  unfold media_mix_model. rewrite Hrank, Hkw.
  apply after_bind, after_lift. rewrite (media_shape_national _ _ _ Hs).
  apply after_bind. eapply after_run_eq; [apply Hrun_i|]. cbv beta iota.
  apply after_bind. eapply after_run_eq; [apply Hrun_s|]. cbv beta iota.
  apply after_bind. eapply after_run_eq; [apply Hrun_c|]. cbv beta iota.
  match goal with
  | |- after _ _ ?w3 _ =>
      destruct (transform_functions_return_national K name
                  transform_function sites names media_data custom_priors
                  draw w3 t c Hin Hsites Hnames Hs Hc Hfit)
        as (out & w' & Hrun & Hout);
      destruct (transform_functions_declare K
                  (λ n, n ≠ "mu" ∧ n ≠ "sigma") name transform_function
                  media_data custom_priors ∅ Hin ltac:(other_name)
                  (top_level draw) w3) as (new & Htrace & Hnew)
  end.
  rewrite Hrun in Htrace. cbn [snd] in Htrace.
  unfold with_site in Htrace. cbn [trace empty_record] in Htrace.
  assert (∀ n, n ∈ ["mu"; "sigma"] →
               filter (λ s, site_name s = n) new = []) as Hnone.
  { intros n Hn. apply sites_named_none.
    eapply Forall_impl; [exact Hnew|]. intros s (? & ?).
    repeat (apply elem_of_cons in Hn as [-> | Hn]); try done.
    by apply elem_of_nil in Hn. }
  apply after_bind, after_bind. eapply after_run_eq; [exact Hrun|].
  cbv beta iota. apply after_deterministic.
  apply after_bind, after_bind, after_lift.
  rewrite (einsum_national out v t c Hout Hv).
  apply after_lift. erewrite add_intercept; [|exact Hvi|reflexivity].
  apply after_bind, after_ret, after_bind, after_deterministic.
  apply after_bind. eapply after_run_eq.
  { apply (sample_observed_run _ _ _ _ _ _ t); [reflexivity|exact Hvs]. }
  cbv beta iota. apply after_ret. split; [done|].
  eexists _, vs. unfold sites_named, with_site. cbn [trace].
  rewrite Htrace. rewrite !filter_app, !Hnone by (repeat constructor).
  split; [named_sites|]. split; [named_sites|].
  by rewrite last_snoc.
Qed.

End national_runs_return.

(** ** Instances on the national media data *)

Lemma elem_of_sampled_sites_adstock :
  ("adstock", [_LAG_WEIGHT; _EXPONENT]) ∈ sampled_sites.
Proof. apply list_elem_of_further, list_elem_of_here. Defined.

Lemma no_custom_transform_priors sites names c :
  transform_priors_fit (R:=Z) sites names c ∅.
Proof. intros k p _ Hp. rewrite lookup_empty in Hp. discriminate. Defined.

(** The sites of the model with the adstock transform on the national
    media data. *)
Lemma model_declares_its_sites_in_order_witness :
  NoDup ["intercept"; "sigma"; "coef_media"; "lag_weight"; "exponent";
         "media_transformed"; "mu"; "target"]
  ∧ declares_in_order
      ["intercept"; "sigma"; "coef_media"; "lag_weight"; "exponent";
       "media_transformed"; "mu"; "target"]
      (@media_mix_model Z _ national_media national_target (scalar 0%Z)
         (scalar 1%Z) adstock_function ∅ None None).
Proof.
  apply (model_declares_its_sites_in_order (checking_kernels Z)
           national_media national_target (scalar 0%Z) (scalar 1%Z)
           "adstock" adstock_function [_LAG_WEIGHT; _EXPONENT] ∅ None None
           elem_of_transform_functions_adstock
           elem_of_sampled_sites_adstock).
Defined.

(** A custom prior under [coef_trend] changes nothing. *)
Lemma custom_priors_are_read_by_name_witness :
  @media_mix_model Z _ national_media national_target (scalar 0%Z)
    (scalar 1%Z) adstock_function
    {[ _COEF_TREND := prior_value (scalar 5%Z) ]} None None
  = @media_mix_model Z _ national_media national_target (scalar 0%Z)
      (scalar 1%Z) adstock_function ∅ None None.
Proof.
  apply (custom_priors_are_read_by_name (checking_kernels Z)
           national_media national_target (scalar 0%Z) (scalar 1%Z)
           "adstock" adstock_function {[ _EXPONENT; _LAG_WEIGHT ]}
           {[ _COEF_TREND := prior_value (scalar 5%Z) ]} ∅ None None
           elem_of_transform_functions_adstock eq_refl).
  intros k Hk. rewrite lookup_empty. apply lookup_singleton_ne.
  intros <-. revert Hk.
  rewrite !elem_of_union, !elem_of_singleton. intros [[[?|?]|?]|[?|?]]; done.
Defined.

(** The model with the adstock transform returns on the national media
    data. *)
Lemma national_model_returns_witness :
  ∃ final mu sigma,
    national_model_run counting_draw = (Ok tt, final)
    ∧ site_value <$> sites_named "mu" final = [mu]
    ∧ site_value <$> sites_named "sigma" final = [sigma]
    ∧ last (trace final)
      = Some (sampled_site (top_level counting_draw) "target"
                (Normal mu sigma) (Some national_target) national_target).
Proof.
  apply (national_model_returns (checking_kernels Z) national_media
           national_target (scalar 0%Z) (scalar 1%Z) "adstock"
           adstock_function [_LAG_WEIGHT; _EXPONENT]
           {[ _EXPONENT; _LAG_WEIGHT ]} ∅ None counting_draw 3 2 []
           eq_refl ltac:(lia) elem_of_transform_functions_adstock
           elem_of_sampled_sites_adstock eq_refl
           (no_custom_transform_priors _ _ _) (no_custom_model_priors 1)
           eq_refl (broadcast_shapes_nil_l [2]) eq_refl).
Defined.

(** ** The national prediction with extra features *)

Section extra_features.
Context {R : Type} `{Scalar R} (K : Kernels R).

(** The contraction [tf, f -> t] on a matrix and a vector. *)
Lemma einsum_features (a b : ndarray R) t f :
  shape a = [t; f] → shape b = [f] →
  einsum "tf, f -> t" a b
  = Ok (mk_ndarray [t]
          (map (λ i, ssum (map (λ j, smul (item a [i; j]) (item b [j]))
                             (seq 0 f)))
               (seq 0 t))).
Proof.
  intros Ha Hb. unfold einsum.
  change (parse_subscripts "tf, f -> t")
    with (Some ([["t"; "f"]; ["f"]]%char, ["t"]%char)).
  cbv beta iota. rewrite Ha, Hb.
  change (bind_labels ["t"; "f"]%char [t; f] [])
    with (Some [("t"%char, t); ("f"%char, f)]).
  cbv beta iota.
  assert (bind_labels ["f"]%char [f] [("t"%char, t); ("f"%char, f)]
          = Some [("t"%char, t); ("f"%char, f)]) as ->.
  { cbn. by rewrite Nat.eqb_refl. }
  cbn [forallb].
  change (bool_decide
            (is_Some (env_lookup "t" [("t"%char, t); ("f"%char, f)])))
    with true.
  cbn [andb]. f_equal. unfold contract.
  change (filter (λ l, l ∉ ["t"%char])
            (map fst [("t"%char, t); ("f"%char, f)]))
    with ["f"%char].
  change (subscript [("t"%char, t); ("f"%char, f)] ["t"%char]) with [t].
  change (subscript [("t"%char, t); ("f"%char, f)] ["f"%char]) with [f].
  f_equal. rewrite !indices_singleton.
  rewrite <- !list_fmap_compose. apply list_fmap_ext. intros _ i _.
  unfold compose. f_equal.
  change (@map (list nat) R) with (@fmap list _ (list nat) R).
  rewrite <- list_fmap_compose. done.
Qed.

(** Adding two vectors of the same length. *)
Lemma add_vectors t (f g : nat → R) :
  add (mk_ndarray [t] (map f (seq 0 t))) (mk_ndarray [t] (map g (seq 0 t)))
  = Ok (mk_ndarray [t] (map (λ i, sadd (f i) (g i)) (seq 0 t))).
Proof.
  unfold add, broadcast_binop. cbn [shape].
  rewrite broadcast_shapes_refl. do 2 f_equal. rewrite indices_singleton.
  change (@map (list nat) R) with (@fmap list _ (list nat) R).
  change (@map nat R) with (@fmap list _ nat R).
  rewrite <- list_fmap_compose. apply list_fmap_ext.
  intros k i Hk. apply lookup_seq in Hk as [-> Hk]. unfold compose.
  cbn [Nat.add] in *.
  assert (∀ h : nat → R,
            bitem (mk_ndarray [t] (h <$> seq 0 t)) [k] = h k) as Hitem.
  { intros h. unfold bitem, item, align. cbn -[Nat.eqb seq].
    destruct (t =? 1)%nat eqn:E.
    - apply Nat.eqb_eq in E as ->. assert (k = 0) as -> by lia. done.
    - rewrite Nat.mul_1_r, Nat.add_0_r. by apply nth_map_seq. }
  by rewrite !Hitem.
Qed.

(** The plate of the coefficients of the extra features on national
    data. *)
Lemma coef_extra_features_run (custom_priors : gmap string (Prior R)) draw
    f d bs :
  0 < f →
  resolve_prior custom_priors _get_default_priors _COEF_EXTRA_FEATURES
  = Ok (prior_distribution d) →
  batch_shape d = Some bs → broadcasts_to bs [f] →
  ∃ v,
    shape v = [f]
    ∧ ∀ w,
        plate_stack plate_prefixes_national [f]
          (bind (lift (resolve_prior custom_priors _get_default_priors
                         _COEF_EXTRA_FEATURES))
                (λ fn, sample_prior _COEF_EXTRA_FEATURES fn))
          (top_level draw) w
        = (Ok v,
           with_site w
             (sampled_site
                (inside draw
                   [{| frame_name := plate_prefixes_national +:+ "_0";
                       frame_dim := -1;
                       frame_size := f |}])
                _COEF_EXTRA_FEATURES d None v)).
Proof.
  intros Hpos Hres Hbs Hb.
  destruct (draw_value_ok (draw _COEF_EXTRA_FEATURES) d bs [f] Hbs Hb)
    as [v Hv].
  exists v. split; [by apply draw_value_shape in Hv|]. intros w.
  unfold plate_stack. simpl. unfold plate. simpl.
  destruct f as [|n]; [lia|]. simpl.
  unfold bind at 1, lift at 1. rewrite Hres.
  unfold sample_prior, sample. rewrite Hbs. simpl open_plates.
  rewrite plates_expand_one.
  rewrite (plate_expand_one _ bs (S n)); [|done..].
  unfold bind, lift. simpl draws. by rewrite Hv.
Qed.

(** X6.  The national prediction with extra features.  On media data of
    rank 2 ([t] time steps, [c > 0] channels) with extra features of rank
    2 ([t] time steps, [f > 0] features), the run declares one site
    [coef_extra_features] with a value per feature, after the site
    [media_transformed]; and once the transform has returned an array of
    the shape of the media data, the value of the site [mu] is, at each
    time step, the intercept plus the sum over the channels of the
    transformed media times the coefficient of the channel, plus the sum
    over the features of the extra feature times its coefficient. *)
Theorem national_prediction_adds_extra_features
    (media_data target_data media_prior media_sigma extra_features
       : ndarray R)
    (name : string) (transform_function : TransformFunction)
    (custom_priors : gmap string (Prior R))
    (transform_kwargs : option (gmap string kwarg))
    (draw : string → nat → R) (t c f : nat) (bs : list nat) :
  shape media_data = [t; c] → 0 < c →
  shape extra_features = [t; f] → 0 < f →
  (name, transform_function) ∈ transform_functions →
  model_priors_per_geo 1 custom_priors →
  (∀ p, custom_priors !! _COEF_EXTRA_FEATURES = Some p →
        broadcasting_distribution [f] p) →
  batch_shape (Normal media_prior media_sigma) = Some bs →
  broadcasts_to bs [c] →
  ∃ intercept coef_media coef_extra_features,
    shape intercept = [1] ∧ shape coef_media = [c]
    ∧ shape coef_extra_features = [f]
    ∧ ∀ final media_transformed,
        final = (media_mix_model media_data target_data media_prior
                   media_sigma transform_function custom_priors
                   transform_kwargs (Some extra_features) (top_level draw)
                   empty_record).2 →
        site_value <$> sites_named "media_transformed" final
        = [media_transformed] →
        shape media_transformed = [t; c] →
        site_value <$> sites_named "intercept" final = [intercept]
        ∧ site_value <$> sites_named "coef_media" final = [coef_media]
        ∧ site_value <$> sites_named "coef_extra_features" final
          = [coef_extra_features]
        ∧ site_value <$> sites_named "mu" final
          = [mk_ndarray [t]
               (map (λ i,
                  sadd
                    (sadd (item intercept [0])
                       (ssum (map (λ j, smul (item media_transformed [i; j])
                                             (item coef_media [j]))
                                (seq 0 c))))
                    (ssum (map (λ j, smul (item extra_features [i; j])
                                          (item coef_extra_features [j]))
                             (seq 0 f))))
                  (seq 0 t))].
Proof.
  intros Hs Hc Hxs Hf Hin Hpriors Hxprior Hbs Hb.
  destruct (model_prior_resolved _ _ _INTERCEPT Hpriors (or_introl eq_refl))
    as (di & bsi & Hri & Hbsi & Hbi).
  destruct (model_prior_resolved _ _ _SIGMA Hpriors (or_intror eq_refl))
    as (ds & bss & Hrs & Hbss & Hbs').
  assert (∃ dx bsx,
            resolve_prior custom_priors _get_default_priors
              _COEF_EXTRA_FEATURES = Ok (prior_distribution dx)
            ∧ batch_shape dx = Some bsx ∧ broadcasts_to bsx [f])
    as (dx & bsx & Hrx & Hbsx & Hbx).
  { erewrite resolve_prior_valid by reflexivity.
    destruct (custom_priors !! _COEF_EXTRA_FEATURES) as [p|] eqn:Hp; simpl.
    - specialize (Hxprior p eq_refl). destruct p as [d|?]; [|done].
      destruct Hxprior as (bsx & ? & ?). by exists d, bsx.
    - eexists _, []. split; [done|].
      split; [reflexivity|apply broadcast_shapes_nil_l]. }
  destruct (sample_resolved_run custom_priors _get_default_priors
              _INTERCEPT 1 draw di bsi ltac:(lia) Hri Hbsi Hbi)
    as (vi & Hvi & Hrun_i).
  destruct (sample_resolved_run custom_priors _get_default_priors
              _SIGMA 1 draw ds bss ltac:(lia) Hrs Hbss Hbs')
    as (vs & _ & Hrun_s).
  destruct (coef_media_national_run media_prior media_sigma draw c bs
              Hc Hbs Hb) as (v & Hv & Hrun_c).
  destruct (coef_extra_features_run custom_priors draw f dx bsx
              Hf Hrx Hbsx Hbx) as (vx & Hvx & Hrun_x).
  apply draw_value_shape in Hvi.
  exists vi, v, vx. split; [done|]. split; [done|]. split; [done|].
  intros final mt ->. revert mt.
  match goal with
  | |- ∀ mt, _ <$> sites_named _ (?m ?e ?w).2 = _ → _ =>
      change (after m e w
        (λ _ final,
           ∀ mt,
             site_value <$> sites_named "media_transformed" final = [mt] →
             shape mt = [t; c] →
             site_value <$> sites_named "intercept" final = [vi]
             ∧ site_value <$> sites_named "coef_media" final = [v]
             ∧ site_value <$> sites_named "coef_extra_features" final
               = [vx]
             ∧ site_value <$> sites_named "mu" final
               = [mk_ndarray [t]
                    (map (λ i,
                       sadd
                         (sadd (item vi [0])
                            (ssum (map (λ j, smul (item mt [i; j])
                                                  (item v [j]))
                                     (seq 0 c))))
                         (ssum (map (λ j, smul (item extra_features [i; j])
                                               (item vx [j]))
                                  (seq 0 f))))
                       (seq 0 t))]))
  end.
  assert ((ndim media_data =? 3)%nat = false) as Hrank.
  { unfold ndim. by rewrite Hs. }
  assert ((ndim extra_features =? 3)%nat = false) as Hxrank.
  { unfold ndim. by rewrite Hxs. }
  unfold media_mix_model. rewrite Hrank, Hxrank.
  apply after_bind, after_lift. rewrite (media_shape_national _ _ _ Hs).
  apply after_bind. eapply after_run_eq; [apply Hrun_i|]. cbv beta iota.
  apply after_bind. eapply after_run_eq; [apply Hrun_s|]. cbv beta iota.
  apply after_bind. eapply after_run_eq; [apply Hrun_c|]. cbv beta iota.
  apply after_bind, after_bind.
  eapply (after_declares
            (λ n, n ≠ "intercept" ∧ n ≠ "coef_media"
                  ∧ n ≠ "media_transformed" ∧ n ≠ "mu"
                  ∧ n ≠ "coef_extra_features")).
  { eapply (transform_functions_declare K); [exact Hin|].
    intros n; rewrite !elem_of_union, !elem_of_singleton; intros Hn;
      repeat (destruct Hn as [Hn | Hn]); by subst. }
  intros r w' new Htrace Hnew.
  assert (∀ n, n ∈ ["intercept"; "coef_media"; "media_transformed"; "mu";
                    "coef_extra_features"] →
               filter (λ s, site_name s = n) new = []) as Hnone.
  { intros n Hn. apply sites_named_none.
    eapply Forall_impl; [exact Hnew|]. intros s (? & ? & ? & ? & ?).
    repeat (apply elem_of_cons in Hn as [-> | Hn]); try done.
    by apply elem_of_nil in Hn. }
  unfold with_site in Htrace. cbn [trace empty_record] in Htrace.
  destruct r as [a|x].
  2:{ unfold sites_named. rewrite Htrace.
      rewrite !filter_app, !Hnone by (repeat constructor).
      intros mt Hmt. revert Hmt. named_sites. }
  apply after_deterministic.
  destruct (decide (shape a = [t; c])) as [Ha|Ha].
  - apply after_bind, after_bind, after_lift.
    rewrite (einsum_national a v t c Ha Hv).
    apply after_lift. erewrite add_intercept; [|exact Hvi|reflexivity].
    apply after_bind, after_bind, after_lift.
    unfold tuple_getitem. rewrite Hxs. cbn [lookup list_lookup].
    apply after_bind. eapply after_run_eq; [apply Hrun_x|]. cbv beta iota.
    apply after_bind, after_lift.
    rewrite (einsum_features extra_features vx t f Hxs Hvx).
    apply after_lift. rewrite add_vectors.
    apply after_bind, after_deterministic.
    apply after_bind, after_sample.
    + intros _. unfold sites_named, with_site. cbn [trace]. rewrite Htrace.
      rewrite !filter_app, !Hnone by (repeat constructor).
      intros mt Hmt _. revert Hmt. named_sites. by intros [= <-].
    + intros bs1 s1 v1 _ _ _. apply after_ret.
      unfold sites_named, with_site. cbn [trace]. rewrite Htrace.
      rewrite !filter_app, !Hnone by (repeat constructor).
      intros mt Hmt _. revert Hmt. named_sites. by intros [= <-].
  - eapply (after_declares (λ n, n ≠ "media_transformed")).
    { declares_walk; done. }
    intros r2 w2 new2 Htrace2 Hnew2.
    unfold sites_named. rewrite Htrace2. unfold with_site. cbn [trace].
    rewrite Htrace.
    rewrite !filter_app, !Hnone, (sites_named_none new2)
      by first [done | repeat constructor].
    intros mt Hmt Hshape. revert Hmt. named_sites. intros [= <-]. done.
Qed.

End extra_features.

(** ** The first sites of the model, and empty axes *)

Section first_sites.
Context {R : Type} `{Scalar R} (K : Kernels R).

(** The sizes the model reads off media data of rank 2 or more. *)
Lemma media_shape_from (media_data : ndarray R) t c rest :
  shape media_data = t :: c :: rest →
  ∃ geo_shape,
    media_shape media_data
    = Ok (t, c, geo_shape, n_geos_of (shape media_data)).
Proof.
  intros Hs. unfold media_shape, ndim, tuple_getitem. rewrite Hs.
  destruct rest as [|g [|? ?]]; by eexists.
Qed.

(** X7.  The sites [intercept] and [sigma] are the first two sites of a
    run, each in its own plate over the geos and with one value per geo:
    on media data of rank 3 with [g > 0] geos their values have the shape
    [(g,)], on any other media data of rank 2 or more the shape [(1,)].
    Their distributions are the custom priors if there are any, and the
    default priors otherwise. *)
Theorem intercept_and_sigma_have_one_value_per_geo
    (media_data target_data media_prior media_sigma : ndarray R)
    (name : string) (transform_function : TransformFunction)
    (custom_priors : gmap string (Prior R))
    (transform_kwargs : option (gmap string kwarg))
    (extra_features : option (ndarray R))
    (draw : string → nat → R) (t c n : nat) (rest : list nat) :
  shape media_data = t :: c :: rest →
  n = n_geos_of (shape media_data) → 0 < n →
  (name, transform_function) ∈ transform_functions →
  model_priors_per_geo n custom_priors →
  ∃ intercept_fn sigma_fn intercept sigma,
    resolve_prior custom_priors _get_default_priors _INTERCEPT
    = Ok (prior_distribution intercept_fn)
    ∧ resolve_prior custom_priors _get_default_priors _SIGMA
      = Ok (prior_distribution sigma_fn)
    ∧ shape intercept = [n] ∧ shape sigma = [n]
    ∧ take 2
        (trace
           (media_mix_model media_data target_data media_prior media_sigma
              transform_function custom_priors transform_kwargs
              extra_features (top_level draw) empty_record).2)
      = [sampled_site (inside draw [geo_plate _INTERCEPT n]) _INTERCEPT
           intercept_fn None intercept;
         sampled_site (inside draw [geo_plate _SIGMA n]) _SIGMA sigma_fn
           None sigma].
Proof.
  intros Hs -> Hn Hin Hpriors.
  destruct (model_prior_resolved _ _ _INTERCEPT Hpriors (or_introl eq_refl))
    as (di & bsi & Hri & Hbsi & Hbi).
  destruct (model_prior_resolved _ _ _SIGMA Hpriors (or_intror eq_refl))
    as (ds & bss & Hrs & Hbss & Hbs').
  destruct (sample_resolved_run custom_priors _get_default_priors
              _INTERCEPT _ draw di bsi Hn Hri Hbsi Hbi)
    as (vi & Hvi & Hrun_i).
  destruct (sample_resolved_run custom_priors _get_default_priors
              _SIGMA _ draw ds bss Hn Hrs Hbss Hbs')
    as (vs & Hvs & Hrun_s).
  apply draw_value_shape in Hvi. apply draw_value_shape in Hvs.
  exists di, ds, vi, vs. do 4 (split; [done|]).
  match goal with
  | |- take 2 (trace (?m ?e ?w).2) = ?l =>
      change (after m e w (λ _ final, take 2 (trace final) = l))
  end.
  destruct (media_shape_from media_data t c rest Hs) as [geo_shape Hshape].
  unfold media_mix_model.
  apply after_bind, after_lift. rewrite Hshape.
  apply after_bind. eapply after_run_eq; [apply Hrun_i|]. cbv beta iota.
  apply after_bind. eapply after_run_eq; [apply Hrun_s|]. cbv beta iota.
  eapply (after_declares (λ _, True)).
  { destruct (ndim media_data =? 3)%nat, extra_features;
      declares_walk; try done;
      (eapply (transform_functions_declare K); [exact Hin|done]). }
  intros r w' new Htrace _. rewrite Htrace. reflexivity.
Qed.

(** X8.  Empty axes.  numpyro refuses a plate of size 0.  On media data
    of rank 3 without geos the run raises [AssertionError] at its first
    plate and declares nothing.  On media data without channels the run
    raises [AssertionError] at the plate of the media coefficients: the
    sites [intercept] and [sigma] are declared, the transform is not
    called. *)
Theorem empty_axes_raise_assertion_error
    (media_data target_data media_prior media_sigma : ndarray R)
    (transform_function : TransformFunction)
    (custom_priors : gmap string (Prior R))
    (transform_kwargs : option (gmap string kwarg))
    (extra_features : option (ndarray R)) :
  (∀ t c e w,
     shape media_data = [t; c; 0] →
     media_mix_model media_data target_data media_prior media_sigma
       transform_function custom_priors transform_kwargs extra_features e w
     = (Err AssertionError, w))
  ∧ (∀ t rest draw,
       shape media_data = t :: 0 :: rest →
       0 < n_geos_of (shape media_data) →
       model_priors_per_geo (n_geos_of (shape media_data)) custom_priors →
       ∃ final,
         media_mix_model media_data target_data media_prior media_sigma
           transform_function custom_priors transform_kwargs
           extra_features (top_level draw) empty_record
         = (Err AssertionError, final)
         ∧ site_name <$> trace final = [_INTERCEPT; _SIGMA]
         ∧ kernel_calls final = []).
Proof.
  split.
  - intros t c e w Hs. unfold media_mix_model.
    unfold bind at 1, lift at 1. rewrite (media_shape_geo _ _ _ _ Hs).
    reflexivity.
  - intros t rest draw Hs Hn Hpriors.
    destruct (model_prior_resolved _ _ _INTERCEPT Hpriors
                (or_introl eq_refl)) as (di & bsi & Hri & Hbsi & Hbi).
    destruct (model_prior_resolved _ _ _SIGMA Hpriors (or_intror eq_refl))
      as (ds & bss & Hrs & Hbss & Hbs').
    destruct (sample_resolved_run custom_priors _get_default_priors
                _INTERCEPT _ draw di bsi Hn Hri Hbsi Hbi)
      as (vi & _ & Hrun_i).
    destruct (sample_resolved_run custom_priors _get_default_priors
                _SIGMA _ draw ds bss Hn Hrs Hbss Hbs')
      as (vs & _ & Hrun_s).
    destruct (media_shape_from media_data t 0 rest Hs)
      as [geo_shape Hshape].
    eexists. unfold media_mix_model.
    unfold bind at 1, lift at 1. rewrite Hshape.
    unfold bind at 1. rewrite Hrun_i.
    unfold bind at 1. rewrite Hrun_s.
    unfold bind at 1, plate at 1. cbn [Nat.eqb].
    split; [reflexivity|]. split; reflexivity.
Qed.

End first_sites.

(** ** Custom priors that are not distributions *)

Section plain_values.
Context {R : Type} `{Scalar R} (K : Kernels R).

Lemma resolve_prior_delete (custom table : gmap string (Prior R)) k k' :
  k' ≠ k →
  resolve_prior (delete k custom) table k' = resolve_prior custom table k'.
Proof. intros Hk. unfold resolve_prior. by rewrite lookup_delete_ne. Qed.

(** The sampling block of a parameter whose custom prior is a plain
    value: numpyro refuses it, inside the plate, and nothing is
    declared. *)
Lemma after_sample_per_channel_raises media_data
    (custom_priors default_priors : gmap string (Prior R)) name e w
    (Q : result (ndarray R) → run_record R → Prop) c v dflt :
  shape media_data !! 1 = Some c → 0 < c →
  custom_priors !! name = Some (prior_value v) →
  default_priors !! name = Some dflt →
  Q (Err TypeError) w →
  after (sample_per_channel media_data custom_priors default_priors name)
    e w Q.
Proof.
  intros Hc Hpos Hk Ht HQ.
  assert (sample_per_channel media_data custom_priors default_priors name
            e w = (Err TypeError, w)) as Hrun.
  { unfold sample_per_channel, bind at 1, lift at 1, tuple_getitem.
    rewrite Hc. unfold plate. destruct c as [|c']; [lia|]. cbn [Nat.eqb].
    unfold bind, lift.
    by rewrite (resolve_prior_valid _ _ _ dflt Ht), Hk. }
  unfold after. by rewrite Hrun.
Qed.

End plain_values.

(** One sampled parameter of a transform: the one under the plain value
    raises, the others are sampled. *)
Ltac step_sample_or_raise Hfit Hk c :=
  match goal with
  | |- after (numpyro.bind
                (sample_per_channel _ ?custom ?table ?k') _) _ _ _ =>
      first
        [ apply after_bind;
          eapply (after_sample_per_channel_raises _ _ _ _ _ _ _ c);
          [ eassumption | assumption | exact Hk | reflexivity | ]
        | let d := fresh "d" in
          let bs := fresh "bs" in
          let Hres := fresh "Hres" in
          let Hbs := fresh "Hbs" in
          let Hb := fresh "Hb" in
          destruct (fit_sampled _ _ c _ table k' _ Hfit
                      ltac:(written_out) ltac:(written_out) eq_refl
                      ltac:(scalar_default))
            as (d & bs & Hres & Hbs & Hb);
          rewrite resolve_prior_delete in Hres by done;
          apply after_bind;
          eapply (after_sample_per_channel_ok _ _ _ _ _ _ _ c d bs);
          [ eassumption | assumption | reflexivity | exact Hres | exact Hbs
          | exact Hb | ];
          let v := fresh "v" in
          let Hshape := fresh "Hshape" in
          intros v Hshape _ ]
  end.

Section plain_value_raises.
Context {R : Type} `{Scalar R} (K : Kernels R).

(** X9.  A custom prior that is a plain value, under the name of a
    parameter the transform samples, makes the transform raise
    [TypeError] at the sample statement of that parameter: no kernel is
    called and no site of that name is declared.  The media data has at
    least one channel and the other custom priors fit the transform. *)
Theorem plain_value_for_a_sampled_parameter_raises_type_error
    (normalise : bool) (number_lags : Z) (name : string)
    (f : ndarray R → gmap string (Prior R) → M R (ndarray R))
    (sites : list string) (names : gset string)
    (media_data : ndarray R) (custom_priors : gmap string (Prior R))
    (k : string) (v : ndarray R) (draw : string → nat → R)
    (w : run_record R) (c : nat) :
  (name, f) ∈ transforms normalise number_lags →
  (name, sites) ∈ sampled_sites →
  TRANSFORM_PRIORS_NAMES !! name = Some names →
  k ∈ sites → custom_priors !! k = Some (prior_value v) →
  shape media_data !! 1 = Some c → 0 < c →
  transform_priors_fit sites names c (delete k custom_priors) →
  ∃ w',
    f media_data custom_priors (top_level draw) w = (Err TypeError, w')
    ∧ kernel_calls w' = kernel_calls w
    ∧ sites_named k w' = sites_named k w.
Proof.
  intros Hin Hsites Hnames Hks Hk Hc Hpos Hfit.
  cut (after (f media_data custom_priors) (top_level draw) w
         (λ r w', r = Err TypeError
                  ∧ kernel_calls w' = kernel_calls w
                  ∧ sites_named k w' = sites_named k w)).
  { unfold after.
    destruct (f media_data custom_priors (top_level draw) w) as [r w'].
    simpl. intros (-> & ? & ?). by exists w'. }
  unfold transforms in Hin.
  repeat (apply elem_of_cons in Hin as [[= -> ->] | Hin]);
    [..|by apply elem_of_nil in Hin];
    unfold sampled_sites in Hsites;
    repeat (apply elem_of_cons in Hsites as [[= ->] | Hsites]);
    try (by apply elem_of_nil in Hsites);
    unfold TRANSFORM_PRIORS_NAMES in Hnames; simplify_map_eq;
    repeat (apply elem_of_cons in Hks as [-> | Hks]);
    try (by apply elem_of_nil in Hks);
    unfold transform_carryover, transform_adstock, transform_hill_adstock,
      transform_exponential_adstock,
      transform_exponential_adstock_static_dim,
      transform_exponential_adstock_static_decay;
    step_table;
    repeat step_sample_or_raise Hfit Hk c;
    (split; [done|]); (split; [done|]);
    unfold sites_named; named_sites; by rewrite ?app_nil_r.
Qed.

End plain_value_raises.

(** ** Further instances *)

(** The national media data with one extra feature. *)
Lemma national_prediction_adds_extra_features_witness :
  ∃ intercept coef_media coef_extra_features,
    shape intercept = [1] ∧ shape coef_media = [2]
    ∧ shape coef_extra_features = [1]
    ∧ ∀ final media_transformed,
        final = (national_extra_features_run counting_draw).2 →
        site_value <$> sites_named "media_transformed" final
        = [media_transformed] →
        shape media_transformed = [3; 2] →
        site_value <$> sites_named "intercept" final = [intercept]
        ∧ site_value <$> sites_named "coef_media" final = [coef_media]
        ∧ site_value <$> sites_named "coef_extra_features" final
          = [coef_extra_features]
        ∧ site_value <$> sites_named "mu" final
          = [mk_ndarray [3]
               (map (λ i,
                  sadd
                    (sadd (item intercept [0])
                       (ssum (map (λ j, smul (item media_transformed [i; j])
                                             (item coef_media [j]))
                                (seq 0 2))))
                    (ssum (map (λ j, smul (item national_extra_features
                                                 [i; j])
                                          (item coef_extra_features [j]))
                             (seq 0 1))))
                  (seq 0 3))].
Proof.
  apply (national_prediction_adds_extra_features (checking_kernels Z)
           national_media national_target (scalar 0%Z) (scalar 1%Z)
           national_extra_features "adstock" adstock_function ∅ None
           counting_draw 3 2 1 [] eq_refl ltac:(lia) eq_refl ltac:(lia)
           elem_of_transform_functions_adstock (no_custom_model_priors 1)).
  - intros p Hp. rewrite lookup_empty in Hp. discriminate.
  - reflexivity.
  - exact (broadcast_shapes_nil_l [2]).
Defined.

(** The same run, evaluated: the coefficient of the extra feature is 1,
    and the prediction is the national one plus the extra feature. *)
Example national_prediction_with_extra_features_evaluated :
  (national_extra_features_run counting_draw).1 = Ok tt
  ∧ site_value <$> sites_named "media_transformed"
                     (national_extra_features_run counting_draw).2
    = [national_media]
  ∧ site_value <$> sites_named "mu"
                     (national_extra_features_run counting_draw).2
    = [mk_ndarray [3] [7; 14; 21]%Z].
Proof. vm_compute. auto. Qed.

(** On the geo media data the intercept and sigma have 3 values. *)
Lemma intercept_and_sigma_have_one_value_per_geo_witness :
  ∃ intercept_fn sigma_fn intercept sigma,
    resolve_prior (R:=Z) ∅ _get_default_priors _INTERCEPT
    = Ok (prior_distribution intercept_fn)
    ∧ resolve_prior (R:=Z) ∅ _get_default_priors _SIGMA
      = Ok (prior_distribution sigma_fn)
    ∧ shape intercept = [3] ∧ shape sigma = [3]
    ∧ take 2 (trace (geo_model_run counting_draw).2)
      = [sampled_site (inside counting_draw [geo_plate _INTERCEPT 3])
           _INTERCEPT intercept_fn None intercept;
         sampled_site (inside counting_draw [geo_plate _SIGMA 3]) _SIGMA
           sigma_fn None sigma].
Proof.
  apply (intercept_and_sigma_have_one_value_per_geo (checking_kernels Z)
           geo_media geo_target (scalar 0%Z) (scalar 1%Z) "adstock"
           adstock_function ∅ None None counting_draw 2 4 3 [3] eq_refl
           eq_refl ltac:(lia) elem_of_transform_functions_adstock
           (no_custom_model_priors 3)).
Defined.

(** Media data without channels: the run stops at the plate of the
    coefficients. *)
Lemma empty_axes_raise_assertion_error_witness :
  ∃ final,
    @media_mix_model Z _ no_channel_media national_target (scalar 0%Z)
      (scalar 1%Z) adstock_function ∅ None None (top_level counting_draw)
      empty_record
    = (Err AssertionError, final)
    ∧ site_name <$> trace final = [_INTERCEPT; _SIGMA]
    ∧ kernel_calls final = [].
Proof.
  apply (proj2 (empty_axes_raise_assertion_error no_channel_media
                  national_target (scalar 0%Z) (scalar 1%Z)
                  adstock_function ∅ None None) 3 [] counting_draw eq_refl).
  - simpl. lia.
  - exact (no_custom_model_priors 1).
Defined.

(** The number 1 as the custom prior of the lag weight of the adstock
    transform. *)
Lemma plain_value_for_a_sampled_parameter_witness :
  ∃ w',
    adstock_checked national_media
      {[ _LAG_WEIGHT := prior_value (scalar 1%Z) ]}
      (top_level counting_draw) empty_record
    = (Err TypeError, w')
    ∧ kernel_calls w' = kernel_calls (R:=Z) empty_record
    ∧ sites_named _LAG_WEIGHT w' = sites_named _LAG_WEIGHT empty_record.
Proof.
  apply (plain_value_for_a_sampled_parameter_raises_type_error
           (checking_kernels Z) true 13 "adstock" adstock_checked
           [_LAG_WEIGHT; _EXPONENT] {[ _EXPONENT; _LAG_WEIGHT ]}
           national_media {[ _LAG_WEIGHT := prior_value (scalar 1%Z) ]}
           _LAG_WEIGHT (scalar 1%Z) counting_draw empty_record 2
           elem_of_transforms_adstock elem_of_sampled_sites_adstock eq_refl).
  - apply list_elem_of_here.
  - reflexivity.
  - reflexivity.
  - lia.
  - rewrite delete_singleton_eq. apply no_custom_transform_priors.
Defined.

(** ** The pinned parameters of the static variants *)

Section pinned_parameters.
Context {R : Type} `{Scalar R} (K : Kernels R).

(** X10.  The parameters the static variants pin are read from the
    custom priors as plain values.  For a transform and a name that
    [TRANSFORM_PRIORS_NAMES] lists for it but that it does not sample
    ([slope] of [exponential_adstock_static_dim], [lag_weight] of
    [exponential_adstock_static_decay], both of
    [exponential_adstock_static_dim_decay]): when the transform returns,
    it has declared no site of that name, and it has called a kernel with,
    under that name, the custom entry as a plain value, or the number 1
    without a custom entry, with one more trailing axis on geo data. *)
Theorem pinned_parameters_take_custom_values
    (normalise : bool) (number_lags : Z) (name : string)
    (f : ndarray R → gmap string (Prior R) → M R (ndarray R))
    (sites : list string) (names : gset string)
    (media_data : ndarray R) (custom_priors : gmap string (Prior R))
    (k : string) (e : run_env R) (w w' : run_record R) (out : ndarray R) :
  (name, f) ∈ transforms normalise number_lags →
  (name, sites) ∈ sampled_sites →
  TRANSFORM_PRIORS_NAMES !! name = Some names →
  k ∈ names → k ∉ sites →
  f media_data custom_priors e w = (Ok out, w') →
  sites_named k w' = sites_named k w
  ∧ ∃ x calls call,
      as_array (default (prior_value (float 1)) (custom_priors !! k)) = Ok x
      ∧ calls_since w w' calls ∧ call ∈ calls
      ∧ (k, expand_if_geo media_data x) ∈ call_params call.
Proof.
  intros Hin Hsites Hnames Hk Hks Hrun.
  cut (after (f media_data custom_priors) e w
         (λ r w',
            ∀ out, r = Ok out →
              sites_named k w' = sites_named k w
              ∧ ∃ x calls call,
                  as_array (default (prior_value (float 1))
                              (custom_priors !! k)) = Ok x
                  ∧ calls_since w w' calls ∧ call ∈ calls
                  ∧ (k, expand_if_geo media_data x) ∈ call_params call)).
  { unfold after. rewrite Hrun. simpl. intros Hq. by apply (Hq out). }
  clear Hrun. unfold transforms in Hin.
  repeat (apply elem_of_cons in Hin as [[= -> ->] | Hin]);
    [..|by apply elem_of_nil in Hin];
    unfold sampled_sites in Hsites;
    repeat (apply elem_of_cons in Hsites as [[= ->] | Hsites]);
    try (by apply elem_of_nil in Hsites);
    unfold TRANSFORM_PRIORS_NAMES in Hnames; simplify_map_eq;
    revert Hk; rewrite ?elem_of_union, ?elem_of_singleton; intros Hk;
    repeat (destruct Hk as [Hk | Hk]); subst k;
    try (by exfalso; apply Hks; written_out).
  - (* exponential_adstock_static_dim, slope *)
    unfold transform_exponential_adstock_static_dim. step_table.
    apply after_bind, after_sample_per_channel; [done|].
    intros c fr d bs s v _ _ _ _ _ _ _ _ _.
    apply after_bind, after_lift.
    destruct (as_array _) as [x|?] eqn:Hx; [|done].
    apply after_bind, after_adstock.
    destruct (adstock_kernel _ _ _) as [a|?]; [|done].
    apply after_exponential. intros out' _. split.
    + unfold sites_named, with_call; cbn [trace]; named_sites;
        by rewrite ?app_nil_r.
    + eexists x, [_; _], _. split; [done|]. split.
      { unfold calls_since. simpl. by rewrite <- app_assoc. }
      split; [apply list_elem_of_further, list_elem_of_here|].
      apply list_elem_of_here.
  - (* exponential_adstock_static_decay, lag_weight *)
    unfold transform_exponential_adstock_static_decay. step_table.
    apply after_bind, after_sample_per_channel; [done|].
    intros c fr d bs s v _ _ _ _ _ _ _ _ _.
    apply after_bind, after_lift.
    destruct (as_array _) as [x|?] eqn:Hx; [|done].
    apply after_bind, after_adstock.
    destruct (adstock_kernel _ _ _) as [a|?]; [|done].
    apply after_exponential. intros out' _. split.
    + unfold sites_named, with_call; cbn [trace]; named_sites;
        by rewrite ?app_nil_r.
    + eexists x, [_; _], _. split; [done|]. split.
      { unfold calls_since. simpl. by rewrite <- app_assoc. }
      split; [apply list_elem_of_here|]. apply list_elem_of_here.
  - (* exponential_adstock_static_dim_decay, lag_weight *)
    unfold transform_exponential_adstock_static_dim_decay. step_table.
    apply after_bind, after_lift.
    destruct (as_array (default _ (custom_priors !! _LAG_WEIGHT)))
      as [x|?] eqn:Hx; [|done].
    apply after_bind, after_lift.
    destruct (as_array (default _ (custom_priors !! _SLOPE)))
      as [y|?] eqn:Hy; [|done].
    apply after_bind, after_adstock.
    destruct (adstock_kernel _ _ _) as [a|?]; [|done].
    apply after_exponential. intros out' _. split; [done|].
    eexists x, [_; _], _. split; [done|]. split.
    { unfold calls_since. simpl. by rewrite <- app_assoc. }
    split; [apply list_elem_of_here|]. apply list_elem_of_here.
  - (* exponential_adstock_static_dim_decay, slope *)
    unfold transform_exponential_adstock_static_dim_decay. step_table.
    apply after_bind, after_lift.
    destruct (as_array (default _ (custom_priors !! _LAG_WEIGHT)))
      as [x|?] eqn:Hx; [|done].
    apply after_bind, after_lift.
    destruct (as_array (default _ (custom_priors !! _SLOPE)))
      as [y|?] eqn:Hy; [|done].
    apply after_bind, after_adstock.
    destruct (adstock_kernel _ _ _) as [a|?]; [|done].
    apply after_exponential. intros out' _. split; [done|].
    eexists y, [_; _], _. split; [done|]. split.
    { unfold calls_since. simpl. by rewrite <- app_assoc. }
    split; [apply list_elem_of_further, list_elem_of_here|].
    apply list_elem_of_here.
Qed.

End pinned_parameters.

(** ** Keyword arguments *)

Section keywords.
Context {R : Type} `{Scalar R} (K : Kernels R).

Lemma bind_kwargs_unexpected {A} key (read : kwarg → option A) dflt
    (kwargs : gmap string kwarg) :
  dom kwargs ⊈ ({[ key ]} : gset string) →
  bind_kwargs key read dflt kwargs = Err TypeError.
Proof. intros Hdom. unfold bind_kwargs. by rewrite bool_decide_eq_false_2. Qed.

(** A keyword the transform does not take: the call raises before the
    body of the transform runs. *)
Lemma transform_functions_unexpected_keyword name tf
    (media_data : ndarray R) (custom_priors : gmap string (Prior R))
    (kwargs : gmap string kwarg) e w :
  (name, tf) ∈ transform_functions →
  dom kwargs ⊈ ({[ keyword_of name ]} : gset string) →
  tf media_data custom_priors kwargs e w = (Err TypeError, w).
Proof.
  intros Hin Hdom. unfold transform_functions in Hin.
  repeat (apply elem_of_cons in Hin as [[= -> ->] | Hin]);
    [..|by apply elem_of_nil in Hin];
    unfold def_normalise, def_number_lags, bind at 1, lift at 1;
    by rewrite bind_kwargs_unexpected.
Qed.

(** X11.  A keyword argument the transform does not take ([normalise]
    is the one keyword of six transforms, [number_lags] that of
    [transform_carryover]).  The call of the transform raises [TypeError]
    and declares nothing; the run of the model raises, it calls no kernel
    and it never declares [media_transformed]. *)
Theorem unexpected_keyword_raises_type_error
    (media_data target_data media_prior media_sigma : ndarray R)
    (name : string) (transform_function : TransformFunction)
    (custom_priors : gmap string (Prior R))
    (kwargs : gmap string kwarg)
    (extra_features : option (ndarray R)) (e : run_env R)
    (w : run_record R) :
  (name, transform_function) ∈ transform_functions →
  dom kwargs ⊈ ({[ keyword_of name ]} : gset string) →
  transform_function media_data custom_priors kwargs e w
  = (Err TypeError, w)
  ∧ ∃ x final,
      media_mix_model media_data target_data media_prior media_sigma
        transform_function custom_priors (Some kwargs) extra_features e w
      = (Err x, final)
      ∧ kernel_calls final = kernel_calls w
      ∧ sites_named "media_transformed" final
        = sites_named "media_transformed" w.
Proof.
  intros Hin Hdom.
  split; [by apply (transform_functions_unexpected_keyword name)|].
  cut (after (media_mix_model media_data target_data media_prior
                media_sigma transform_function custom_priors (Some kwargs)
                extra_features) e w
         (λ r final,
            (∃ x, r = Err x)
            ∧ kernel_calls final = kernel_calls w
            ∧ sites_named "media_transformed" final
              = sites_named "media_transformed" w)).
  { unfold after.
    destruct (media_mix_model media_data target_data media_prior
                media_sigma transform_function custom_priors (Some kwargs)
                extra_features e w) as [r final].
    simpl. intros ([x ->] & ? & ?). by exists x, final. }
  set (quiet := λ w' : run_record R,
        kernel_calls w' = kernel_calls w
        ∧ sites_named "media_transformed" w'
          = sites_named "media_transformed" w).
  assert (∀ w' s, quiet w' → site_name s ≠ "media_transformed" →
                  quiet (with_site w' s)) as Hquiet.
  { intros w' s [Hcalls Hsites] Hs. split; [done|].
    unfold sites_named, with_site in *. cbn [trace].
    by rewrite filter_app, filter_cons, decide_False, filter_nil, app_nil_r. }
  assert (quiet w) as Hq by done.
  change (after (media_mix_model media_data target_data media_prior
                   media_sigma transform_function custom_priors
                   (Some kwargs) extra_features) e w
            (λ r final, (∃ x, r = Err x) ∧ quiet final)).
  clearbody quiet.
  unfold media_mix_model. apply after_bind, after_lift.
  destruct (media_shape media_data)
    as [[[[data_size n_channels] geo_shape] n_geos]|x];
    [|by split; [eexists|]].
  apply after_bind, after_sample_resolved; [by split; [eexists|]|].
  intros intercept s1 Hs1.
  apply (Hquiet _ s1) in Hq; [|by rewrite Hs1].
  apply after_bind, after_sample_resolved; [by split; [eexists|]|].
  intros sigma s2 Hs2.
  apply (Hquiet _ s2) in Hq; [|by rewrite Hs2].
  apply after_bind, after_plate; [by split; [eexists|]|].
  intros d _ _ _ _.
  apply after_bind, after_sample; [by split; [eexists|]|].
  intros bs1 sh1 v1 _ _ _.
  match goal with
  | |- context [with_site _ ?s] =>
      apply (Hquiet _ s) in Hq; [|by destruct (ndim media_data =? 3)%nat]
  end.
  destruct (ndim media_data =? 3)%nat.
  - apply after_plate; [by split; [eexists|]|]. intros d' _ _ _ _.
    apply after_sample; [by split; [eexists|]|].
    intros bs2 sh2 v2 _ _ _.
    match goal with
    | |- context [with_site _ (sampled_site ?e' "coef_media" ?fn ?o ?v)] =>
        apply (Hquiet _ (sampled_site e' "coef_media" fn o v)) in Hq;
          [|done]
    end.
    apply after_bind, after_bind.
    eapply after_run_eq;
      [by apply (transform_functions_unexpected_keyword name)|].
    split; [by eexists|done].
  - apply after_ret. apply after_bind, after_bind.
    eapply after_run_eq;
      [by apply (transform_functions_unexpected_keyword name)|].
    split; [by eexists|done].
Qed.

End keywords.

(** ** The two kernels of a transform *)

(** The statements of a transform before its kernels: a sampled
    parameter, a pinned parameter. *)
Ltac step_to_kernels :=
  repeat first
    [ apply after_bind, after_sample_per_channel;
      [done|intros ? ? ? ? ? ? _ _ _ _ _ _ _ _ _]
    | apply after_bind, after_lift;
      destruct (as_array _) as [?|?]; [|done] ].

Section pipelines.
Context {R : Type} `{Scalar R} (K : Kernels R).

(** X12.  Each transform is the composition of two kernels.  When a
    transform returns, it has called exactly two kernels: the first on the
    media data ([carryover] for [transform_carryover], [adstock] for the
    six others), the second on the result of the first
    ([apply_exponent_safe], [hill] or [exponential]); and it returns the
    result of the second. *)
Theorem transforms_compose_two_kernels
    (normalise : bool) (number_lags : Z) (name : string)
    (f : ndarray R → gmap string (Prior R) → M R (ndarray R))
    (pipeline : string * string)
    (media_data : ndarray R) (custom_priors : gmap string (Prior R))
    (e : run_env R) (w w' : run_record R) (out : ndarray R) :
  (name, f) ∈ transforms normalise number_lags →
  (name, pipeline) ∈ kernel_pipelines →
  f media_data custom_priors e w = (Ok out, w') →
  ∃ first second mid,
    calls_since w w' [first; second]
    ∧ (callee first, callee second) = pipeline
    ∧ call_data first = media_data
    ∧ replay normalise number_lags first = Ok mid
    ∧ call_data second = mid
    ∧ replay normalise number_lags second = Ok out.
Proof.
  intros Hin Hpipe Hrun.
  cut (after (f media_data custom_priors) e w
         (λ r w',
            ∀ out, r = Ok out →
              ∃ first second mid,
                calls_since w w' [first; second]
                ∧ (callee first, callee second) = pipeline
                ∧ call_data first = media_data
                ∧ replay normalise number_lags first = Ok mid
                ∧ call_data second = mid
                ∧ replay normalise number_lags second = Ok out)).
  { unfold after. rewrite Hrun. simpl. intros Hq. by apply (Hq out). }
  clear Hrun. unfold transforms in Hin.
  repeat (apply elem_of_cons in Hin as [[= -> ->] | Hin]);
    [..|by apply elem_of_nil in Hin];
    unfold kernel_pipelines in Hpipe;
    repeat (apply elem_of_cons in Hpipe as [[= ->] | Hpipe]);
    try (by apply elem_of_nil in Hpipe);
    unfold transform_carryover, transform_adstock, transform_hill_adstock,
      transform_exponential_adstock,
      transform_exponential_adstock_static_dim,
      transform_exponential_adstock_static_decay,
      transform_exponential_adstock_static_dim_decay;
    step_table; step_to_kernels;
    apply after_bind;
    first [apply after_adstock | apply after_carryover];
    match goal with
    | |- match ?r with _ => _ end => destruct r as [mid|?] eqn:Hmid; [|done]
    end;
    first [ apply after_apply_exponent_safe | apply after_hill
          | apply after_exponential ];
    intros out' Hout;
    (eexists _, _, mid; split;
     [unfold calls_since; simpl; by rewrite <- app_assoc|]);
    (split; [reflexivity|]); (split; [reflexivity|]);
    (split; [exact Hmid|]); (split; [reflexivity|]); exact Hout.
Qed.

End pipelines.

(** ** Instances for the transforms *)

Lemma elem_of_transforms_static_dim :
  ("exponential_adstock_static_dim", static_dim_checked)
  ∈ @transforms Z _ (checking_kernels Z) true 13.
Proof. do 4 apply list_elem_of_further. apply list_elem_of_here. Defined.

(** The number 2 as the slope of the static variant that samples the lag
    weight only. *)
Lemma pinned_parameters_take_custom_values_witness :
  sites_named _SLOPE
    (static_dim_checked national_media
       {[ _SLOPE := prior_value (scalar 2%Z) ]}
       (top_level counting_draw) empty_record).2
  = sites_named _SLOPE empty_record
  ∧ ∃ x calls call,
      as_array
        (default (prior_value (float 1))
           (({[ _SLOPE := prior_value (scalar 2%Z) ]}
             : gmap string (Prior Z)) !! _SLOPE))
      = Ok x
      ∧ calls_since empty_record
          (static_dim_checked national_media
             {[ _SLOPE := prior_value (scalar 2%Z) ]}
             (top_level counting_draw) empty_record).2 calls
      ∧ call ∈ calls
      ∧ (_SLOPE, expand_if_geo national_media x) ∈ call_params call.
Proof.
  apply (pinned_parameters_take_custom_values (checking_kernels Z) true 13
           "exponential_adstock_static_dim" static_dim_checked
           [_LAG_WEIGHT] {[ _LAG_WEIGHT; _SLOPE ]} national_media
           {[ _SLOPE := prior_value (scalar 2%Z) ]} _SLOPE
           (top_level counting_draw) empty_record _ national_media
           elem_of_transforms_static_dim).
  - do 4 apply list_elem_of_further. apply list_elem_of_here.
  - reflexivity.
  - apply elem_of_union_r. by apply elem_of_singleton.
  - intros Hin. apply elem_of_cons in Hin as [Hin | Hin];
      [discriminate Hin|by apply elem_of_nil in Hin].
  - vm_compute. reflexivity.
Defined.

(** The keyword [number_lags] handed to the adstock transform. *)
Lemma unexpected_keyword_raises_type_error_witness :
  adstock_function national_media ∅ {[ "number_lags" := kw_int 13 ]}
    (top_level counting_draw) empty_record
  = (Err TypeError, empty_record)
  ∧ ∃ x final,
      @media_mix_model Z _ national_media national_target (scalar 0%Z)
        (scalar 1%Z) adstock_function ∅
        (Some {[ "number_lags" := kw_int 13 ]}) None
        (top_level counting_draw) empty_record
      = (Err x, final)
      ∧ kernel_calls final = kernel_calls (R:=Z) empty_record
      ∧ sites_named "media_transformed" final
        = sites_named "media_transformed" empty_record.
Proof.
  apply (unexpected_keyword_raises_type_error (checking_kernels Z)
           national_media national_target (scalar 0%Z) (scalar 1%Z)
           "adstock" adstock_function ∅ {[ "number_lags" := kw_int 13 ]}
           None (top_level counting_draw) empty_record
           elem_of_transform_functions_adstock).
  intros Hsub.
  assert ("number_lags" ∈ ({[ keyword_of "adstock" ]} : gset string))
    as Hin.
  { apply Hsub. rewrite dom_singleton_L. by apply elem_of_singleton. }
  apply elem_of_singleton in Hin. discriminate Hin.
Defined.

(** The adstock transform on the national media data: [adstock], then
    [apply_exponent_safe]. *)
Lemma transforms_compose_two_kernels_witness :
  ∃ first second mid,
    calls_since empty_record
      (adstock_checked national_media ∅ (top_level counting_draw)
         empty_record).2 [first; second]
    ∧ (callee first, callee second) = ("adstock", "apply_exponent_safe")
    ∧ call_data first = national_media
    ∧ replay (H0:=checking_kernels Z) true 13 first = Ok mid
    ∧ call_data second = mid
    ∧ replay (H0:=checking_kernels Z) true 13 second = Ok national_media.
Proof.
  apply (transforms_compose_two_kernels (checking_kernels Z) true 13
           "adstock" adstock_checked ("adstock", "apply_exponent_safe")
           national_media ∅ (top_level counting_draw) empty_record _
           national_media elem_of_transforms_adstock).
  - apply list_elem_of_further, list_elem_of_here.
  - vm_compute. reflexivity.
Defined.

(** ** Runs on geo data stop at the contraction *)

Section geo_returns.
Context {R : Type} `{Scalar R} (K : Kernels R) `{!ShapePreserving K}.

(** On geo data, with custom priors that fit and without keyword
    arguments, each transform returns an array of the shape of the data. *)
Lemma transform_functions_return_geo name tf sites names
    (media_data : ndarray R) (custom_priors : gmap string (Prior R))
    draw w t c g :
  (name, tf) ∈ transform_functions → (name, sites) ∈ sampled_sites →
  TRANSFORM_PRIORS_NAMES !! name = Some names →
  shape media_data = [t; c; g] → 0 < c →
  transform_priors_fit sites names c custom_priors →
  ∃ out w',
    tf media_data custom_priors ∅ (top_level draw) w = (Ok out, w')
    ∧ shape out = [t; c; g].
Proof.
  intros Hin Hsites Hnames Hs Hpos Hfit.
  assert (shape media_data !! 1 = Some c) as Hc by (by rewrite Hs).
  cut (after (tf media_data custom_priors ∅) (top_level draw) w
         (λ r _, ∃ out, r = Ok out ∧ shape out = shape media_data)).
  { unfold after.
    destruct (tf media_data custom_priors ∅ (top_level draw) w) as [r w'].
    simpl. intros (out & -> & Hout). exists out, w'. by rewrite <- Hs. }
  unfold transform_functions in Hin.
  repeat (apply elem_of_cons in Hin as [[= -> ->] | Hin]);
    [..|by apply elem_of_nil in Hin];
    unfold sampled_sites in Hsites;
    repeat (apply elem_of_cons in Hsites as [[= ->] | Hsites]);
    try (by apply elem_of_nil in Hsites);
    unfold TRANSFORM_PRIORS_NAMES in Hnames; simplify_map_eq;
    unfold def_normalise, def_number_lags;
    apply after_bind, after_lift; cbn [bind_kwargs];
    change (bind_kwargs _ _ ?dflt ∅) with (Ok dflt : result _).
  - (* carryover *)
    unfold transform_carryover. step_table.
    step_sample_fit Hfit c. step_sample_fit Hfit c. step_sample_fit Hfit c.
    apply after_bind, after_carryover.
    destruct (carryover_shape media_data v v0 13 c)
      as (a & -> & Ha); [done|solve_shapes..|].
    apply after_apply_exponent_safe. expand_geo Hs.
    destruct (apply_exponent_safe_shape a (expand_dims v1))
      as (out & -> & Hout); [rewrite Ha; solve_shapes|].
    exists out. split; [done|congruence].
  - (* adstock *)
    unfold transform_adstock. step_table.
    step_sample_fit Hfit c. step_sample_fit Hfit c. expand_geo Hs.
    apply after_bind, after_adstock.
    destruct (adstock_shape media_data (expand_dims v) true)
      as (a & -> & Ha); [solve_shapes|].
    apply after_apply_exponent_safe.
    destruct (apply_exponent_safe_shape a (expand_dims v0))
      as (out & -> & Hout); [rewrite Ha; solve_shapes|].
    exists out. split; [done|congruence].
  - (* hill_adstock *)
    unfold transform_hill_adstock. step_table.
    step_sample_fit Hfit c. step_sample_fit Hfit c. step_sample_fit Hfit c.
    expand_geo Hs.
    apply after_bind, after_adstock.
    destruct (adstock_shape media_data (expand_dims v) true)
      as (a & -> & Ha); [solve_shapes|].
    apply after_hill.
    destruct (hill_shape a (expand_dims v0) (expand_dims v1))
      as (out & -> & Hout); [rewrite Ha; solve_shapes..|].
    exists out. split; [done|congruence].
  - (* exponential_adstock *)
    unfold transform_exponential_adstock. step_table.
    step_sample_fit Hfit c. step_sample_fit Hfit c. expand_geo Hs.
    apply after_bind, after_adstock.
    destruct (adstock_shape media_data (expand_dims v) false)
      as (a & -> & Ha); [solve_shapes|].
    apply after_exponential.
    destruct (exponential_shape a (expand_dims v0)) as (out & -> & Hout);
      [rewrite Ha; solve_shapes|].
    exists out. split; [done|congruence].
  - (* exponential_adstock_static_dim *)
    unfold transform_exponential_adstock_static_dim. step_table.
    step_sample_fit Hfit c. step_pinned_fit Hfit c _SLOPE. expand_geo Hs.
    apply after_bind, after_adstock.
    destruct (adstock_shape media_data (expand_dims v) false)
      as (a & -> & Ha); [solve_shapes|].
    apply after_exponential.
    destruct (exponential_shape a (expand_dims x)) as (out & -> & Hout);
      [rewrite Ha, Hs; by apply broadcasts_to_expand_full|].
    exists out. split; [done|congruence].
  - (* exponential_adstock_static_decay *)
    unfold transform_exponential_adstock_static_decay. step_table.
    step_sample_fit Hfit c. step_pinned_fit Hfit c _LAG_WEIGHT.
    expand_geo Hs.
    apply after_bind, after_adstock.
    destruct (adstock_shape media_data (expand_dims x) false)
      as (a & -> & Ha);
      [rewrite Hs; by apply broadcasts_to_expand_step|].
    apply after_exponential.
    destruct (exponential_shape a (expand_dims v)) as (out & -> & Hout);
      [rewrite Ha; solve_shapes|].
    exists out. split; [done|congruence].
  - (* exponential_adstock_static_dim_decay *)
    unfold transform_exponential_adstock_static_dim_decay. step_table.
    step_pinned_fit Hfit c _LAG_WEIGHT. step_pinned_fit Hfit c _SLOPE.
    expand_geo Hs.
    apply after_bind, after_adstock.
    destruct (adstock_shape media_data (expand_dims x) false)
      as (a & -> & Ha);
      [rewrite Hs; by apply broadcasts_to_expand_step|].
    apply after_exponential.
    destruct (exponential_shape a (expand_dims x0)) as (out & -> & Hout);
      [rewrite Ha, Hs; by apply broadcasts_to_expand_full|].
    exists out. split; [done|congruence].
Qed.

(** X13.  A run on geo data stops at the contraction.  On media data of
    rank 3 with at least one channel and one geo, with kernels that keep
    their shape contract, any of the seven transforms without keyword
    arguments, custom priors that fit the transform and the model and a
    coefficient prior that can be sampled per channel and geo, the run
    declares the sites [intercept], [sigma], [channel_coef_media],
    [coef_media], the sampled parameters of the transform and
    [media_transformed], and then raises [ValueError]: the sites [mu] and
    [target] are never declared. *)
Theorem geo_runs_stop_at_the_contraction
    (media_data target_data media_prior media_sigma : ndarray R)
    (name : string) (transform_function : TransformFunction)
    (sites : list string) (names : gset string)
    (custom_priors : gmap string (Prior R))
    (transform_kwargs : option (gmap string kwarg))
    (extra_features : option (ndarray R))
    (draw : string → nat → R) (t c g : nat) (bs : list nat) :
  shape media_data = [t; c; g] → 0 < c → 0 < g →
  (name, transform_function) ∈ transform_functions →
  (name, sites) ∈ sampled_sites →
  TRANSFORM_PRIORS_NAMES !! name = Some names →
  transform_priors_fit sites names c custom_priors →
  model_priors_per_geo g custom_priors →
  batch_shape (Normal media_prior media_sigma) = Some bs →
  broadcasts_to bs [c; g] →
  default ∅ transform_kwargs = ∅ →
  ∃ final,
    media_mix_model media_data target_data media_prior media_sigma
      transform_function custom_priors transform_kwargs extra_features
      (top_level draw) empty_record
    = (Err ValueError, final)
    ∧ site_name <$> trace final
      = [_INTERCEPT; _SIGMA; "channel_coef_media"; "coef_media"]
        ++ sites ++ ["media_transformed"].
Proof.
  intros Hs Hc Hg Hin Hsites Hnames Hfit Hpriors Hbs Hb Hkw.
  destruct (model_prior_resolved _ _ _INTERCEPT Hpriors (or_introl eq_refl))
    as (di & bsi & Hri & Hbsi & Hbi).
  destruct (model_prior_resolved _ _ _SIGMA Hpriors (or_intror eq_refl))
    as (ds & bss & Hrs & Hbss & Hbs').
  destruct (sample_resolved_run custom_priors _get_default_priors
              _INTERCEPT g draw di bsi Hg Hri Hbsi Hbi)
    as (vi & _ & Hrun_i).
  destruct (sample_resolved_run custom_priors _get_default_priors
              _SIGMA g draw ds bss Hg Hrs Hbss Hbs')
    as (vs & _ & Hrun_s).
  destruct (coef_media_geo_run media_prior media_sigma draw c g bs
              Hc Hg Hbs Hb) as (vch & v & Hv & Hrun_c).
  assert ((ndim media_data =? 3)%nat = true) as Hrank.
  { unfold ndim. by rewrite Hs. }
  cut (after (media_mix_model media_data target_data media_prior
                media_sigma transform_function custom_priors
                transform_kwargs extra_features) (top_level draw)
         empty_record
         (λ r final,
            r = Err ValueError
            ∧ site_name <$> trace final
              = [_INTERCEPT; _SIGMA; "channel_coef_media"; "coef_media"]
                ++ sites ++ ["media_transformed"])).
  { unfold after.
    destruct (media_mix_model media_data target_data media_prior
                media_sigma transform_function custom_priors
                transform_kwargs extra_features (top_level draw)
                empty_record) as [r final].
    simpl. intros (-> & ?). by exists final. }
  unfold media_mix_model. rewrite Hrank, Hkw.
  apply after_bind, after_lift. rewrite (media_shape_geo _ _ _ _ Hs).
  apply after_bind. eapply after_run_eq; [apply Hrun_i|]. cbv beta iota.
  apply after_bind. eapply after_run_eq; [apply Hrun_s|]. cbv beta iota.
  apply after_bind. eapply after_run_eq; [apply Hrun_c|]. cbv beta iota.
  match goal with
  | |- after _ _ ?w3 _ =>
      destruct (transform_functions_return_geo name transform_function
                  sites names media_data custom_priors draw w3 t c g
                  Hin Hsites Hnames Hs Hc Hfit)
        as (out & w' & Hrun & Hout);
      destruct (transform_functions_in_order K name transform_function
                  sites media_data custom_priors ∅ Hin Hsites
                  (top_level draw) w3) as (new & Htrace & _ & Hall)
  end.
  rewrite Hrun in Htrace, Hall. cbn [fst snd] in Htrace, Hall.
  specialize (Hall out eq_refl).
  unfold with_site in Htrace. cbn [trace empty_record] in Htrace.
  apply after_bind, after_bind. eapply after_run_eq; [exact Hrun|].
  cbv beta iota. apply after_deterministic.
  apply after_bind, after_bind, after_lift.
  rewrite (einsum_national_rank out v);
    [|unfold ndim; rewrite Hv; simpl; lia].
  split; [reflexivity|].
  unfold with_site. cbn [trace]. rewrite Htrace.
  rewrite !fmap_app, Hall. reflexivity.
Qed.

End geo_returns.

(** ** The exceptions of a run *)

Section raised.
Context {R : Type} `{Scalar R}.

Lemma raises_only_ret {A} (P : error → Prop) (a : A) :
  raises_only (R:=R) P (ret a).
Proof. intros e w x. discriminate. Qed.

Lemma raises_only_lift {A} (P : error → Prop) (r : result A) :
  (∀ x, r = Err x → P x) → raises_only (R:=R) P (lift r).
Proof. intros Hr e w x. apply Hr. Qed.

Lemma raises_only_record_call (P : error → Prop) (c : kernel_call R) :
  raises_only P (record_call c).
Proof. intros e w x. discriminate. Qed.

Lemma raises_only_bind {A B} (P : error → Prop) (m : M R A)
    (k : A → M R B) :
  raises_only P m → (∀ a, raises_only P (k a)) →
  raises_only P (bind m k).
Proof.
  intros Hm Hk e w x. unfold bind.
  specialize (Hm e w). destruct (m e w) as [[a|y] w1]; simpl in *.
  - apply Hk.
  - intros [= <-]. by apply Hm.
Qed.

(** A pure step whose result is known. *)
Lemma raises_only_bind_ok {A B} (P : error → Prop) (r : result A) (a : A)
    (k : A → M R B) :
  r = Ok a → raises_only P (k a) → raises_only P (bind (lift r) k).
Proof. intros -> Hk e w x. apply Hk. Qed.

Lemma raises_only_plate {A} (P : error → Prop) name size dim
    (body : M R A) :
  P AssertionError → P ValueError → raises_only P body →
  raises_only P (plate name size dim body).
Proof.
  intros Ha Hv Hbody e w x. unfold plate.
  destruct (size =? 0)%nat; [by intros [= <-]|].
  destruct dim as [d|]; [|apply Hbody].
  destruct (0 <=? d)%Z; [by intros [= <-]|].
  case_bool_decide; [by intros [= <-]|apply Hbody].
Qed.

Lemma raises_only_plate_stack {A} (P : error → Prop) prefix sizes
    (body : M R A) :
  P AssertionError → P ValueError → raises_only P body →
  raises_only P (plate_stack prefix sizes body).
Proof.
  intros Ha Hv Hbody. unfold plate_stack. generalize 0.
  induction (rev sizes) as [|size rest IH]; intros i; [done|].
  by apply raises_only_plate.
Qed.

Lemma raises_only_sample (P : error → Prop) name (fn : Distribution R) obs :
  P ValueError → raises_only P (sample name fn obs).
Proof.
  intros Hv e w x. unfold sample.
  destruct (batch_shape fn) as [bs|]; [|by intros [= <-]].
  destruct (plates_expand [] (open_plates e) bs) as [s|];
    [|by intros [= <-]].
  destruct obs as [o|]; simpl; [discriminate|].
  unfold bind, lift.
  destruct (draw_value (draws e name) fn s) as [v|y] eqn:Hd; simpl;
    [discriminate|].
  intros [= <-]. destruct fn; simpl in Hd; try discriminate.
  destruct (broadcast_to s v); [discriminate|]. by injection Hd as <-.
Qed.

Lemma raises_only_deterministic (P : error → Prop) name (v : ndarray R) :
  raises_only P (deterministic name v).
Proof. intros e w x. discriminate. Qed.

Lemma raises_only_sample_prior (P : error → Prop) name (p : Prior R) :
  P ValueError → P TypeError → raises_only P (sample_prior name p).
Proof.
  intros Hv Ht. destruct p as [d|v]; [by apply raises_only_sample|].
  intros e w x [= <-]. done.
Qed.

(** The sampling block of a transform parameter that has a default in
    the table of the transform: the subscript finds it. *)
Lemma raises_only_sample_per_channel (P : error → Prop)
    (media_data : ndarray R)
    (custom_priors default_priors : gmap string (Prior R)) name dflt :
  P IndexError → P AssertionError → P ValueError → P TypeError →
  default_priors !! name = Some dflt →
  raises_only P
    (sample_per_channel media_data custom_priors default_priors name).
Proof.
  intros Hi Ha Hv Ht Hd. unfold sample_per_channel.
  apply raises_only_bind.
  { apply raises_only_lift. unfold tuple_getitem.
    destruct (shape media_data !! 1); [discriminate|by intros ? [= <-]]. }
  intros size. apply raises_only_plate; [done..|].
  eapply raises_only_bind_ok; [by apply resolve_prior_valid|].
  by apply raises_only_sample_prior.
Qed.

Lemma einsum_raises (subscripts : string) (a b : ndarray R) x :
  einsum subscripts a b = Err x → x = ValueError.
Proof.
  unfold einsum.
  repeat case_match; (discriminate || by intros [= <-]).
Qed.

Lemma add_raises (a b : ndarray R) x : add a b = Err x → x = ValueError.
Proof.
  unfold add, broadcast_binop.
  case_match; (discriminate || by intros [= <-]).
Qed.

End raised.

(** The exception of a kernel is raised by a kernel. *)
Ltac by_a_kernel :=
  let x := fresh "x" in
  let Hx := fresh "Hx" in
  intros x Hx; right; unfold raised_by_a_kernel;
  first [ left; by eauto
        | right; left; by eauto
        | right; right; left; by eauto
        | right; right; right; left; by eauto
        | right; right; right; right; by eauto ].

(** Walking through a computation to list the exceptions it raises. *)
Ltac raises_walk :=
  repeat first
    [ apply raises_only_ret
    | apply raises_only_record_call
    | apply raises_only_deterministic
    | eapply raises_only_sample_per_channel;
      [by left; written_out..|reflexivity]
    | apply raises_only_sample_prior; [by left; written_out..]
    | apply raises_only_sample; [by left; written_out]
    | apply raises_only_plate_stack; [by left; written_out..|]
    | apply raises_only_plate; [by left; written_out..|]
    | eapply raises_only_bind_ok; [reflexivity|]
    | apply raises_only_bind; [|intros ?] ].

Section model_exceptions.
Context {R : Type} `{Scalar R} (K : Kernels R).

(** The exceptions of the transforms. *)
Lemma transform_functions_raise_only name tf (media_data : ndarray R)
    (custom_priors : gmap string (Prior R)) (kwargs : gmap string kwarg) :
  (name, tf) ∈ transform_functions →
  raises_only
    (λ x, x ∈ [IndexError; AssertionError; ValueError; TypeError]
          ∨ raised_by_a_kernel K x)
    (tf media_data custom_priors kwargs).
Proof.
  intros Hin. unfold transform_functions in Hin.
  repeat (apply elem_of_cons in Hin as [[= -> ->] | Hin]);
    [..|by apply elem_of_nil in Hin];
    unfold def_normalise, def_number_lags;
    (apply raises_only_bind;
     [ apply raises_only_lift; unfold bind_kwargs;
       intros x; repeat case_match; (discriminate || intros [= <-]);
       left; written_out
     | intros ? ]);
    unfold transform_carryover, transform_adstock, transform_hill_adstock,
      transform_exponential_adstock,
      transform_exponential_adstock_static_dim,
      transform_exponential_adstock_static_decay,
      transform_exponential_adstock_static_dim_decay,
      media_transforms.adstock, media_transforms.carryover,
      media_transforms.hill, media_transforms.exponential,
      media_transforms.apply_exponent_safe;
    repeat first
      [ progress raises_walk
      | apply raises_only_lift;
        first [ by_a_kernel
              | unfold as_array; intros x; case_match;
                (discriminate || intros [= <-]); left; written_out ] ].
Qed.

Lemma media_shape_raises (media_data : ndarray R) x :
  media_shape media_data = Err x → x = IndexError.
Proof.
  unfold media_shape, tuple_getitem, ndim.
  destruct (shape media_data) as [|t [|c [|g [|? ?]]]]; simpl;
    (discriminate || by intros [= <-]).
Qed.

(** X14.  The exceptions of a run.  With any of the seven transforms, a
    run of the model raises [IndexError] (media data or extra features
    of rank less than 2), [AssertionError] (a plate of size 0),
    [ValueError] (shapes that do not broadcast or do not contract),
    [TypeError] (a prior that is not a distribution, a pinned parameter
    that is one, an unexpected keyword) or an exception that a kernel
    raises, and no other: every subscript of a table of default priors
    finds its key. *)
Theorem model_raises_only_these_exceptions
    (media_data target_data media_prior media_sigma : ndarray R)
    (name : string) (transform_function : TransformFunction)
    (custom_priors : gmap string (Prior R))
    (transform_kwargs : option (gmap string kwarg))
    (extra_features : option (ndarray R)) (e : run_env R)
    (w : run_record R) (x : error) :
  (name, transform_function) ∈ transform_functions →
  (media_mix_model media_data target_data media_prior media_sigma
     transform_function custom_priors transform_kwargs extra_features
     e w).1 = Err x →
  x ∈ [IndexError; AssertionError; ValueError; TypeError]
  ∨ raised_by_a_kernel K x.
Proof.
  intros Hin. revert e w x.
  change (raises_only
            (λ x, x ∈ [IndexError; AssertionError; ValueError; TypeError]
                  ∨ raised_by_a_kernel K x)
            (media_mix_model media_data target_data media_prior
               media_sigma transform_function custom_priors
               transform_kwargs extra_features)).
  unfold media_mix_model.
  apply raises_only_bind.
  { apply raises_only_lift. intros x Hx%media_shape_raises. subst.
    left. written_out. }
  intros [[[data_size n_channels] geo_shape] n_geos].
  destruct (ndim media_data =? 3)%nat, extra_features as [extra_features|];
    repeat first
      [ apply (transform_functions_raise_only name); exact Hin
      | progress raises_walk
      | apply raises_only_lift;
        let x := fresh "x" in
        let Hx := fresh "Hx" in
        intros x Hx;
        first [ apply einsum_raises in Hx | apply add_raises in Hx
              | unfold tuple_getitem in Hx;
                destruct (shape extra_features !! 1); [discriminate|];
                injection Hx as <- ];
        subst; left; written_out ].
Qed.

End model_exceptions.

(** ** Instances on the geo media data *)

(** The model with the adstock transform on the geo media data. *)
Lemma geo_runs_stop_at_the_contraction_witness :
  ∃ final,
    geo_model_run counting_draw = (Err ValueError, final)
    ∧ site_name <$> trace final
      = [_INTERCEPT; _SIGMA; "channel_coef_media"; "coef_media"]
        ++ [_LAG_WEIGHT; _EXPONENT] ++ ["media_transformed"].
Proof.
  apply (geo_runs_stop_at_the_contraction (checking_kernels Z) geo_media
           geo_target (scalar 0%Z) (scalar 1%Z) "adstock" adstock_function
           [_LAG_WEIGHT; _EXPONENT] {[ _EXPONENT; _LAG_WEIGHT ]} ∅ None
           None counting_draw 2 4 3 [] eq_refl ltac:(lia) ltac:(lia)
           elem_of_transform_functions_adstock
           elem_of_sampled_sites_adstock eq_refl
           (no_custom_transform_priors _ _ _) (no_custom_model_priors 3)
           eq_refl (broadcast_shapes_nil_l [4; 3]) eq_refl).
Defined.

(** The exception of the run on the geo media data is one of the
    list. *)
Lemma model_raises_only_these_exceptions_witness :
  ValueError ∈ [IndexError; AssertionError; ValueError; TypeError]
  ∨ raised_by_a_kernel (checking_kernels Z) ValueError.
Proof.
  apply (model_raises_only_these_exceptions (checking_kernels Z) geo_media
           geo_target (scalar 0%Z) (scalar 1%Z) "adstock" adstock_function
           ∅ None None (top_level counting_draw) empty_record ValueError
           elem_of_transform_functions_adstock).
  vm_compute. reflexivity.
Defined.

(** ** The sites of the transform parameters *)

(** The end of a walk through a transform: the sites it has added. *)
Ltac sites_added :=
  eexists; split;
  [ unfold with_call, with_site; cbn [trace]; rewrite <- ?app_assoc;
    first [reflexivity | symmetry; apply app_nil_r]
  | simpl;
    repeat (constructor;
            [eexists _, _; refine (conj _ (conj _ eq_refl)); eassumption|]);
    constructor ].

Section per_channel_sites.
Context {R : Type} `{Scalar R} (K : Kernels R).

(** X15.  The sampled parameters of a transform have one value per
    channel.  On media data with [c > 0] channels and with custom priors
    that fit, run outside any plate, a transform adds to the record, in
    the order of its statements, one site per parameter it samples and no
    other site, whatever the kernels return: the site of a parameter is
    sampled from the custom prior of its name if there is one and from
    the default of the table of the transform otherwise, inside the plate
    named after the parameter (size [c], dimension -1), it is not
    observed, and its value has the shape [(c,)]. *)
Theorem sampled_parameters_are_per_channel
    (normalise : bool) (number_lags : Z) (name : string)
    (f : ndarray R → gmap string (Prior R) → M R (ndarray R))
    (sites : list string) (names : gset string)
    (table : gmap string (Prior R))
    (media_data : ndarray R) (custom_priors : gmap string (Prior R))
    (draw : string → nat → R) (w : run_record R) (c : nat) :
  (name, f) ∈ transforms normalise number_lags →
  (name, sites) ∈ sampled_sites →
  TRANSFORM_PRIORS_NAMES !! name = Some names →
  _get_transform_default_priors !! name = Some table →
  shape media_data !! 1 = Some c → 0 < c →
  transform_priors_fit sites names c custom_priors →
  ∃ new,
    trace (f media_data custom_priors (top_level draw) w).2 = trace w ++ new
    ∧ Forall2
        (λ k s,
           ∃ d v,
             resolve_prior custom_priors table k = Ok (prior_distribution d)
             ∧ shape v = [c]
             ∧ s = sampled_site
                     (under_plate (top_level draw) (channel_plate k c))
                     k d None v)
        sites new.
Proof.
  intros Hin Hsites Hnames Htable Hc Hpos Hfit.
  change (after (f media_data custom_priors) (top_level draw) w
            (λ _ w',
               ∃ new,
                 trace w' = trace w ++ new
                 ∧ Forall2
                     (λ k s,
                        ∃ d v,
                          resolve_prior custom_priors table k
                          = Ok (prior_distribution d)
                          ∧ shape v = [c]
                          ∧ s = sampled_site
                                  (under_plate (top_level draw)
                                     (channel_plate k c))
                                  k d None v)
                     sites new)).
  unfold transforms in Hin.
  repeat (apply elem_of_cons in Hin as [[= -> ->] | Hin]);
    [..|by apply elem_of_nil in Hin];
    unfold sampled_sites in Hsites;
    repeat (apply elem_of_cons in Hsites as [[= ->] | Hsites]);
    try (by apply elem_of_nil in Hsites);
    unfold TRANSFORM_PRIORS_NAMES in Hnames;
    unfold _get_transform_default_priors in Htable; simplify_map_eq;
    unfold transform_carryover, transform_adstock, transform_hill_adstock,
      transform_exponential_adstock,
      transform_exponential_adstock_static_dim,
      transform_exponential_adstock_static_decay,
      transform_exponential_adstock_static_dim_decay;
    step_table;
    repeat first
      [ step_sample_fit Hfit c
      | apply after_bind, after_lift;
        destruct (as_array _) as [?|?]; [|sites_added] ];
    apply after_bind;
    first [apply after_adstock | apply after_carryover];
    match goal with
    | |- match ?r with _ => _ end => destruct r as [?|?]; [|sites_added]
    end;
    first [ apply after_apply_exponent_safe | apply after_hill
          | apply after_exponential ];
    sites_added.
Qed.

End per_channel_sites.

(** ** Plain values as priors of the model *)

Section model_plain_values.
Context {R : Type} `{Scalar R} (K : Kernels R).

(** The sampling block of a model parameter whose custom prior is a plain
    value. *)
Lemma sample_resolved_raises
    (custom_priors default_priors : gmap string (Prior R)) name size v dflt
    e w :
  0 < size →
  custom_priors !! name = Some (prior_value v) →
  default_priors !! name = Some dflt →
  plate (name +:+ "_plate") size None
    (bind (lift (resolve_prior custom_priors default_priors name))
          (λ fn, sample_prior name fn)) e w
  = (Err TypeError, w).
Proof.
  intros Hpos Hk Hd. unfold plate. destruct size as [|n]; [lia|].
  cbn [Nat.eqb]. unfold bind, lift.
  by rewrite (resolve_prior_valid _ _ _ dflt Hd), Hk.
Qed.

(** X16.  A custom prior of the intercept or of sigma that is a plain
    value makes the run raise [TypeError] at the sample statement of the
    parameter.  For the intercept this is the first statement: nothing
    is declared.  For sigma the site [intercept] is declared and nothing
    else; no kernel is called. *)
Theorem plain_value_for_intercept_or_sigma_raises_type_error
    (media_data target_data media_prior media_sigma : ndarray R)
    (transform_function : TransformFunction)
    (custom_priors : gmap string (Prior R))
    (transform_kwargs : option (gmap string kwarg))
    (extra_features : option (ndarray R))
    (v : ndarray R) (t c : nat) (rest : list nat) :
  shape media_data = t :: c :: rest →
  0 < n_geos_of (shape media_data) →
  (custom_priors !! _INTERCEPT = Some (prior_value v) →
   ∀ e w,
     media_mix_model media_data target_data media_prior media_sigma
       transform_function custom_priors transform_kwargs extra_features
       e w
     = (Err TypeError, w))
  ∧ (custom_priors !! _SIGMA = Some (prior_value v) →
     (∀ p, custom_priors !! _INTERCEPT = Some p →
           broadcasting_distribution [n_geos_of (shape media_data)] p) →
     ∀ draw,
       ∃ final,
         media_mix_model media_data target_data media_prior media_sigma
           transform_function custom_priors transform_kwargs
           extra_features (top_level draw) empty_record
         = (Err TypeError, final)
         ∧ site_name <$> trace final = [_INTERCEPT]
         ∧ kernel_calls final = []).
Proof.
  intros Hs Hn.
  destruct (media_shape_from media_data t c rest Hs) as [geo_shape Hshape].
  split.
  - intros Hk e w. unfold media_mix_model.
    unfold bind at 1, lift at 1. rewrite Hshape.
    unfold bind at 1.
    by erewrite sample_resolved_raises.
  - intros Hk Hi draw.
    assert (∃ di bsi,
              resolve_prior custom_priors _get_default_priors _INTERCEPT
              = Ok (prior_distribution di)
              ∧ batch_shape di = Some bsi
              ∧ broadcasts_to bsi [n_geos_of (shape media_data)])
      as (di & bsi & Hri & Hbsi & Hbi).
    { erewrite resolve_prior_valid by reflexivity.
      destruct (custom_priors !! _INTERCEPT) as [p|] eqn:Hp; simpl.
      - specialize (Hi p eq_refl). destruct p as [d|?]; [|done].
        destruct Hi as (bs & ? & ?). by exists d, bs.
      - eexists _, []. split; [done|].
        split; [reflexivity|apply broadcast_shapes_nil_l]. }
    destruct (sample_resolved_run custom_priors _get_default_priors
                _INTERCEPT _ draw di bsi Hn Hri Hbsi Hbi)
      as (vi & _ & Hrun_i).
    eexists. unfold media_mix_model.
    unfold bind at 1, lift at 1. rewrite Hshape.
    unfold bind at 1. rewrite Hrun_i.
    unfold bind at 1. erewrite sample_resolved_raises; [|done..].
    split; [reflexivity|]. split; reflexivity.
Qed.

End model_plain_values.

(** ** Instances for the parameters *)

(** The two parameters of the adstock transform on the national media
    data. *)
Lemma sampled_parameters_are_per_channel_witness :
  ∃ new,
    trace (adstock_checked national_media ∅ (top_level counting_draw)
             empty_record).2
    = trace empty_record ++ new
    ∧ Forall2
        (λ k s,
           ∃ d v,
             resolve_prior ∅
               {[ _EXPONENT := prior_distribution (Beta (float 9) (float 1));
                  _LAG_WEIGHT :=
                    prior_distribution (Beta (float 2) (float 1)) ]}
               k
             = Ok (prior_distribution d)
             ∧ shape v = [2]
             ∧ s = sampled_site
                     (under_plate (top_level counting_draw)
                        (channel_plate k 2))
                     k d None v)
        [_LAG_WEIGHT; _EXPONENT] new.
Proof.
  apply (sampled_parameters_are_per_channel (checking_kernels Z) true 13
           "adstock" adstock_checked [_LAG_WEIGHT; _EXPONENT]
           {[ _EXPONENT; _LAG_WEIGHT ]}
           {[ _EXPONENT := prior_distribution (Beta (float 9) (float 1));
              _LAG_WEIGHT := prior_distribution (Beta (float 2) (float 1)) ]}
           national_media ∅ counting_draw empty_record 2
           elem_of_transforms_adstock elem_of_sampled_sites_adstock eq_refl
           eq_refl eq_refl ltac:(lia) (no_custom_transform_priors _ _ _)).
Defined.

(** The number 2 as the custom prior of the intercept. *)
Lemma plain_value_for_intercept_witness :
  @media_mix_model Z _ national_media national_target (scalar 0%Z)
    (scalar 1%Z) adstock_function
    {[ _INTERCEPT := prior_value (scalar 2%Z) ]} None None
    (top_level counting_draw) empty_record
  = (Err TypeError, empty_record).
Proof.
  apply (proj1 (plain_value_for_intercept_or_sigma_raises_type_error
                  national_media national_target (scalar 0%Z) (scalar 1%Z)
                  adstock_function
                  {[ _INTERCEPT := prior_value (scalar 2%Z) ]} None None
                  (scalar 2%Z) 3 2 [] eq_refl ltac:(simpl; lia))).
  reflexivity.
Defined.
